(** * pyre: cost-basis ledger, snapshot backfill and sync orchestration

    A shallow embedding of the Go backend of pyre (packages [storage],
    [backfill], [polymarket], [api] and [config]) and the properties of
    its FIFO cost-basis ledger, of the snapshot rebuilder and of the
    per-account sync cycle.

    Conventions of the embedding:
    - [float64] amounts (prices, sizes, PnL) are exact rationals [Q] where
      a property does not depend on rounding: the lots, the counters, the
      rows that are skipped, what is stored and when. The two ledger
      passes are also given in binary64 ([Binary64]), operation by
      operation, for the comparison of the totals that they compute.
    - [time.Time] is a number of seconds since the Unix epoch ([Z]), all in
      one location; [Truncate(24 * time.Hour)] is the start of the UTC day.
    - Go pointers to scalars ([*string], [*float64], [*time.Time]) are
      [option]s; Go maps are [gmap]s; Go [int] counters are [Z].
    - The SQLite database is a record of tables (lists of rows); storage
      statements and upstream requests can fail, which is decided by an
      explicit oracle that is part of the environment. Foreign keys hold
      by construction (user ids come from [GetUser] and users are never
      deleted) and are not checked.
    - A run is sequential: [context.Context] and its cancellation are not
      represented, and the wall clock has one reading per run.
    - A log line is reduced to its level, its message and the value of its
      identifying field. *)

From Stdlib Require Import ZArith QArith Lqa String List Lia.
From Stdlib Require Floats DecimalString.
From stdpp Require Import base option list gmap strings sorting.

Local Open Scope Z_scope.

(** ** Amounts *)

Definition Qltb (x y : Q) : bool := negb (Qle_bool y x).

(** ** Package storage: rows *)

Module Trade.
(** [storage.Trade]; the row id and [created_at] are assigned by SQLite
    and read by none of the modelled functions. *)
Record t := mk {
  UserID : Z;
  Address : string;
  TradeID : option string;
  ConditionID : option string;
  MarketTitle : option string;
  MarketSlug : option string;
  Outcome : option string;
  Side : option string;
  Price : option Q;
  Size : option Q;
  Value : option Q;
  Timestamp : option Z
}.
End Trade.

Module fifoLot.
Record t := mk { Shares : Q; Price : Q }.
End fifoLot.

(** The local [positionKey] struct of both ledger passes. *)
Record positionKey := mkKey { conditionID : string; outcome : string }.

#[global] Instance positionKey_eq_dec : EqDecision positionKey.
Proof. solve_decision. Defined.

#[global] Instance positionKey_countable : Countable positionKey :=
  inj_countable' (fun k => (conditionID k, outcome k))
                 (fun p => mkKey p.1 p.2)
                 (fun k => match k with mkKey _ _ => eq_refl end).

(** [m[key]] on a Go map of slices: the nil slice when the key is absent. *)
Definition lots_at {L : Type} (m : gmap positionKey (list L)) (key : positionKey) : list L :=
  default [] (m !! key).

(** ** The live-stats ledger pass ([storage.CalculateRealizedPnlFromTrades]) *)

Module Live.

Record acc := mkAcc { realizedPnl : Q; wins : Z; losses : Z }.

(** The [if pnl > 0 { wins++ } else if pnl < 0 { losses++ }] block. *)
Definition count (pnl : Q) (a : acc) : acc :=
  let r := (realizedPnl a + pnl)%Q in
  if Qltb 0 pnl then mkAcc r (wins a + 1) (losses a)
  else if Qltb pnl 0 then mkAcc r (wins a) (losses a + 1)
  else mkAcc r (wins a) (losses a).

(** The loop [for remainingToSell > 0 && len(lots) > 0]: returns the
    slice [lots], [remainingToSell] and the counters at loop exit. *)
Fixpoint match_lots (price : Q) (lots : list fifoLot.t) (remainingToSell : Q) (a : acc)
  : list fifoLot.t * Q * acc :=
  if Qltb 0 remainingToSell then
    match lots with
    | [] => (lots, remainingToSell, a)
    | lot :: rest =>
        if Qle_bool (fifoLot.Shares lot) remainingToSell then
          let costBasis := (fifoLot.Shares lot * fifoLot.Price lot)%Q in
          let proceeds := (fifoLot.Shares lot * price)%Q in
          let pnl := (proceeds - costBasis)%Q in
          match_lots price rest (remainingToSell - fifoLot.Shares lot)%Q (count pnl a)
        else
          let costBasis := (remainingToSell * fifoLot.Price lot)%Q in
          let proceeds := (remainingToSell * price)%Q in
          let pnl := (proceeds - costBasis)%Q in
          (fifoLot.mk (fifoLot.Shares lot - remainingToSell)%Q (fifoLot.Price lot) :: rest,
           0%Q, count pnl a)
    end
  else (lots, remainingToSell, a).

Record state := mkState {
  inventory : gmap positionKey (list fifoLot.t);
  totals : acc
}.

Definition init : state := mkState ∅ (mkAcc 0 0 0).

(** One iteration of [for _, trade := range trades]. *)
Definition step (st : state) (trade : Trade.t) : state :=
  match Trade.ConditionID trade, Trade.Outcome trade, Trade.Side trade with
  | Some cid, Some out, Some side =>
      match Trade.Price trade, Trade.Size trade with
      | Some price, Some size =>
          let key := mkKey cid out in
          if String.eqb side "BUY" then
            mkState (<[key := lots_at (inventory st) key ++ [fifoLot.mk size price]]> (inventory st))
                    (totals st)
          else if String.eqb side "SELL" then
            let '(lots, _, a) := match_lots price (lots_at (inventory st) key) size (totals st) in
            mkState (<[key := lots]> (inventory st)) a
          else st
      | _, _ => st
      end
  | _, _, _ => st
  end.

Definition run (trades : list Trade.t) : state := fold_left step trades init.

(** The returned triple [(realizedPnl, wins, wins + losses)]. *)
Definition result (st : state) : Q * Z * Z :=
  (realizedPnl (totals st), wins (totals st), wins (totals st) + losses (totals st)).

End Live.

(** ** Package backfill: the backfill ledger pass *)

Module Backfill.

(** [backfill.lot] *)
Record lot := mkLot { price : Q; size : Q }.

(** The loop [for remainingToSell > 0 && len(lots) > 0] of
    [calculateRealizedPnlFIFO]: returns [lots], [remainingToSell] and
    [realizedPnl] at loop exit. *)
Fixpoint consume (sellPrice : Q) (lots : list lot) (remainingToSell realizedPnl : Q)
  : list lot * Q * Q :=
  if Qltb 0 remainingToSell then
    match lots with
    | [] => (lots, remainingToSell, realizedPnl)
    | currentLot :: rest =>
        if Qle_bool (size currentLot) remainingToSell then
          let pnl := ((sellPrice - price currentLot) * size currentLot)%Q in
          consume sellPrice rest (remainingToSell - size currentLot)%Q (realizedPnl + pnl)%Q
        else
          let pnl := ((sellPrice - price currentLot) * remainingToSell)%Q in
          (mkLot (price currentLot) (size currentLot - remainingToSell)%Q :: rest,
           0%Q, (realizedPnl + pnl)%Q)
    end
  else (lots, remainingToSell, realizedPnl).

(** [calculateRealizedPnlFIFO]: the realized PnL of one sell and the
    cost-basis map it leaves (the Go code updates the map in place). *)
Definition calculateRealizedPnlFIFO (costBasis : gmap positionKey (list lot))
    (key : positionKey) (sellPrice sellSize : Q) : Q * gmap positionKey (list lot) :=
  match costBasis !! key with
  | None | Some [] => ((sellPrice * sellSize)%Q, costBasis)
  | Some lots =>
      let '(lots', remainingToSell, realizedPnl) := consume sellPrice lots sellSize 0%Q in
      let costBasis' := <[key := lots']> costBasis in
      if Qltb 0 remainingToSell
      then ((realizedPnl + sellPrice * remainingToSell)%Q, costBasis')
      else (realizedPnl, costBasis')
  end.

(** [timestamp.Truncate(24 * time.Hour)] *)
Definition Truncate24h (timestamp : Z) : Z := 86400 * (timestamp / 86400).

(** The variables of the first loop of [BackfillUser]. *)
Record state := mkState {
  costBasis : gmap positionKey (list lot);
  cumulativeRealizedPnl : Q;
  dailyPnl : gmap Z Q;
  oldestDate : option Z;
  newestDate : option Z
}.

Definition init : state := mkState ∅ 0%Q ∅ None None.

Definition track_oldest (oldest : option Z) (timestamp : Z) : option Z :=
  match oldest with
  | None => Some timestamp
  | Some o => if timestamp <? o then Some timestamp else oldest
  end.

Definition track_newest (newest : option Z) (timestamp : Z) : option Z :=
  match newest with
  | None => Some timestamp
  | Some n => if n <? timestamp then Some timestamp else newest
  end.

(** One iteration of the first [for _, trade := range trades]. *)
Definition step (st : state) (trade : Trade.t) : state :=
  match Trade.Timestamp trade, Trade.ConditionID trade, Trade.Outcome trade,
        Trade.Side trade, Trade.Price trade, Trade.Size trade with
  | Some timestamp, Some cid, Some out, Some side, Some price, Some size =>
      let key := mkKey cid out in
      let day := Truncate24h timestamp in
      let oldest := track_oldest (oldestDate st) timestamp in
      let newest := track_newest (newestDate st) timestamp in
      if String.eqb side "BUY" then
        mkState (<[key := lots_at (costBasis st) key ++ [mkLot price size]]> (costBasis st))
                (cumulativeRealizedPnl st) (dailyPnl st) oldest newest
      else if String.eqb side "SELL" then
        let '(realizedPnl, costBasis') :=
          calculateRealizedPnlFIFO (costBasis st) key price size in
        let cumulative := (cumulativeRealizedPnl st + realizedPnl)%Q in
        mkState costBasis' cumulative (<[day := cumulative]> (dailyPnl st)) oldest newest
      else
        mkState (costBasis st) (cumulativeRealizedPnl st) (dailyPnl st) oldest newest
  | _, _, _, _, _, _ => st
  end.

Definition run (trades : list Trade.t) : state := fold_left step trades init.

End Backfill.

(** ** The two ledger passes in binary64

    The same two loops with the operations of [float64], each of them
    rounded to the nearest binary64 (as Go compiles them for amd64 by
    default, without fusing a multiplication with an addition or a
    subtraction). A row gives its price and its size
    as decimals; the [float64] that holds such an amount is the binary64
    nearest to it. *)

Module Binary64.
Import PrimFloat.
Local Open Scope float_scope.

(** [float64(z)] *)
Definition of_Z (z : Z) : float :=
  match z with
  | Z0 => 0
  | Zpos _ => of_uint63 (Uint63.of_Z z)
  | Zneg p => - of_uint63 (Uint63.of_Z (Zpos p))
  end.

(** The binary64 nearest to a decimal amount: the quotient, rounded once,
    of its numerator and denominator (exact below 2^53). *)
Definition of_Q (q : Q) : float := of_Z (Qnum q) / of_Z (Zpos (Qden q)).

Module Live.
(** [storage.CalculateRealizedPnlFromTrades] *)

Record fifoLot := mkLot { Shares : float; Price : float }.

Record acc := mkAcc { realizedPnl : float; wins : Z; losses : Z }.

Definition count (pnl : float) (a : acc) : acc :=
  let r := realizedPnl a + pnl in
  if 0 <? pnl then mkAcc r (wins a + 1)%Z (losses a)
  else if pnl <? 0 then mkAcc r (wins a) (losses a + 1)%Z
  else mkAcc r (wins a) (losses a).

Fixpoint match_lots (price : float) (lots : list fifoLot) (remainingToSell : float) (a : acc)
  : list fifoLot * float * acc :=
  if 0 <? remainingToSell then
    match lots with
    | [] => (lots, remainingToSell, a)
    | lot :: rest =>
        if Shares lot <=? remainingToSell then
          let costBasis := Shares lot * Price lot in
          let proceeds := Shares lot * price in
          let pnl := proceeds - costBasis in
          match_lots price rest (remainingToSell - Shares lot) (count pnl a)
        else
          let costBasis := remainingToSell * Price lot in
          let proceeds := remainingToSell * price in
          let pnl := proceeds - costBasis in
          (mkLot (Shares lot - remainingToSell) (Price lot) :: rest, 0, count pnl a)
    end
  else (lots, remainingToSell, a).

Record state := mkState {
  inventory : gmap positionKey (list fifoLot);
  totals : acc
}.

Definition init : state := mkState ∅ (mkAcc 0 0 0).

Definition step (st : state) (trade : Trade.t) : state :=
  match Trade.ConditionID trade, Trade.Outcome trade, Trade.Side trade with
  | Some cid, Some out, Some side =>
      match Trade.Price trade, Trade.Size trade with
      | Some price, Some size =>
          let key := mkKey cid out in
          let price := of_Q price in
          let size := of_Q size in
          if String.eqb side "BUY" then
            mkState (<[key := lots_at (inventory st) key ++ [mkLot size price]]> (inventory st))
                    (totals st)
          else if String.eqb side "SELL" then
            let '(lots, _, a) := match_lots price (lots_at (inventory st) key) size (totals st) in
            mkState (<[key := lots]> (inventory st)) a
          else st
      | _, _ => st
      end
  | _, _, _ => st
  end.

Definition run (trades : list Trade.t) : state := fold_left step trades init.

End Live.

Module Backfill.
(** [calculateRealizedPnlFIFO] and the realized total of the first loop
    of [BackfillUser]. *)

Record lot := mkLot { price : float; size : float }.

Fixpoint consume (sellPrice : float) (lots : list lot) (remainingToSell realizedPnl : float)
  : list lot * float * float :=
  if 0 <? remainingToSell then
    match lots with
    | [] => (lots, remainingToSell, realizedPnl)
    | currentLot :: rest =>
        if size currentLot <=? remainingToSell then
          let pnl := (sellPrice - price currentLot) * size currentLot in
          consume sellPrice rest (remainingToSell - size currentLot) (realizedPnl + pnl)
        else
          let pnl := (sellPrice - price currentLot) * remainingToSell in
          (mkLot (price currentLot) (size currentLot - remainingToSell) :: rest,
           0, realizedPnl + pnl)
    end
  else (lots, remainingToSell, realizedPnl).

Definition calculateRealizedPnlFIFO (costBasis : gmap positionKey (list lot))
    (key : positionKey) (sellPrice sellSize : float) : float * gmap positionKey (list lot) :=
  match costBasis !! key with
  | None | Some [] => (sellPrice * sellSize, costBasis)
  | Some lots =>
      let '(lots', remainingToSell, realizedPnl) := consume sellPrice lots sellSize 0 in
      let costBasis' := <[key := lots']> costBasis in
      if 0 <? remainingToSell
      then (realizedPnl + sellPrice * remainingToSell, costBasis')
      else (realizedPnl, costBasis')
  end.

Record state := mkState {
  costBasis : gmap positionKey (list lot);
  cumulativeRealizedPnl : float
}.

Definition init : state := mkState ∅ 0.

Definition step (st : state) (trade : Trade.t) : state :=
  match Trade.Timestamp trade, Trade.ConditionID trade, Trade.Outcome trade,
        Trade.Side trade, Trade.Price trade, Trade.Size trade with
  | Some _, Some cid, Some out, Some side, Some price, Some size =>
      let key := mkKey cid out in
      let price := of_Q price in
      let size := of_Q size in
      if String.eqb side "BUY" then
        mkState (<[key := lots_at (costBasis st) key ++ [mkLot price size]]> (costBasis st))
                (cumulativeRealizedPnl st)
      else if String.eqb side "SELL" then
        let '(realizedPnl, costBasis') :=
          calculateRealizedPnlFIFO (costBasis st) key price size in
        mkState costBasis' (cumulativeRealizedPnl st + realizedPnl)
      else st
  | _, _, _, _, _, _ => st
  end.

Definition run (trades : list Trade.t) : state := fold_left step trades init.

End Backfill.

End Binary64.

(** ** Package storage: the remaining rows and the database *)

Module User.
Record t := mk {
  ID : Z;
  Username : string;
  CreatedAt : Z;
  LastSynced : option Z;
  ProfileImage : option string;
  OfficialPnl : option Q;
  OfficialVolume : option Q
}.
End User.

Module Address.
Record t := mk { UserID : Z; Address : string }.
End Address.

Module Position.
Record t := mk {
  UserID : Z;
  Address : string;
  ConditionID : string;
  Asset : string;
  MarketTitle : option string;
  MarketSlug : option string;
  Outcome : option string;
  Size : option Q;
  AvgPrice : option Q;
  CurrentPrice : option Q;
  InitialValue : option Q;
  CurrentValue : option Q;
  UnrealizedPnl : option Q;
  UnrealizedPnlPercent : option Q;
  RealizedPnl : option Q;
  EndDate : option Z
}.
End Position.

Module PnlSnapshot.
Record t := mk {
  UserID : Z;
  Timestamp : Z;
  TotalPnl : option Q;
  RealizedPnl : option Q;
  UnrealizedPnl : option Q
}.
End PnlSnapshot.

Module UserStats.
Record t := mk {
  Username : string;
  Addresses : list string;
  ProfileImage : option string;
  TotalPnl : Q;
  RealizedPnl : Q;
  UnrealizedPnl : Q;
  OpenPositions : Z;
  TotalTrades : Z;
  WinRate : Q;
  LastSynced : option Z
}.
End UserStats.

(** The tables of the SQLite schema that the modelled code touches. *)
Record DB := mkDB {
  users : list User.t;
  addresses : list Address.t;
  positions : list Position.t;
  trades : list Trade.t;
  pnl_snapshots : list PnlSnapshot.t
}.

Definition set_users (f : list User.t -> list User.t) (d : DB) : DB :=
  mkDB (f (users d)) (addresses d) (positions d) (trades d) (pnl_snapshots d).
Definition set_positions (f : list Position.t -> list Position.t) (d : DB) : DB :=
  mkDB (users d) (addresses d) (f (positions d)) (trades d) (pnl_snapshots d).
Definition set_trades (f : list Trade.t -> list Trade.t) (d : DB) : DB :=
  mkDB (users d) (addresses d) (positions d) (f (trades d)) (pnl_snapshots d).
Definition set_pnl_snapshots (f : list PnlSnapshot.t -> list PnlSnapshot.t) (d : DB) : DB :=
  mkDB (users d) (addresses d) (positions d) (trades d) (f (pnl_snapshots d)).

(** ** Package polymarket: upstream responses *)

Module PositionResponse.
Record t := mk {
  Asset : string;
  ConditionID : string;
  Outcome : string;
  Size : option Q;
  AvgPrice : option Q;
  CurrentPrice : option Q;
  InitialValue : option Q;
  CurrentValue : option Q;
  UnrealizedPnl : option Q;
  UnrealizedPnlPercent : option Q;
  RealizedPnl : option Q;
  Title : string;
  Slug : string;
  EndDate : string
}.
End PositionResponse.

Module TradeResponse.
Record t := mk {
  ID : string;
  ConditionID : string;
  Outcome : string;
  Side : string;
  Price : option Q;
  Size : option Q;
  Timestamp : Z;
  Title : string;
  Slug : string
}.
End TradeResponse.

Module ProfileResponse.
Record t := mk { Name : string; ProfileImage : string }.
End ProfileResponse.

Module PortfolioStats.
Record t := mk { TotalPnl : Q; TotalVolume : Q }.
End PortfolioStats.

(** ** Effects: calls to the database and to the upstream API *)

(** The SQL statements issued by the storage package. *)
Inductive stmt :=
| SelectUser (username : string)
| SelectUsers
| SelectAddresses (userID : Z)
| SelectPositionStats (userID : Z)
| SelectTradeCount (userID : Z)
| SelectTradesChronological (userID : Z)
| DeletePnlSnapshots (userID : Z)
| InsertSnapshot (snapshot : PnlSnapshot.t)
| BeginTx
| PrepareInsertSnapshot
| TxInsertSnapshot (snapshot : PnlSnapshot.t)
| CommitTx
| DeletePositions (userID : Z)
| UpsertPositionRow (pos : Position.t)
| InsertTradeRow (trade : Trade.t)
| UpdateLastSynced (userID : Z) (lastSynced : Z)
| UpdateProfileImage (userID : Z) (profileImage : string)
| UpdateOfficialPnl (userID : Z) (pnl volume : Q).

(** The requests of [polymarket.Client]. *)
Inductive request :=
| ReqPositions (address : string)
| ReqTrades (address : string) (limit : Z)
| ReqUserProfile (address : string)
| ReqPortfolioStats (username address : string).

Inductive event := Sql (s : stmt) | Http (r : request).

Inductive level := Debug | Info | Warn | Error.

(** A log line: level, message and the value of its identifying field. *)
Record logline := mkLog { lvl : level; msg : string; subject : string }.

Inductive result (A : Type) : Type :=
| Ok (a : A)
| Err (e : string).
Arguments Ok {A} a.
Arguments Err {A} e.

(** The environment of one run: which statements the driver rejects (and
    with which message), what the upstream API answers, and the clock. *)
Record Env := mkEnv {
  sql_error : stmt -> option string;
  GetPositions : string -> result (list PositionResponse.t);
  GetTrades : string -> Z -> result (list TradeResponse.t);
  GetUserProfile : string -> result (option ProfileResponse.t);
  GetPortfolioStats : string -> string -> result (option PortfolioStats.t);
  ParseDate : string -> option Z;
  Now : Z
}.

(** What a run changes: the database, the calls made so far (oldest
    first) and the log. *)
Record World := mkWorld {
  db : DB;
  events : list event;
  logs : list logline
}.

Definition M (A : Type) : Type := World -> result A * World.

Definition ret {A} (a : A) : M A := fun w => (Ok a, w).

Definition fail {A} (e : string) : M A := fun w => (Err e, w).

Definition bind {A B} (m : M A) (k : A -> M B) : M B :=
  fun w => match m w with
           | (Ok a, w') => k a w'
           | (Err e, w') => (Err e, w')
           end.

Notation "x <- m ;; k" := (bind m (fun x => k))
  (at level 100, m at next level, right associativity).
Notation "m ;;; k" := (bind m (fun _ => k))
  (at level 100, right associativity).

(** [if err != nil { return fmt.Errorf(prefix + ": %w", err) }] *)
Definition wrap {A} (prefix : string) (m : M A) : M A :=
  fun w => match m w with
           | (Ok a, w') => (Ok a, w')
           | (Err e, w') => (Err (prefix ++ ": " ++ e)%string, w')
           end.

(** Runs [m] and hands its outcome to the caller, who decides to go on. *)
Definition try {A} (m : M A) : M (result A) :=
  fun w => let '(r, w') := m w in (Ok r, w').

Definition emit (e : event) : M unit :=
  fun w => (Ok tt, mkWorld (db w) (events w ++ [e]) (logs w)).

Definition log (l : level) (m subj : string) : M unit :=
  fun w => (Ok tt, mkWorld (db w) (events w) (logs w ++ [mkLog l m subj])).

Definition read_db : M DB := fun w => (Ok (db w), w).

Definition write_db (d : DB) : M unit :=
  fun w => (Ok tt, mkWorld d (events w) (logs w)).

(** ** Package storage: operations *)

(** [ORDER BY timestamp ASC] (SQLite places NULL first). The column holds
    the text that the driver writes for a [time.Time]; its order is taken
    to be the order of the instants, as it is when all stored times are
    written in one location. *)
Definition by_timestamp (a b : Trade.t) : Prop :=
  match Trade.Timestamp a, Trade.Timestamp b with
  | None, _ => True
  | Some _, None => False
  | Some x, Some y => x <= y
  end.

#[global] Instance by_timestamp_dec : RelDecision by_timestamp.
Proof.
  intros a b. unfold by_timestamp.
  destruct (Trade.Timestamp a), (Trade.Timestamp b); apply _.
Defined.

(** [ORDER BY username] *)
Definition by_username (a b : User.t) : Prop :=
  Is_true (String.leb (User.Username a) (User.Username b)).

#[global] Instance by_username_dec : RelDecision by_username.
Proof. intros a b. unfold by_username. apply _. Defined.

(** [ON CONFLICT(user_id, address, condition_id, asset)] *)
Definition same_position (p q : Position.t) : bool :=
  (Position.UserID p =? Position.UserID q)
  && String.eqb (Position.Address p) (Position.Address q)
  && String.eqb (Position.ConditionID p) (Position.ConditionID q)
  && String.eqb (Position.Asset p) (Position.Asset q).

Fixpoint upsert_position (pos : Position.t) (rows : list Position.t) : list Position.t :=
  match rows with
  | [] => [pos]
  | p :: rest => if same_position p pos then pos :: rest else p :: upsert_position pos rest
  end.

Definition opt_eqb {A} (eqb : A -> A -> bool) (x y : option A) : bool :=
  match x, y with
  | Some a, Some b => eqb a b
  | _, _ => false
  end.

(** [ON CONFLICT(user_id, condition_id, timestamp, side, size, price)] *)
Definition same_trade (a b : Trade.t) : bool :=
  (Trade.UserID a =? Trade.UserID b)
  && opt_eqb String.eqb (Trade.ConditionID a) (Trade.ConditionID b)
  && opt_eqb Z.eqb (Trade.Timestamp a) (Trade.Timestamp b)
  && opt_eqb String.eqb (Trade.Side a) (Trade.Side b)
  && opt_eqb Qeq_bool (Trade.Size a) (Trade.Size b)
  && opt_eqb Qeq_bool (Trade.Price a) (Trade.Price b).

(** The [NOT NULL] columns of [trades] that [InsertTrade] binds to pointers. *)
Definition trade_not_null (t : Trade.t) : bool :=
  match Trade.ConditionID t, Trade.Side t, Trade.Price t, Trade.Size t, Trade.Timestamp t with
  | Some _, Some _, Some _, Some _, Some _ => true
  | _, _, _, _, _ => false
  end.

Definition sum_unrealized (rows : list Position.t) : Q :=
  foldr (fun p acc => match Position.UnrealizedPnl p with
                      | Some x => (x + acc)%Q
                      | None => acc
                      end) 0%Q rows.

Definition update_user (userID : Z) (f : User.t -> User.t) (rows : list User.t) : list User.t :=
  map (fun u => if User.ID u =? userID then f u else u) rows.

(** [SELECT ... FROM users WHERE username = ?] *)
Definition find_user (username : string) (d : DB) : option User.t :=
  List.find (fun u => String.eqb (User.Username u) username) (users d).

(** [... FROM trades WHERE user_id = ?] *)
Definition user_trades (userID : Z) (d : DB) : list Trade.t :=
  filter (fun t => Trade.UserID t = userID) (trades d).

(** [SELECT ... FROM trades WHERE user_id = ? ORDER BY timestamp ASC] *)
Definition trades_chronological (userID : Z) (d : DB) : list Trade.t :=
  merge_sort by_timestamp (user_trades userID d).

(** [... FROM positions WHERE user_id = ?] *)
Definition user_positions (userID : Z) (d : DB) : list Position.t :=
  filter (fun p => Position.UserID p = userID) (positions d).

(** [... FROM pnl_snapshots WHERE user_id = ?] *)
Definition user_snapshots (userID : Z) (d : DB) : list PnlSnapshot.t :=
  filter (fun s => PnlSnapshot.UserID s = userID) (pnl_snapshots d).

Section Storage.
Context (env : Env).

(** [db.ExecContext]: the statement reaches the driver and, unless the
    driver reports an error, changes the database. *)
Definition exec (s : stmt) (what : string) (f : DB -> DB) : M unit :=
  emit (Sql s) ;;;
  match sql_error env s with
  | Some e => fail (what ++ ": " ++ e)%string
  | None => d <- read_db ;; write_db (f d)
  end.

(** [db.QueryContext] / [QueryRowContext] followed by the scan. *)
Definition query {A} (s : stmt) (what : string) (f : DB -> A) : M A :=
  emit (Sql s) ;;;
  match sql_error env s with
  | Some e => fail (what ++ ": " ++ e)%string
  | None => d <- read_db ;; ret (f d)
  end.

Definition GetUser (username : string) : M User.t :=
  row <- query (SelectUser username) "failed to query user"
           (find_user username) ;;
  match row with
  | Some user => ret user
  | None => fail ("user not found: " ++ username)%string
  end.

Definition GetUsers : M (list User.t) :=
  query SelectUsers "failed to query users" (fun d => merge_sort by_username (users d)).

Definition UpdateUserLastSynced (userID lastSynced : Z) : M unit :=
  exec (UpdateLastSynced userID lastSynced) "failed to update user last synced"
    (set_users (update_user userID (fun u =>
       User.mk (User.ID u) (User.Username u) (User.CreatedAt u) (Some lastSynced)
               (User.ProfileImage u) (User.OfficialPnl u) (User.OfficialVolume u)))).

Definition UpdateUserProfileImage (userID : Z) (profileImage : string) : M unit :=
  exec (UpdateProfileImage userID profileImage) "failed to update user profile image"
    (set_users (update_user userID (fun u =>
       User.mk (User.ID u) (User.Username u) (User.CreatedAt u) (User.LastSynced u)
               (Some profileImage) (User.OfficialPnl u) (User.OfficialVolume u)))).

Definition UpdateUserOfficialPnl (userID : Z) (pnl volume : Q) : M unit :=
  exec (UpdateOfficialPnl userID pnl volume) "failed to update user official pnl"
    (set_users (update_user userID (fun u =>
       User.mk (User.ID u) (User.Username u) (User.CreatedAt u) (User.LastSynced u)
               (User.ProfileImage u) (Some pnl) (Some volume)))).

Definition GetUserAddresses (userID : Z) : M (list Address.t) :=
  query (SelectAddresses userID) "failed to query addresses"
    (fun d => filter (fun a => Address.UserID a = userID) (addresses d)).

Definition UpsertPosition (pos : Position.t) : M unit :=
  exec (UpsertPositionRow pos) "failed to upsert position"
    (set_positions (upsert_position pos)).

Definition DeleteUserPositions (userID : Z) : M unit :=
  exec (DeletePositions userID) "failed to delete positions"
    (set_positions (filter (fun p => Position.UserID p ≠ userID))).

(** [INSERT ... ON CONFLICT ... DO NOTHING]; a NULL in a [NOT NULL]
    column is a constraint error of the statement. *)
Definition InsertTrade (trade : Trade.t) : M unit :=
  emit (Sql (InsertTradeRow trade)) ;;;
  match sql_error env (InsertTradeRow trade) with
  | Some e => fail ("failed to insert trade: " ++ e)%string
  | None =>
      if trade_not_null trade then
        d <- read_db ;;
        write_db (set_trades (fun rows =>
          if existsb (same_trade trade) rows then rows else rows ++ [trade]) d)
      else fail "failed to insert trade: NOT NULL constraint failed"
  end.

Definition GetUserTradesChronological (userID : Z) : M (list Trade.t) :=
  query (SelectTradesChronological userID) "failed to query trades"
    (trades_chronological userID).

Definition InsertPnlSnapshot (snapshot : PnlSnapshot.t) : M unit :=
  exec (InsertSnapshot snapshot) "failed to insert pnl snapshot"
    (set_pnl_snapshots (fun rows => rows ++ [snapshot])).

Definition DeleteUserPnlSnapshots (userID : Z) : M unit :=
  exec (DeletePnlSnapshots userID) "failed to delete pnl snapshots"
    (set_pnl_snapshots (filter (fun s => PnlSnapshot.UserID s ≠ userID))).

(** [defer tx.Rollback()]: when the body returns an error the database
    is what it was when the transaction began. *)
Definition with_rollback {A} (body : M A) : M A :=
  fun w => match body w with
           | (Ok a, w') => (Ok a, w')
           | (Err e, w') => (Err e, mkWorld (db w) (events w') (logs w'))
           end.

(** The loop [for _, snapshot := range snapshots] inside the transaction. *)
Fixpoint tx_insert_snapshots (snapshots : list PnlSnapshot.t) : M unit :=
  match snapshots with
  | [] => ret tt
  | snapshot :: rest =>
      exec (TxInsertSnapshot snapshot) "failed to insert pnl snapshot"
        (set_pnl_snapshots (fun rows => rows ++ [snapshot])) ;;;
      tx_insert_snapshots rest
  end.

Definition BulkInsertPnlSnapshots (snapshots : list PnlSnapshot.t) : M unit :=
  match snapshots with
  | [] => ret tt
  | _ =>
      with_rollback (
        exec BeginTx "failed to begin transaction" id ;;;
        exec PrepareInsertSnapshot "failed to prepare statement" id ;;;
        tx_insert_snapshots snapshots ;;;
        exec CommitTx "failed to commit transaction" id)
  end.

(** Returns [(realizedPnl, wins, totalClosed)]. *)
Definition CalculateRealizedPnlFromTrades (userID : Z) : M (Q * Z * Z) :=
  trades <- wrap "failed to get trades" (GetUserTradesChronological userID) ;;
  ret (Live.result (Live.run trades)).

Definition GetUserStats (username : string) : M UserStats.t :=
  user <- GetUser username ;;
  addresses <- wrap "failed to get user addresses" (GetUserAddresses (User.ID user)) ;;
  let addressList := map Address.Address addresses in
  positionStats <-
    query (SelectPositionStats (User.ID user)) "failed to get position stats"
      (fun d => let rows := user_positions (User.ID user) d in
                (Z.of_nat (length rows), sum_unrealized rows)) ;;
  let '(openPositions, unrealizedPnl) := positionStats in
  pnl <-
    match User.OfficialPnl user with
    | Some official => ret (official, (official - unrealizedPnl)%Q)
    | None =>
        fifo <- wrap "failed to calculate realized pnl"
                  (CalculateRealizedPnlFromTrades (User.ID user)) ;;
        let '(realizedPnl, _, _) := fifo in
        ret ((realizedPnl + unrealizedPnl)%Q, realizedPnl)
    end ;;
  let '(totalPnl, realizedPnl) := pnl in
  totalTrades <-
    query (SelectTradeCount (User.ID user)) "failed to count trades"
      (fun d => Z.of_nat (length (user_trades (User.ID user) d))) ;;
  closed <-
    wrap "failed to calculate win rate" (CalculateRealizedPnlFromTrades (User.ID user)) ;;
  let '(_, wins, totalClosed) := closed in
  let winRate := if 0 <? totalClosed then (inject_Z wins / inject_Z totalClosed)%Q else 0%Q in
  ret (UserStats.mk username addressList (User.ProfileImage user)
         totalPnl realizedPnl unrealizedPnl openPositions totalTrades winRate
         (User.LastSynced user)).

End Storage.

(** ** Package backfill: [BackfillUser] *)

Module Result.
(** [backfill.Result] *)
Record t := mk {
  Username : string;
  TradesProcessed : Z;
  SnapshotsCreated : Z;
  TotalRealizedPnl : Q;
  OldestTradeDate : option Z;
  NewestTradeDate : option Z
}.
End Result.

Definition snapshot_of (userID : Z) (entry : Z * Q) : PnlSnapshot.t :=
  PnlSnapshot.mk userID entry.1 (Some entry.2) (Some entry.2) (Some 0%Q).

(** [createSnapshots]: one snapshot per entry of the daily map, in the
    order in which the map is ranged over. *)
Definition createSnapshots (userID : Z) (dailyPnl : gmap Z Q) : list PnlSnapshot.t :=
  map (snapshot_of userID) (map_to_list dailyPnl).

(** The order of [sort.Slice] with [Timestamp.Before] as [less]. *)
Definition by_snapshot_time (a b : PnlSnapshot.t) : Prop :=
  PnlSnapshot.Timestamp a <= PnlSnapshot.Timestamp b.

#[global] Instance by_snapshot_time_dec : RelDecision by_snapshot_time.
Proof. intros a b. unfold by_snapshot_time. apply _. Defined.

Section BackfillService.
Context (env : Env).

(** The snapshots that [BackfillUser] computes from a trade history. *)
Definition backfill_snapshots (userID : Z) (trades : list Trade.t) : list PnlSnapshot.t :=
  merge_sort by_snapshot_time
    (createSnapshots userID (Backfill.dailyPnl (Backfill.run trades))).

(** [BackfillUser]. Its second loop over the trades has an empty body
    and is not represented. *)
Definition BackfillUser (username : string) : M Result.t :=
  log Info "starting backfill" username ;;;
  user <- wrap "failed to get user" (GetUser env username) ;;
  trades <- wrap "failed to get trades" (GetUserTradesChronological env (User.ID user)) ;;
  match trades with
  | [] => ret (Result.mk username 0 0 0%Q None None)
  | _ =>
      wrap "failed to delete existing snapshots"
           (DeleteUserPnlSnapshots env (User.ID user)) ;;;
      let st := Backfill.run trades in
      let snapshots := backfill_snapshots (User.ID user) trades in
      wrap "failed to insert snapshots" (BulkInsertPnlSnapshots env snapshots) ;;;
      log Info "backfill completed" username ;;;
      ret (Result.mk username (Z.of_nat (length trades)) (Z.of_nat (length snapshots))
             (Backfill.cumulativeRealizedPnl st)
             (Backfill.oldestDate st) (Backfill.newestDate st))
  end.

End BackfillService.

(** ** Package polymarket: the sync service *)

Definition nonempty (s : string) : option string :=
  if String.eqb s "" then None else Some s.

Section SyncService.
Context (env : Env).

(** A request to the upstream API. *)
Definition http {A} (r : request) (answer : result A) : M A :=
  emit (Http r) ;;;
  match answer with
  | Ok a => ret a
  | Err e => fail e
  end.

(** [if err := m; err != nil { log; } ] : log the failure and go on. *)
Definition or_log (l : level) (m subj : string) (action : M unit) : M unit :=
  r <- try action ;;
  match r with
  | Ok _ => ret tt
  | Err _ => log l m subj
  end.

Definition position_row (userID : Z) (address : string) (pos : PositionResponse.t)
  : Position.t :=
  Position.mk userID address
    (PositionResponse.ConditionID pos) (PositionResponse.Asset pos)
    (nonempty (PositionResponse.Title pos)) (nonempty (PositionResponse.Slug pos))
    (nonempty (PositionResponse.Outcome pos))
    (PositionResponse.Size pos) (PositionResponse.AvgPrice pos)
    (PositionResponse.CurrentPrice pos) (PositionResponse.InitialValue pos)
    (PositionResponse.CurrentValue pos) (PositionResponse.UnrealizedPnl pos)
    (PositionResponse.UnrealizedPnlPercent pos) (PositionResponse.RealizedPnl pos)
    (if String.eqb (PositionResponse.EndDate pos) "" then None
     else ParseDate env (PositionResponse.EndDate pos)).

Definition trade_row (userID : Z) (address : string) (trade : TradeResponse.t) : Trade.t :=
  Trade.mk userID address
    (nonempty (TradeResponse.ID trade)) (nonempty (TradeResponse.ConditionID trade))
    (nonempty (TradeResponse.Title trade)) (nonempty (TradeResponse.Slug trade))
    (nonempty (TradeResponse.Outcome trade)) (nonempty (TradeResponse.Side trade))
    (TradeResponse.Price trade) (TradeResponse.Size trade)
    (match TradeResponse.Price trade, TradeResponse.Size trade with
     | Some price, Some size => Some (price * size)%Q
     | _, _ => None
     end)
    (if 0 <? TradeResponse.Timestamp trade then Some (TradeResponse.Timestamp trade)
     else None).

Fixpoint store_positions (userID : Z) (address : string)
    (positions : list PositionResponse.t) : M unit :=
  match positions with
  | [] => ret tt
  | pos :: rest =>
      or_log Error "failed to upsert position" (PositionResponse.ConditionID pos)
        (UpsertPosition env (position_row userID address pos)) ;;;
      store_positions userID address rest
  end.

Fixpoint store_trades (userID : Z) (address : string)
    (trades : list TradeResponse.t) : M unit :=
  match trades with
  | [] => ret tt
  | trade :: rest =>
      or_log Debug "failed to insert trade (likely duplicate)" (TradeResponse.ID trade)
        (InsertTrade env (trade_row userID address trade)) ;;;
      store_trades userID address rest
  end.

(** [syncAddress]: returns the numbers of positions and trades fetched. *)
Definition syncAddress (userID : Z) (address : string) : M (Z * Z) :=
  log Debug "syncing address" address ;;;
  positions <- wrap "failed to fetch positions"
                 (http (ReqPositions address) (GetPositions env address)) ;;
  store_positions userID address positions ;;;
  trades <- wrap "failed to fetch trades"
              (http (ReqTrades address 100) (GetTrades env address 100)) ;;
  store_trades userID address trades ;;;
  log Debug "address sync completed" address ;;;
  ret (Z.of_nat (length positions), Z.of_nat (length trades)).

Definition takePnlSnapshot (userID : Z) : M unit :=
  users <- wrap "failed to get users" (GetUsers env) ;;
  let username :=
    match List.find (fun u => User.ID u =? userID) users with
    | Some u => User.Username u
    | None => ""%string
    end in
  if String.eqb username ""
  then fail ("user not found with id "
             ++ DecimalString.NilZero.string_of_int (Z.to_int userID))%string
  else
    stats <- wrap "failed to get user stats" (GetUserStats env username) ;;
    let snapshot :=
      PnlSnapshot.mk userID (Now env) (Some (UserStats.TotalPnl stats))
        (Some (UserStats.RealizedPnl stats)) (Some (UserStats.UnrealizedPnl stats)) in
    wrap "failed to insert pnl snapshot" (InsertPnlSnapshot env snapshot).

(** The profile step of [syncUser]: returns [polymarketUsername]. *)
Definition sync_profile (user : User.t) (username : string) (addresses : list string)
  : M string :=
  match addresses with
  | [] => ret ""%string
  | first :: _ =>
      r <- try (http (ReqUserProfile first) (GetUserProfile env first)) ;;
      match r with
      | Err _ => log Warn "failed to fetch user profile" username ;;; ret ""%string
      | Ok None => ret ""%string
      | Ok (Some profile) =>
          (if String.eqb (ProfileResponse.ProfileImage profile) "" then ret tt
           else or_log Warn "failed to update user profile image" username
                  (UpdateUserProfileImage env (User.ID user)
                     (ProfileResponse.ProfileImage profile))) ;;;
          ret (ProfileResponse.Name profile)
      end
  end.

(** The official-PnL step of [syncUser]. *)
Definition sync_official_pnl (user : User.t) (username polymarketUsername : string)
    (addresses : list string) : M unit :=
  match addresses with
  | first :: _ =>
      if String.eqb polymarketUsername "" then ret tt
      else
        r <- try (http (ReqPortfolioStats polymarketUsername first)
                       (GetPortfolioStats env polymarketUsername first)) ;;
        match r with
        | Err _ => log Warn "failed to fetch portfolio stats" username
        | Ok None => ret tt
        | Ok (Some portfolioStats) =>
            r' <- try (UpdateUserOfficialPnl env (User.ID user)
                         (PortfolioStats.TotalPnl portfolioStats)
                         (PortfolioStats.TotalVolume portfolioStats)) ;;
            match r' with
            | Err _ => log Warn "failed to update official pnl" username
            | Ok _ => log Info "updated official PnL from Polymarket" username
            end
        end
  | [] => ret tt
  end.

(** The loop [for _, address := range addresses] of [syncUser], with its
    running totals. *)
Fixpoint sync_addresses (userID : Z) (username : string) (addresses : list string)
    (totals : Z * Z) : M (Z * Z) :=
  match addresses with
  | [] => ret totals
  | address :: rest =>
      r <- try (syncAddress userID address) ;;
      match r with
      | Err _ =>
          log Error "failed to sync address" address ;;;
          sync_addresses userID username rest totals
      | Ok (positions, trades) =>
          sync_addresses userID username rest (totals.1 + positions, totals.2 + trades)
      end
  end.

Definition syncUser (username : string) (addresses : list string) : M unit :=
  log Info "syncing user" username ;;;
  user <- wrap "failed to get user" (GetUser env username) ;;
  polymarketUsername <- sync_profile user username addresses ;;
  sync_official_pnl user username polymarketUsername addresses ;;;
  wrap "failed to delete existing positions" (DeleteUserPositions env (User.ID user)) ;;;
  _ <- sync_addresses (User.ID user) username addresses (0, 0) ;;
  or_log Error "failed to take pnl snapshot" username (takePnlSnapshot (User.ID user)) ;;;
  wrap "failed to update last synced" (UpdateUserLastSynced env (User.ID user) (Now env)) ;;;
  log Info "user sync completed" username.

(** The loop [for username, addresses := range s.users] of [syncAll];
    the list is the order in which the Go map is ranged over. *)
Fixpoint sync_users (users : list (string * list string)) : M unit :=
  match users with
  | [] => ret tt
  | (username, addresses) :: rest =>
      or_log Error "failed to sync user" username (syncUser username addresses) ;;;
      sync_users rest
  end.

Definition syncAll (users : list (string * list string)) : M unit :=
  log Info "syncing all users" "" ;;;
  sync_users users ;;;
  log Info "sync completed for all users" "".

Definition TriggerSync (users : list (string * list string)) : M unit :=
  log Info "manual sync triggered" "" ;;;
  syncAll users.

End SyncService.

(** ** Specification-side definitions *)

(** The driver accepts every statement. *)
Definition healthy (env : Env) : Prop := forall s, sql_error env s = None.

(** What a computation adds to the record of calls satisfies [P], and it
    only ever appends to the record of calls and to the log. *)
Definition emits {A} (P : event -> Prop) (m : M A) : Prop :=
  forall w, exists es ls,
    events (m w).2 = events w ++ es /\ Forall P es /\ logs (m w).2 = logs w ++ ls.

Definition any_event (e : event) : Prop := True.

(** Every call but a fetch of positions from the upstream API. *)
Definition before_fetch (e : event) : Prop :=
  forall address, e <> Http (ReqPositions address).

(** The world that the loop of [syncAll] passes on after the sync of one
    account: on failure the error is logged, and nothing else changes. *)
Definition after_account (username : string) (r : result unit * World) : World :=
  match r.1 with
  | Ok _ => r.2
  | Err _ => mkWorld (db r.2) (events r.2)
               (logs r.2 ++ [mkLog Error "failed to sync user" username])
  end.

(** Two versions of the users table with the same ids and names, row by
    row. *)
Definition same_identities (rows rows' : list User.t) : Prop :=
  Forall2 (fun u u' => User.ID u = User.ID u' /\ User.Username u = User.Username u')
          rows rows'.

(** Two databases that differ at most in the profile columns of users. *)
Definition same_but_profiles (d d' : DB) : Prop :=
  same_identities (users d) (users d')
  /\ addresses d' = addresses d /\ positions d' = positions d
  /\ trades d' = trades d /\ pnl_snapshots d' = pnl_snapshots d.

(** The database after [DELETE FROM pnl_snapshots WHERE user_id = ?]. *)
Definition without_snapshots (userID : Z) (d : DB) : DB :=
  set_pnl_snapshots (filter (fun s => PnlSnapshot.UserID s ≠ userID)) d.

(** The database after the insertion of [snapshots]. *)
Definition with_snapshots (snapshots : list PnlSnapshot.t) (d : DB) : DB :=
  set_pnl_snapshots (fun rows => rows ++ snapshots) d.

(** The result of [BackfillUser] for an account without trades. *)
Definition zero_result (username : string) : Result.t :=
  Result.mk username 0 0 0%Q None None.

(** The fields that the ledger reads from a trade. *)
Definition missing_ledger_field (t : Trade.t) : Prop :=
  Trade.ConditionID t = None \/ Trade.Outcome t = None \/ Trade.Side t = None
  \/ Trade.Price t = None \/ Trade.Size t = None.

(** The six required fields of the specification. *)
Definition missing_required_field (t : Trade.t) : Prop :=
  Trade.Timestamp t = None \/ missing_ledger_field t.

(** A trade row on one position key, as the ledger sees it. *)
Definition trade_on (cid out side : string) (price size : Q) (timestamp : option Z) : Trade.t :=
  Trade.mk 1 "0xabc" None (Some cid) None None (Some out) (Some side)
           (Some price) (Some size) (Some (price * size)%Q) timestamp.

(** One lot consumption of a sell: the price of the lot (zero for the
    untracked remainder) and the matched size. *)
Record leg := mkLeg { lotPrice : Q; matchedSize : Q }.

(** The realized contribution [(sellPrice - lotPrice) * matchedSize]. *)
Definition leg_pnl (sellPrice : Q) (l : leg) : Q :=
  ((sellPrice - lotPrice l) * matchedSize l)%Q.

Definition sum_legs (sellPrice : Q) (legs : list leg) : Q :=
  foldr (fun l acc => (leg_pnl sellPrice l + acc)%Q) 0%Q legs.

(** The lot consumptions of a sell of [remaining] shares against a FIFO
    queue, following section 4.1 of the specification: whole lots from the
    head while they fit, then a partial lot; [untracked] says whether a
    remainder left when the queue empties is a zero-cost-basis leg. *)
Fixpoint fifo_legs (untracked : bool) (lots : list (Q * Q)) (remaining : Q) : list leg :=
  if Qltb 0 remaining then
    match lots with
    | [] => if untracked then [mkLeg 0 remaining] else []
    | (lotprice, lotsize) :: rest =>
        if Qle_bool lotsize remaining
        then mkLeg lotprice lotsize :: fifo_legs untracked rest (remaining - lotsize)%Q
        else [mkLeg lotprice remaining]
    end
  else [].

(** The two lot records carry the same data. *)
Definition lot_of (l : fifoLot.t) : Backfill.lot :=
  Backfill.mkLot (fifoLot.Price l) (fifoLot.Shares l).
Definition pair_of (l : fifoLot.t) : Q * Q := (fifoLot.Price l, fifoLot.Shares l).
Definition bpair (l : Backfill.lot) : Q * Q := (Backfill.price l, Backfill.size l).

(** Shares held in a queue of lots. *)
Definition held (lots : list fifoLot.t) : Q :=
  foldr (fun l acc => (fifoLot.Shares l + acc)%Q) 0%Q lots.

(** A sell is covered when its size is positive and no larger than the
    shares held on its position key; other trades are always covered. *)
Definition trade_covered (st : Live.state) (trade : Trade.t) : bool :=
  match Trade.ConditionID trade, Trade.Outcome trade, Trade.Side trade,
        Trade.Price trade, Trade.Size trade with
  | Some cid, Some out, Some side, Some _, Some size =>
      if String.eqb side "SELL"
      then Qltb 0 size && Qle_bool size (held (lots_at (Live.inventory st) (mkKey cid out)))
      else true
  | _, _, _, _, _ => true
  end.

Fixpoint covered_from (st : Live.state) (trades : list Trade.t) : bool :=
  match trades with
  | [] => true
  | trade :: rest => trade_covered st trade && covered_from (Live.step st trade) rest
  end.

(** Every sell of the history finds its shares among the recorded lots. *)
Definition covered (trades : list Trade.t) : bool := covered_from Live.init trades.

Definition has_timestamp (t : Trade.t) : Prop := is_Some (Trade.Timestamp t).

(** The day of a sell that the backfill pass processes: a row with all six
    fields whose side is SELL. *)
Definition sell_day (t : Trade.t) : option Z :=
  match Trade.Timestamp t, Trade.ConditionID t, Trade.Outcome t,
        Trade.Side t, Trade.Price t, Trade.Size t with
  | Some timestamp, Some _, Some _, Some side, Some _, Some _ =>
      if String.eqb side "SELL" then Some (Backfill.Truncate24h timestamp) else None
  | _, _, _, _, _, _ => None
  end.

(** The timestamp of a sell that has all six required fields. *)
Definition complete_sell (t : Trade.t) : option Z :=
  match Trade.Timestamp t, Trade.ConditionID t, Trade.Outcome t,
        Trade.Side t, Trade.Price t, Trade.Size t with
  | Some timestamp, Some _, Some _, Some side, Some _, Some _ =>
      if String.eqb side "SELL" then Some timestamp else None
  | _, _, _, _, _, _ => None
  end.

(** The example of section 8: buy 10 at 0.40, buy 5 at 0.60, sell 12 at 0.70. *)
Definition example_trades (cid out : string) : list Trade.t :=
  [ trade_on cid out "BUY" 0.40 10 (Some 1700000000);
    trade_on cid out "BUY" 0.60 5 (Some 1700003600);
    trade_on cid out "SELL" 0.70 12 (Some 1700090000) ].

(** A sell of 5 shares at 0.70 on a key with no recorded buy. *)
Definition untracked_sell : list Trade.t :=
  [ trade_on "0xc1" "Yes" "SELL" 0.70 5 (Some 1700000000) ].

(** A sell of 5 shares at 0.70 after a buy of only 2 at 0.50. *)
Definition oversell : list Trade.t :=
  [ trade_on "0xc1" "Yes" "BUY" 0.50 2 (Some 1700000000);
    trade_on "0xc1" "Yes" "SELL" 0.70 5 (Some 1700003600) ].

(** A sell row that lacks its price. *)
Definition priceless_sell : Trade.t :=
  Trade.mk 1 "0xabc" None (Some "0xc1") None None (Some "Yes")
           (Some "SELL") None (Some 4%Q) None (Some 1700050000).

(** A sell as the sync stores it for an upstream trade whose outcome is
    empty: the outcome column is NULL, the other columns are there. *)
Definition sell_without_outcome : Trade.t :=
  Trade.mk 1 "0xabc" None (Some "0xc1") None None None
           (Some "SELL") (Some 0.70%Q) (Some 4%Q) (Some 2.8%Q) (Some 1700050000).

(** ** Sample data *)

(** An environment whose database is healthy and whose upstream API is
    unreachable. *)
Definition upstream_down : Env :=
  mkEnv (fun _ => None)
        (fun _ => Err "timeout") (fun _ _ => Err "timeout")
        (fun _ => Err "timeout") (fun _ _ => Err "timeout")
        (fun _ => None) 1700100000.

(** An upstream API that reports one position and one trade for the
    address of alice. *)
Definition upstream_up : Env :=
  mkEnv (fun _ => None)
        (fun address =>
           if String.eqb address "0xabc"
           then Ok [PositionResponse.mk "asset-2" "0xc2" "No" (Some 7%Q) (Some 0.30%Q)
                      (Some 0.35%Q) (Some 2.1%Q) (Some 2.45%Q) (Some 0.35%Q)
                      (Some 16%Q) None "Will it rain?" "will-it-rain" ""]
           else Err "timeout")
        (fun address _ =>
           if String.eqb address "0xabc"
           then Ok [TradeResponse.mk "t-9" "0xc2" "No" "BUY" (Some 0.30%Q) (Some 7%Q)
                      1700095000 "Will it rain?" "will-it-rain"]
           else Err "timeout")
        (fun _ => Ok None) (fun _ _ => Ok None)
        (fun _ => None) 1700100000.

(** The same environment, with a driver that rejects every commit. *)
Definition commit_fails : Env :=
  mkEnv (fun s => match s with CommitTx => Some "disk I/O error"%string | _ => None end)
        (fun _ => Err "timeout") (fun _ _ => Err "timeout")
        (fun _ => Err "timeout") (fun _ _ => Err "timeout")
        (fun _ => None) 1700100000.

Definition alice : User.t := User.mk 1 "alice" 1690000000 None None None None.

Definition bob : User.t := User.mk 2 "bob" 1690000000 None None None None.

Definition stale_snapshot : PnlSnapshot.t :=
  PnlSnapshot.mk 1 1699920000 (Some 1%Q) (Some 1%Q) (Some 0%Q).

Definition open_position : Position.t :=
  Position.mk 1 "0xabc" "0xc1" "asset-1" None None (Some "Yes"%string)
    (Some 3%Q) (Some 0.60%Q) (Some 0.75%Q) (Some 1.8%Q) (Some 2.25%Q)
    (Some 0.45%Q) (Some 25%Q) None None.

(** alice with the example history, one open position and one snapshot of
    an earlier backfill; bob with nothing. *)
Definition sample_db : DB :=
  mkDB [alice; bob] [Address.mk 1 "0xabc"; Address.mk 2 "0xdef"] [open_position]
       (example_trades "0xc1" "Yes") [stale_snapshot].

Definition sample_world : World := mkWorld sample_db [] [].

(** alice with an official lifetime PnL of 12.5. *)
Definition official_alice : User.t :=
  User.mk 1 "alice" 1690000000 None None (Some 12.5%Q) (Some 900%Q).

Definition official_world : World :=
  mkWorld (set_users (fun _ => [official_alice; bob]) sample_db) [] [].

(** The accounts of a cycle: mallory is not in the database. *)
Definition sample_accounts : list (string * list string) :=
  [ ("mallory"%string, ["0xbad"%string]); ("alice"%string, ["0xabc"%string]) ].

(** A buy and two sells on 14 November 2023 (UTC), which starts at
    1699920000, and a sell on the day after. *)
Definition busy_trades : list Trade.t :=
  [ trade_on "0xc1" "Yes" "BUY" 0.40 10 (Some 1699950000);
    trade_on "0xc1" "Yes" "SELL" 0.50 2 (Some 1699960000);
    trade_on "0xc1" "Yes" "SELL" 0.60 3 (Some 1700000000);
    trade_on "0xc1" "Yes" "SELL" 0.70 1 (Some 1700090000) ].

Definition busy_world : World :=
  mkWorld (set_trades (fun _ => busy_trades) sample_db) [] [].

(** The same database when the only stored trade of alice is a sell
    without outcome. *)
Definition outcomeless_world : World :=
  mkWorld (set_trades (fun _ => [sell_without_outcome]) sample_db) [] [].

(** The same database when alice has no stored trade. *)
Definition tradeless_world : World :=
  mkWorld (set_trades (fun _ => []) sample_db) [] [].

(** ** Package storage: the leaderboard and the snapshot history *)

Section Leaderboard.
Context (env : Env).

(** The loop [for _, user := range users] of [GetLeaderboard]. *)
Fixpoint leaderboard_loop (users : list User.t) (leaderboard : list UserStats.t)
  : M (list UserStats.t) :=
  match users with
  | [] => ret leaderboard
  | user :: rest =>
      r <- try (GetUserStats env (User.Username user)) ;;
      match r with
      | Err _ =>
          log Error "failed to get user stats" (User.Username user) ;;;
          leaderboard_loop rest leaderboard
      | Ok stats => leaderboard_loop rest (leaderboard ++ [stats])
      end
  end.

(** [storage.GetLeaderboard]: the rows are not sorted here. *)
Definition GetLeaderboard (sortBy sortDirection : string) : M (list UserStats.t) :=
  users <- GetUsers env ;;
  leaderboard_loop users [].

End Leaderboard.

Section History.
(** The rows that the SELECT of [GetUserPnlHistory] returns, or its error.
    The statement compares and sorts the timestamp column as the driver
    stores it, which is not represented: the answer is left to the
    environment, as a function of the bounds and of the database. *)
Context (history : Z -> option Z -> option Z -> DB -> result (list PnlSnapshot.t)).

(** [GetUserPnlHistory]; the query is not recorded among the events. *)
Definition GetUserPnlHistory (userID : Z) (start end_ : option Z) : M (list PnlSnapshot.t) :=
  d <- read_db ;;
  match history userID start end_ d with
  | Ok snapshots => ret snapshots
  | Err e => fail ("failed to query pnl history: " ++ e)%string
  end.

End History.

(** ** Package api: the backfill endpoint *)

Module BackfillResult.
(** [api.BackfillResult] *)
Record t := mk {
  Username : string;
  TradesProcessed : Z;
  SnapshotsCreated : Z;
  TotalRealizedPnl : Q;
  OldestTradeDate : option Z;
  NewestTradeDate : option Z
}.
End BackfillResult.

Module PnlDataPoint.
(** [api.PnlDataPoint] *)
Record t := mk {
  Timestamp : Z;
  TotalPnl : Q;
  RealizedPnl : Q;
  UnrealizedPnl : Q
}.
End PnlDataPoint.

(** What a handler writes: the status code and the JSON document. *)
Inductive body :=
| ErrorBody (message : string)
| BackfillBody (r : BackfillResult.t)
| PnlHistoryBody (username : string) (dataPoints : list PnlDataPoint.t).

Record Response := mkResponse { status : Z; payload : body }.

Definition respondError (status : Z) (message : string) : Response :=
  mkResponse status (ErrorBody message).

Definition respondJSON (status : Z) (data : body) : Response := mkResponse status data.

(** The data point of a snapshot: a NULL column is left at zero. *)
Definition data_point (snap : PnlSnapshot.t) : PnlDataPoint.t :=
  PnlDataPoint.mk (PnlSnapshot.Timestamp snap)
    (match PnlSnapshot.TotalPnl snap with Some x => x | None => 0%Q end)
    (match PnlSnapshot.RealizedPnl snap with Some x => x | None => 0%Q end)
    (match PnlSnapshot.UnrealizedPnl snap with Some x => x | None => 0%Q end).

Section Api.
Context (env : Env)
        (history : Z -> option Z -> option Z -> DB -> result (list PnlSnapshot.t)).

(** [APIHandler.GetUserPnl] *)
Definition GetUserPnl (username : string) (start end_ : option Z) : M Response :=
  r <- try (GetUser env username) ;;
  match r with
  | Err _ =>
      log Error "failed to get user" username ;;;
      ret (respondError 404 "User not found")
  | Ok user =>
      r' <- try (GetUserPnlHistory history (User.ID user) start end_) ;;
      match r' with
      | Err _ =>
          log Error "failed to get pnl history" username ;;;
          ret (respondError 500 "Failed to get PNL history")
      | Ok snapshots =>
          ret (respondJSON 200 (PnlHistoryBody username (map data_point snapshots)))
      end
  end.

(** [APIHandler.BackfillUserPnl] *)
Definition BackfillUserPnl (username : string) : M Response :=
  log Info "starting PnL backfill" username ;;;
  r <- try (BackfillUser env username) ;;
  match r with
  | Err e =>
      log Error "failed to backfill PnL" username ;;;
      if String.eqb e ("failed to get user: user not found: " ++ username)
      then ret (respondError 404 "User not found")
      else ret (respondError 500 "Failed to backfill PnL")
  | Ok result =>
      ret (respondJSON 200
             (BackfillBody
                (BackfillResult.mk (Result.Username result) (Result.TradesProcessed result)
                   (Result.SnapshotsCreated result) (Result.TotalRealizedPnl result)
                   (Result.OldestTradeDate result) (Result.NewestTradeDate result))))
  end.

End Api.

(** ** Package config *)

Module PersonaConfig.
Record t := mk {
  DisplayName : string;
  Image : string;
  Usernames : gmap string (list string)
}.
End PersonaConfig.

Module Config.
Record t := mk {
  Host : string;
  Port : Z;
  Path : string;
  Users : gmap string (list string);
  Personas : gmap string PersonaConfig.t;
  IntervalMinutes : Z
}.
End Config.

(** The errors of [Validate], with the values that their messages show. *)
Inductive ConfigError :=
| InvalidServerPort (port : Z)
| DatabasePathRequired
| SyncIntervalNotPositive (got : Z)
| NoUserOrPersona
| EmptyUsername
| UserWithoutAddresses (username : string)
| UserEmptyAddress (username : string) (index : nat)
| EmptyPersonaSlug
| PersonaWithoutDisplayName (slug : string)
| PersonaWithoutUsernames (slug : string)
| PersonaEmptyUsername (slug : string)
| PersonaUserWithoutAddresses (slug username : string)
| PersonaUserEmptyAddress (slug username : string) (index : nat).

(** The loop [for i, addr := range addresses]: the index of the first
    empty address. *)
Fixpoint first_empty_address (addresses : list string) (i : nat) : option nat :=
  match addresses with
  | [] => None
  | addr :: rest => if String.eqb addr "" then Some i else first_empty_address rest (S i)
  end.

(** The first error that a loop body reports over the entries ranged
    over. *)
Fixpoint first_error {A} (check : A -> option ConfigError) (entries : list A)
  : option ConfigError :=
  match entries with
  | [] => None
  | entry :: rest =>
      match check entry with
      | Some e => Some e
      | None => first_error check rest
      end
  end.

(** The body of [for username, addresses := range c.Users]. *)
Definition validate_user (entry : string * list string) : option ConfigError :=
  let '(username, addresses) := entry in
  if String.eqb username "" then Some EmptyUsername
  else if (length addresses =? 0)%nat then Some (UserWithoutAddresses username)
  else match first_empty_address addresses 0 with
       | Some i => Some (UserEmptyAddress username i)
       | None => None
       end.

(** The body of [for username, addresses := range persona.Usernames]. *)
Definition validate_persona_user (slug : string) (entry : string * list string)
  : option ConfigError :=
  let '(username, addresses) := entry in
  if String.eqb username "" then Some (PersonaEmptyUsername slug)
  else if (length addresses =? 0)%nat then Some (PersonaUserWithoutAddresses slug username)
  else match first_empty_address addresses 0 with
       | Some i => Some (PersonaUserEmptyAddress slug username i)
       | None => None
       end.

(** The body of [for slug, persona := range c.Personas]. *)
Definition validate_persona (entry : string * PersonaConfig.t) : option ConfigError :=
  let '(slug, persona) := entry in
  if String.eqb slug "" then Some EmptyPersonaSlug
  else if String.eqb (PersonaConfig.DisplayName persona) ""
  then Some (PersonaWithoutDisplayName slug)
  else if (length (map_to_list (PersonaConfig.Usernames persona)) =? 0)%nat
  then Some (PersonaWithoutUsernames slug)
  else first_error (validate_persona_user slug) (map_to_list (PersonaConfig.Usernames persona)).

(** [Config.Validate]; [None] is the nil error. The maps are ranged over
    in the order of [map_to_list]. *)
Definition Validate (c : Config.t) : option ConfigError :=
  if (Config.Port c <=? 0) || (65535 <? Config.Port c)
  then Some (InvalidServerPort (Config.Port c))
  else if String.eqb (Config.Path c) "" then Some DatabasePathRequired
  else if Config.IntervalMinutes c <=? 0
  then Some (SyncIntervalNotPositive (Config.IntervalMinutes c))
  else if (length (map_to_list (Config.Users c)) =? 0)%nat
          && (length (map_to_list (Config.Personas c)) =? 0)%nat
  then Some NoUserOrPersona
  else match first_error validate_user (map_to_list (Config.Users c)) with
       | Some e => Some e
       | None => first_error validate_persona (map_to_list (Config.Personas c))
       end.

(** The loop [for username, addresses := range m { allUsers[username] = addresses }]. *)
Definition add_users (allUsers : gmap string (list string))
    (entries : list (string * list string)) : gmap string (list string) :=
  fold_left (fun acc entry => <[entry.1 := entry.2]> acc) entries allUsers.

(** [Config.GetAllUsers] *)
Definition GetAllUsers (c : Config.t) : gmap string (list string) :=
  fold_left (fun acc persona => add_users acc (map_to_list (PersonaConfig.Usernames persona.2)))
            (map_to_list (Config.Personas c))
            (add_users ∅ (map_to_list (Config.Users c))).

(** ** Specification-side definitions of the further properties *)

(** The fields of a row that the live-stats pass processes. *)
Definition ledger_fields (t : Trade.t) : option (positionKey * string * Q * Q) :=
  match Trade.ConditionID t, Trade.Outcome t, Trade.Side t, Trade.Price t, Trade.Size t with
  | Some cid, Some out, Some side, Some price, Some size =>
      Some (mkKey cid out, side, price, size)
  | _, _, _, _, _ => None
  end.

(** Every buy that the ledger processes has a positive size. *)
Definition buys_positive (trades : list Trade.t) : Prop :=
  Forall (fun t => forall key price size,
            ledger_fields t = Some (key, "BUY"%string, price, size) -> (0 < size)%Q) trades.

(** Every open lot of an inventory has a positive size. *)
Definition lots_positive (inventory : gmap positionKey (list fifoLot.t)) : Prop :=
  forall key, Forall (fun l => (0 < fifoLot.Shares l)%Q) (lots_at inventory key).


(** A computation that never changes the database and whose result, when
    it returns one, satisfies [post] on the database it was run on. *)
Definition reads {A} (post : DB -> A -> Prop) (m : M A) : Prop :=
  forall w, db (m w).2 = db w /\ forall a, (m w).1 = Ok a -> post (db w) a.

(** The statistics of an account as a function of the database. *)
Definition stats_of (username : string) (user : User.t) (d : DB) : UserStats.t :=
  let rows := user_positions (User.ID user) d in
  let unrealizedPnl := sum_unrealized rows in
  let fifo := Live.result (Live.run (trades_chronological (User.ID user) d)) in
  let pnl := match User.OfficialPnl user with
             | Some official => (official, (official - unrealizedPnl)%Q)
             | None => ((fifo.1.1 + unrealizedPnl)%Q, fifo.1.1)
             end in
  UserStats.mk username
    (map Address.Address (filter (fun a => Address.UserID a = User.ID user) (addresses d)))
    (User.ProfileImage user) pnl.1 pnl.2 unrealizedPnl
    (Z.of_nat (length rows))
    (Z.of_nat (length (user_trades (User.ID user) d)))
    (if 0 <? fifo.2 then (inject_Z fifo.1.2 / inject_Z fifo.2)%Q else 0%Q)
    (User.LastSynced user).

(** Every run of a computation takes the database to one related to it
    by [R], whether the computation returns or fails. *)
Definition keeps {A} (R : DB -> DB -> Prop) (m : M A) : Prop :=
  forall w, R (db w) (db (m w).2).

(** The accounts keep their ids and names, the addresses are the same,
    and the stored trades and snapshots are still there, in place, with
    new rows after them only. *)
Definition history_kept (d d' : DB) : Prop :=
  same_identities (users d) (users d')
  /\ addresses d' = addresses d
  /\ trades d `prefix_of` trades d'
  /\ pnl_snapshots d `prefix_of` pnl_snapshots d'.

(** The cached positions of every account but [userID] are the same. *)
Definition other_positions_kept (userID : Z) (d d' : DB) : Prop :=
  forall other, other <> userID -> user_positions other d' = user_positions other d.

(** The cached positions are the same. *)
Definition positions_kept (d d' : DB) : Prop := positions d' = positions d.

(** The constraints of the [trades] table: no NULL in a column that
    [InsertTrade] binds to a pointer, and no two rows with the same
    conflict key. *)
Definition trades_table_ok (rows : list Trade.t) : Prop :=
  Forall (fun t => trade_not_null t = true) rows
  /\ forall i j a b, rows !! i = Some a -> rows !! j = Some b ->
       same_trade a b = true -> i = j.

Definition trades_table_kept (d d' : DB) : Prop :=
  trades_table_ok (trades d) -> trades_table_ok (trades d').

(** The rows that the sync of an address upserts, in order, on top of
    [rows]. *)
Definition upsert_all (env : Env) (userID : Z) (address : string)
    (fetched : list PositionResponse.t) (rows : list Position.t) : list Position.t :=
  fold_left (fun rows pos => upsert_position (position_row env userID address pos) rows)
            fetched rows.

(** The conflict key of the [positions] table. *)
Definition position_key (p : Position.t) : Z * string * string * string :=
  (Position.UserID p, Position.Address p, Position.ConditionID p, Position.Asset p).

(** No two cached positions share a conflict key. *)
Definition positions_table_kept (d d' : DB) : Prop :=
  NoDup (map position_key (positions d)) -> NoDup (map position_key (positions d')).

(** Everything but the snapshots of [userID] is the same. *)
Definition only_snapshots_of (userID : Z) (d d' : DB) : Prop :=
  users d' = users d /\ addresses d' = addresses d
  /\ positions d' = positions d /\ trades d' = trades d
  /\ forall other, other <> userID -> user_snapshots other d' = user_snapshots other d.

(** The driver accepts every statement of a bulk insert of [snapshots]. *)
Definition bulk_insert_accepted (env : Env) (snapshots : list PnlSnapshot.t) : Prop :=
  sql_error env BeginTx = None
  /\ sql_error env PrepareInsertSnapshot = None
  /\ Forall (fun s => sql_error env (TxInsertSnapshot s) = None) snapshots
  /\ sql_error env CommitTx = None.

(** An account that the sync service can work with. *)
Definition wellformed_account (username : string) (addresses : list string) : Prop :=
  username <> ""%string /\ addresses <> [] /\ ""%string ∉ addresses.

Definition wellformed_persona (slug : string) (persona : PersonaConfig.t) : Prop :=
  slug <> ""%string
  /\ PersonaConfig.DisplayName persona <> ""%string
  /\ PersonaConfig.Usernames persona <> ∅
  /\ map_Forall wellformed_account (PersonaConfig.Usernames persona).

Definition wellformed_config (c : Config.t) : Prop :=
  0 < Config.Port c <= 65535
  /\ Config.Path c <> ""%string
  /\ 0 < Config.IntervalMinutes c
  /\ (Config.Users c <> ∅ \/ Config.Personas c <> ∅)
  /\ map_Forall wellformed_account (Config.Users c)
  /\ map_Forall wellformed_persona (Config.Personas c).

(** Some persona of the configuration lists [username]. *)
Definition persona_has (c : Config.t) (username : string) (addresses : list string) : Prop :=
  exists slug persona,
    Config.Personas c !! slug = Some persona
    /\ PersonaConfig.Usernames persona !! username = Some addresses.

(** A configuration with one legacy user and one persona that lists the
    same username with another address. *)
Definition sample_config : Config.t :=
  Config.mk "0.0.0.0" 8080 "./data/pyre.db"
    (<["alice"%string := ["0xabc"%string]]> ∅)
    (<["whale"%string :=
         PersonaConfig.mk "The Whale" ""
           (<["alice"%string := ["0xnew"%string]]> (<["carol"%string := ["0xc"%string]]> ∅))]> ∅)
    5.

(** A trade as a sync stores it: complete, dated after the epoch, and
    with the value of its price and size. *)
Definition synced_trade (t : Trade.t) : Prop :=
  exists cid side price size timestamp,
    Trade.ConditionID t = Some cid /\ cid <> ""%string
    /\ Trade.Side t = Some side /\ side <> ""%string
    /\ Trade.Price t = Some price /\ Trade.Size t = Some size
    /\ Trade.Value t = Some (price * size)%Q
    /\ Trade.Timestamp t = Some timestamp /\ 0 < timestamp.

(** The trades table has new rows at its end only, all of them as a sync
    stores them. *)
Definition adds_synced_trades (d d' : DB) : Prop :=
  exists added, trades d' = trades d ++ added /\ Forall synced_trade added.
(** * Properties *)

(** ** Amounts *)

Lemma Qltb_lt (x y : Q) : Qltb x y = true <-> (x < y)%Q.
Proof.
  unfold Qltb. rewrite negb_true_iff. split.
  - intros H. apply Qnot_le_lt. intros Hle.
    apply Qle_bool_iff in Hle. congruence.
  - intros H. destruct (Qle_bool y x) eqn:E; [|reflexivity].
    apply Qle_bool_iff in E. exfalso. apply (Qlt_not_le _ _ H E).
Qed.

Lemma Qltb_ge (x y : Q) : Qltb x y = false <-> (y <= x)%Q.
Proof.
  unfold Qltb. rewrite negb_false_iff. apply Qle_bool_iff.
Qed.

(** ** The live-stats pass on lots *)

Lemma count_realized pnl a :
  Live.realizedPnl (Live.count pnl a) = (Live.realizedPnl a + pnl)%Q.
Proof. unfold Live.count. destruct (Qltb 0 pnl), (Qltb pnl 0); reflexivity. Qed.

Lemma match_lots_legs price lots : forall remaining a,
  (Live.realizedPnl (Live.match_lots price lots remaining a).2
   == Live.realizedPnl a + sum_legs price (fifo_legs false (map pair_of lots) remaining))%Q.
Proof.
  induction lots as [|lot rest IH]; intros remaining a; simpl.
  - destruct (Qltb 0 remaining); simpl; ring.
  - destruct (Qltb 0 remaining); simpl; [|ring].
    destruct (Qle_bool (fifoLot.Shares lot) remaining); simpl.
    + rewrite IH, count_realized. unfold leg_pnl; simpl. ring.
    + rewrite count_realized. unfold leg_pnl; simpl. ring.
Qed.

(** ** The two ledger passes side by side *)

Lemma lots_at_insert {L} (m : gmap positionKey (list L)) k k' v :
  lots_at (<[k := v]> m) k' = if decide (k = k') then v else lots_at m k'.
Proof.
  unfold lots_at. rewrite lookup_insert. destruct (decide (k = k')); reflexivity.
Qed.

Lemma held_cons lot rest : held (lot :: rest) = (fifoLot.Shares lot + held rest)%Q.
Proof. reflexivity. Qed.

(** The two matching loops walk the queue in the same way: same lots left,
    same remainder, same realized amount. *)
Lemma consume_match_lots price lots : forall remaining a acc,
  (Backfill.consume price (map lot_of lots) remaining acc).1.1
    = map lot_of (Live.match_lots price lots remaining a).1.1
  /\ (Backfill.consume price (map lot_of lots) remaining acc).1.2
    = (Live.match_lots price lots remaining a).1.2
  /\ ((Backfill.consume price (map lot_of lots) remaining acc).2 - acc
      == Live.realizedPnl (Live.match_lots price lots remaining a).2 - Live.realizedPnl a)%Q.
Proof.
  induction lots as [|lot rest IH]; intros remaining a acc; simpl.
  - destruct (Qltb 0 remaining); simpl; repeat split; ring.
  - destruct (Qltb 0 remaining); simpl; [|repeat split; ring].
    destruct (Qle_bool (fifoLot.Shares lot) remaining); simpl.
    + destruct (IH (remaining - fifoLot.Shares lot)%Q
                   (Live.count (fifoLot.Shares lot * price - fifoLot.Shares lot * fifoLot.Price lot) a)
                   (acc + (price - fifoLot.Price lot) * fifoLot.Shares lot)%Q)
        as (H1 & H2 & H3).
      repeat split; [exact H1|exact H2|].
      rewrite count_realized in H3. lra.
    + repeat split. rewrite count_realized. ring.
Qed.

(** C2. The two passes are not one computation. On the example of the
    specification (buy 10 at 0.40, buy 5 at 0.60, sell 12 at 0.70), stored
    rows in which the sell is covered by the buys before it, the live-stats
    pass returns the binary64 nearest to 3.20 and the backfill pass a
    realized PnL two units in the last place below it: the former rounds
    [Shares * price - Shares * Price] and the latter
    [(sellPrice - price) * size]. After a buy of 2 at 0.50 a sell of 5 at
    0.70 gives one unit in the last place below 2.50 in the backfill pass
    and two below 0.40 in the live-stats pass, which books nothing for the
    three shares sold without a recorded buy. *)
Theorem backfill_pnl_differs_from_live_pnl :
  let example := example_trades "0xc1" "Yes" in
  let backfill trades :=
    Binary64.Backfill.cumulativeRealizedPnl (Binary64.Backfill.run trades) in
  let live trades :=
    Binary64.Live.realizedPnl (Binary64.Live.totals (Binary64.Live.run trades)) in
  (Forall (fun t => trade_not_null t = true) example
   /\ covered example = true
   /\ live example = Binary64.of_Q 3.20
   /\ backfill example = PrimFloat.next_down (PrimFloat.next_down (Binary64.of_Q 3.20))
   /\ PrimFloat.ltb (backfill example) (live example) = true)
  /\ (Forall (fun t => trade_not_null t = true) oversell
      /\ backfill oversell = PrimFloat.next_down (Binary64.of_Q 2.50)
      /\ live oversell = PrimFloat.next_down (PrimFloat.next_down (Binary64.of_Q 0.40))
      /\ PrimFloat.ltb (live oversell) (backfill oversell) = true).
Proof.
  cbv zeta. split.
  - split; [repeat constructor|]. repeat split; vm_compute; reflexivity.
  - split; [repeat constructor|]. repeat split; vm_compute; reflexivity.
Qed.

(** ** The untracked remainder of a sell *)

(** C1 (failing input). A sell of 5 shares at 0.70 on a key with no
    recorded buy: the backfill pass accrues 0.70 * 5 = 3.50 for the
    untracked remainder, the live-stats pass accrues nothing. *)
Theorem live_pass_drops_untracked_remainder :
  (Backfill.cumulativeRealizedPnl (Backfill.run untracked_sell) == 0.70 * 5)%Q
  /\ (Live.realizedPnl (Live.totals (Live.run untracked_sell)) == 0)%Q
  /\ Live.result (Live.run untracked_sell) = (0%Q, 0, 0).
Proof.
  split; [vm_compute; reflexivity|]. split; [vm_compute; reflexivity|].
  vm_compute. reflexivity.
Qed.

Lemma consume_legs price lots : forall remaining acc,
  ((Backfill.consume price lots remaining acc).2
   + (if Qltb 0 (Backfill.consume price lots remaining acc).1.2
      then price * (Backfill.consume price lots remaining acc).1.2 else 0)
   == acc + sum_legs price (fifo_legs true (map bpair lots) remaining))%Q.
Proof.
  induction lots as [|lot rest IH]; intros remaining acc; simpl.
  - destruct (Qltb 0 remaining) eqn:E; simpl; rewrite E; unfold leg_pnl; simpl; ring.
  - destruct (Qltb 0 remaining) eqn:E; simpl; [|rewrite E; ring].
    destruct (Qle_bool (Backfill.size lot) remaining); simpl.
    + rewrite IH. unfold leg_pnl; simpl. ring.
    + unfold leg_pnl; simpl. ring.
Qed.

(** The backfill pass realizes, for one sell, the sum of its lot
    consumptions, the zero-cost-basis remainder included. *)
Lemma calculateRealizedPnlFIFO_sum_of_legs costBasis key sellPrice sellSize :
  (0 <= sellSize)%Q ->
  ((Backfill.calculateRealizedPnlFIFO costBasis key sellPrice sellSize).1
   == sum_legs sellPrice (fifo_legs true (map bpair (lots_at costBasis key)) sellSize))%Q.
Proof.
  intros Hpos. unfold Backfill.calculateRealizedPnlFIFO, lots_at.
  assert (Hnil : (sellPrice * sellSize
                  == sum_legs sellPrice (fifo_legs true (map bpair []) sellSize))%Q).
  { simpl. destruct (Qltb 0 sellSize) eqn:E; simpl; unfold leg_pnl; simpl; [ring|].
    apply Qltb_ge in E. assert (sellSize == 0)%Q as -> by lra. ring. }
  destruct (costBasis !! key) as [[|lot rest]|]; simpl default; [exact Hnil| |exact Hnil].
  pose proof (consume_legs sellPrice (lot :: rest) sellSize 0%Q) as H.
  destruct (Backfill.consume sellPrice (lot :: rest) sellSize 0) as [[lots' rem] pnl].
  simpl in H. destruct (Qltb 0 rem); simpl; lra.
Qed.

(** The live-stats pass realizes, for one sell, the sum of the lot
    consumptions only: the remainder of an emptied queue adds nothing. *)
Lemma match_lots_sum_of_legs price lots remaining a :
  (Live.realizedPnl (Live.match_lots price lots remaining a).2
   == Live.realizedPnl a + sum_legs price (fifo_legs false (map pair_of lots) remaining))%Q.
Proof. apply match_lots_legs. Qed.

(** ** The example scenario *)



(** ** Incomplete rows *)

Lemma backfill_step_skips st trade :
  missing_required_field trade -> Backfill.step st trade = st.
Proof.
  unfold missing_required_field, missing_ledger_field, Backfill.step.
  intros H.
  destruct (Trade.Timestamp trade), (Trade.ConditionID trade), (Trade.Outcome trade),
    (Trade.Side trade), (Trade.Price trade), (Trade.Size trade);
    try reflexivity.
  exfalso. intuition discriminate.
Qed.

Lemma live_step_skips st trade :
  missing_ledger_field trade -> Live.step st trade = st.
Proof.
  unfold missing_ledger_field, Live.step. intros H.
  destruct (Trade.ConditionID trade), (Trade.Outcome trade),
    (Trade.Side trade), (Trade.Price trade), (Trade.Size trade);
    try reflexivity.
  exfalso. intuition discriminate.
Qed.

Lemma stored_row_misses_outcome trade :
  trade_not_null trade = true -> missing_required_field trade -> Trade.Outcome trade = None.
Proof.
  unfold trade_not_null, missing_required_field, missing_ledger_field.
  destruct (Trade.ConditionID trade), (Trade.Side trade), (Trade.Price trade),
    (Trade.Size trade), (Trade.Timestamp trade); try discriminate.
  intros _ H. destruct (Trade.Outcome trade); [|reflexivity].
  exfalso. intuition discriminate.
Qed.

(** C7. A trade missing its timestamp, condition id, outcome, side, price
    or size leaves the backfill pass exactly as if it were not in the
    history; and when the trade is a row of the trades table, whose
    condition id, side, price, size and timestamp are never NULL, it
    leaves the live-stats pass (realized PnL, win and loss counts, lot
    inventory) exactly as if it were not in the history too. Both passes
    are total: neither can fail on such a row. *)
Theorem incomplete_trades_are_skipped (before after : list Trade.t) (trade : Trade.t) :
  missing_required_field trade ->
  Backfill.run (before ++ trade :: after) = Backfill.run (before ++ after)
  /\ (trade_not_null trade = true ->
      Live.run (before ++ trade :: after) = Live.run (before ++ after)).
Proof.
  intros Hmiss. unfold Backfill.run, Live.run. split.
  - rewrite !fold_left_app. simpl. rewrite backfill_step_skips by exact Hmiss. reflexivity.
  - intros Hrow. rewrite !fold_left_app. simpl. rewrite live_step_skips; [reflexivity|].
    right. left. exact (stored_row_misses_outcome trade Hrow Hmiss).
Qed.

Lemma incomplete_trades_are_skipped_witness :
  missing_required_field sell_without_outcome
  /\ trade_not_null sell_without_outcome = true
  /\ Backfill.run (firstn 2 (example_trades "0xc1" "Yes") ++ sell_without_outcome
                     :: skipn 2 (example_trades "0xc1" "Yes"))
     = Backfill.run (firstn 2 (example_trades "0xc1" "Yes")
                     ++ skipn 2 (example_trades "0xc1" "Yes"))
  /\ Live.run (firstn 2 (example_trades "0xc1" "Yes") ++ sell_without_outcome
                 :: skipn 2 (example_trades "0xc1" "Yes"))
     = Live.run (firstn 2 (example_trades "0xc1" "Yes")
                 ++ skipn 2 (example_trades "0xc1" "Yes")).
Proof.
  assert (Hr : missing_required_field sell_without_outcome).
  { right. unfold missing_ledger_field. simpl. tauto. }
  split; [exact Hr|]. split; [reflexivity|].
  destruct (incomplete_trades_are_skipped
              (firstn 2 (example_trades "0xc1" "Yes"))
              (skipn 2 (example_trades "0xc1" "Yes")) sell_without_outcome Hr) as [Hb Hl].
  split; [exact Hb|exact (Hl eq_refl)].
Defined.

(** ** The daily map of the backfill pass *)

Lemma backfill_run_snoc trades t :
  Backfill.run (trades ++ [t]) = Backfill.step (Backfill.run trades) t.
Proof. unfold Backfill.run. rewrite fold_left_app. reflexivity. Qed.

Lemma backfill_step_daily st t :
  Backfill.dailyPnl (Backfill.step st t) =
    match sell_day t with
    | Some day => <[day := Backfill.cumulativeRealizedPnl (Backfill.step st t)]>
                    (Backfill.dailyPnl st)
    | None => Backfill.dailyPnl st
    end.
Proof.
  unfold Backfill.step, sell_day.
  destruct (Trade.Timestamp t), (Trade.ConditionID t), (Trade.Outcome t),
    (Trade.Side t) as [side|], (Trade.Price t), (Trade.Size t); try reflexivity.
  destruct (String.eqb side "BUY") eqn:Ebuy.
  - apply String.eqb_eq in Ebuy. subst side. reflexivity.
  - destruct (String.eqb side "SELL"); [|reflexivity].
    destruct (Backfill.calculateRealizedPnlFIFO _ _ _ _). reflexivity.
Qed.

Lemma snoc_split {A} (l pre post : list A) (x t : A) :
  l ++ [x] = pre ++ t :: post ->
  (post = [] /\ l = pre /\ x = t)
  \/ (exists post', post = post' ++ [x] /\ l = pre ++ t :: post').
Proof.
  intros H. destruct (rev post) as [|y rpost] eqn:E.
  - left. apply (f_equal (@rev A)) in E. rewrite rev_involutive in E. simpl in E. subst post.
    apply app_inj_tail in H as [-> ->]. auto.
  - right. apply (f_equal (@rev A)) in E. rewrite rev_involutive in E. simpl in E. subst post.
    exists (rev rpost). split.
    + change (pre ++ t :: rev rpost ++ [y]) with (pre ++ (t :: rev rpost) ++ [y]) in H.
      rewrite app_assoc in H. apply app_inj_tail in H as [_ ->]. reflexivity.
    + change (pre ++ t :: rev rpost ++ [y]) with (pre ++ (t :: rev rpost) ++ [y]) in H.
      rewrite app_assoc in H. apply app_inj_tail in H as [-> _]. reflexivity.
Qed.

(** The value recorded for a day is the cumulative realized PnL right
    after the last sell of that day, and only days with a sell are
    recorded. *)
Lemma dailyPnl_last_sell (trades : list Trade.t) (day : Z) (v : Q) :
  Backfill.dailyPnl (Backfill.run trades) !! day = Some v <->
  exists pre t post,
    trades = pre ++ t :: post
    /\ sell_day t = Some day
    /\ Forall (fun t' => sell_day t' <> Some day) post
    /\ v = Backfill.cumulativeRealizedPnl (Backfill.run (pre ++ [t])).
Proof.
  revert v. induction trades as [|x l IH] using rev_ind; intros v.
  - split.
    + unfold Backfill.run. simpl. rewrite lookup_empty. discriminate.
    + intros (pre & t & post & H & _). destruct pre; discriminate H.
  - rewrite backfill_run_snoc, backfill_step_daily. split.
    + intros Hlook. destruct (sell_day x) as [d|] eqn:Ex.
      * destruct (decide (d = day)) as [->|Hne].
        -- rewrite lookup_insert_eq in Hlook. injection Hlook as <-.
           exists l, x, []. rewrite backfill_run_snoc. repeat split; auto.
        -- rewrite lookup_insert_ne in Hlook by exact Hne.
           apply IH in Hlook as (pre & t & post & -> & Ht & Hpost & ->).
           exists pre, t, (post ++ [x]). repeat split; auto.
           ++ rewrite <- app_assoc. reflexivity.
           ++ apply Forall_app. split; [exact Hpost|].
              constructor; [|constructor]. rewrite Ex. congruence.
      * apply IH in Hlook as (pre & t & post & -> & Ht & Hpost & ->).
        exists pre, t, (post ++ [x]). repeat split; auto.
        -- rewrite <- app_assoc. reflexivity.
        -- apply Forall_app. split; [exact Hpost|].
           constructor; [|constructor]. rewrite Ex. discriminate.
    + intros (pre & t & post & Hsplit & Ht & Hpost & ->).
      apply snoc_split in Hsplit as [(-> & -> & ->)|(post' & -> & ->)].
      * rewrite Ht, lookup_insert_eq, backfill_run_snoc. reflexivity.
      * apply Forall_app in Hpost as [Hpost' Hx].
        inversion Hx as [|? ? Hx' _]; subst.
        assert (Hl : Backfill.dailyPnl (Backfill.run (pre ++ t :: post')) !! day
                     = Some (Backfill.cumulativeRealizedPnl (Backfill.run (pre ++ [t])))).
        { apply IH. exists pre, t, post'. auto. }
        destruct (sell_day x) as [d|]; [|exact Hl].
        rewrite lookup_insert_ne by congruence. exact Hl.
Qed.

Lemma by_snapshot_time_total : Total by_snapshot_time.
Proof. intros a b. unfold by_snapshot_time. lia. Qed.

Lemma by_snapshot_time_trans : Transitive by_snapshot_time.
Proof. intros a b c. unfold by_snapshot_time. lia. Qed.

Lemma elem_of_backfill_snapshots userID trades s :
  s ∈ backfill_snapshots userID trades <->
  exists day v, Backfill.dailyPnl (Backfill.run trades) !! day = Some v
                /\ s = snapshot_of userID (day, v).
Proof.
  unfold backfill_snapshots, createSnapshots.
  rewrite merge_sort_Permutation. rewrite list_elem_of_fmap. split.
  - intros ([day v] & -> & Hin). apply elem_of_map_to_list in Hin. eauto.
  - intros (day & v & Hlook & ->). exists (day, v). split; [reflexivity|].
    apply elem_of_map_to_list. exact Hlook.
Qed.

Lemma backfill_snapshots_days userID trades :
  map PnlSnapshot.Timestamp (backfill_snapshots userID trades)
  ≡ₚ (map_to_list (Backfill.dailyPnl (Backfill.run trades))).*1.
Proof.
  unfold backfill_snapshots, createSnapshots.
  rewrite merge_sort_Permutation. rewrite map_map. simpl. reflexivity.
Qed.

Lemma backfill_snapshots_NoDup userID trades :
  NoDup (map PnlSnapshot.Timestamp (backfill_snapshots userID trades)).
Proof.
  rewrite backfill_snapshots_days. apply NoDup_fst_map_to_list.
Qed.

Lemma backfill_snapshots_user userID trades :
  Forall (fun s => PnlSnapshot.UserID s = userID) (backfill_snapshots userID trades).
Proof.
  apply Forall_forall. intros s Hs.
  apply elem_of_backfill_snapshots in Hs as (day & v & _ & ->). reflexivity.
Qed.

Lemma backfill_snapshots_sorted userID trades :
  StronglySorted by_snapshot_time (backfill_snapshots userID trades).
Proof.
  unfold backfill_snapshots.
  apply (@StronglySorted_merge_sort _ _ _ by_snapshot_time_trans by_snapshot_time_total).
Qed.

(** A list of snapshots with pairwise distinct days has one sorted
    arrangement only. *)
Lemma sorted_snapshots_unique (l1 l2 : list PnlSnapshot.t) :
  StronglySorted by_snapshot_time l1 ->
  StronglySorted by_snapshot_time l2 ->
  l1 ≡ₚ l2 ->
  NoDup (map PnlSnapshot.Timestamp l1) ->
  l1 = l2.
Proof.
  intros Hs1. revert l2.
  induction Hs1 as [|x l1 Hs1 IH Hx]; intros l2 Hs2 Hperm Hnd.
  - apply Permutation_nil_l in Hperm. congruence.
  - destruct Hs2 as [|y l2 Hs2 Hy].
    { symmetry in Hperm. apply Permutation_nil_l in Hperm. discriminate. }
    simpl in Hnd. apply NoDup_cons in Hnd as [Hxl Hnd].
    assert (Hxy : x = y).
    { assert (Hyin : y ∈ x :: l1) by (rewrite Hperm; left).
      assert (Hxin : x ∈ y :: l2) by (rewrite <- Hperm; left).
      apply elem_of_cons in Hyin as [Hyx|Hyin]; [congruence|].
      apply elem_of_cons in Hxin as [Hxy|Hxin]; [exact Hxy|].
      exfalso. apply Hxl.
      assert (PnlSnapshot.Timestamp x = PnlSnapshot.Timestamp y) as ->.
      { rewrite Forall_forall in Hx, Hy. specialize (Hx y Hyin). specialize (Hy x Hxin).
        unfold by_snapshot_time in Hx, Hy. lia. }
      apply list_elem_of_fmap. eauto. }
    subst y. f_equal. apply IH; [exact Hs2| |exact Hnd].
    apply (Permutation_cons_inv Hperm).
Qed.

(** Whatever the order in which Go ranges over the daily map and whatever
    the sorting algorithm behind [sort.Slice], the sorted snapshots are the
    list computed by [backfill_snapshots]. *)
Lemma backfill_snapshots_order_irrelevant userID trades (ranged sorted : list (Z * Q)) :
  ranged ≡ₚ map_to_list (Backfill.dailyPnl (Backfill.run trades)) ->
  map (snapshot_of userID) sorted ≡ₚ map (snapshot_of userID) ranged ->
  StronglySorted by_snapshot_time (map (snapshot_of userID) sorted) ->
  map (snapshot_of userID) sorted = backfill_snapshots userID trades.
Proof.
  intros Hranged Hperm Hsorted.
  apply sorted_snapshots_unique.
  - exact Hsorted.
  - apply backfill_snapshots_sorted.
  - rewrite Hperm, Hranged. unfold backfill_snapshots, createSnapshots.
    rewrite merge_sort_Permutation. reflexivity.
  - rewrite Hperm, Hranged. rewrite map_map. simpl. apply NoDup_fst_map_to_list.
Qed.

(** ** The effect monad *)

Lemma bind_ok {A B} (m : M A) (k : A -> M B) w a w' :
  m w = (Ok a, w') -> bind m k w = k a w'.
Proof. intros H. unfold bind. rewrite H. reflexivity. Qed.

Lemma bind_err {A B} (m : M A) (k : A -> M B) w e w' :
  m w = (Err e, w') -> bind m k w = (Err e, w').
Proof. intros H. unfold bind. rewrite H. reflexivity. Qed.

Lemma bind_inv_ok {A B} (m : M A) (k : A -> M B) w b w' :
  bind m k w = (Ok b, w') -> exists a w1, m w = (Ok a, w1) /\ k a w1 = (Ok b, w').
Proof.
  unfold bind. destruct (m w) as [[a|e] w1]; [eauto|discriminate].
Qed.

Lemma wrap_ok {A} prefix (m : M A) w a w' :
  m w = (Ok a, w') -> wrap prefix m w = (Ok a, w').
Proof. intros H. unfold wrap. rewrite H. reflexivity. Qed.

Lemma wrap_err {A} prefix (m : M A) w e w' :
  m w = (Err e, w') -> wrap prefix m w = (Err (prefix ++ ": " ++ e)%string, w').
Proof. intros H. unfold wrap. rewrite H. reflexivity. Qed.

Lemma exec_accepted env s what f w :
  sql_error env s = None ->
  exec env s what f w = (Ok tt, mkWorld (f (db w)) (events w ++ [Sql s]) (logs w)).
Proof. intros H. unfold exec, bind, emit, read_db, write_db. simpl. rewrite H. reflexivity. Qed.

Lemma exec_rejected env s what f w e :
  sql_error env s = Some e ->
  exec env s what f w
  = (Err (what ++ ": " ++ e)%string, mkWorld (db w) (events w ++ [Sql s]) (logs w)).
Proof. intros H. unfold exec, bind, emit, fail. simpl. rewrite H. reflexivity. Qed.

Lemma query_accepted {A} env s what (f : DB -> A) w :
  sql_error env s = None ->
  query env s what f w = (Ok (f (db w)), mkWorld (db w) (events w ++ [Sql s]) (logs w)).
Proof. intros H. unfold query, bind, emit, read_db, ret. simpl. rewrite H. reflexivity. Qed.

Lemma query_rejected {A} env s what (f : DB -> A) w e :
  sql_error env s = Some e ->
  query env s what f w
  = (Err (what ++ ": " ++ e)%string, mkWorld (db w) (events w ++ [Sql s]) (logs w)).
Proof. intros H. unfold query, bind, emit, fail. simpl. rewrite H. reflexivity. Qed.

Lemma GetUser_found env username w user :
  sql_error env (SelectUser username) = None ->
  find_user username (db w) = Some user ->
  GetUser env username w
  = (Ok user, mkWorld (db w) (events w ++ [Sql (SelectUser username)]) (logs w)).
Proof.
  intros Hs Hf. unfold GetUser.
  rewrite (bind_ok _ _ _ _ _ (query_accepted env _ _ _ w Hs)). rewrite Hf. reflexivity.
Qed.

Lemma GetUserTradesChronological_accepted env userID w :
  sql_error env (SelectTradesChronological userID) = None ->
  GetUserTradesChronological env userID w
  = (Ok (trades_chronological userID (db w)),
     mkWorld (db w) (events w ++ [Sql (SelectTradesChronological userID)]) (logs w)).
Proof. intros Hs. unfold GetUserTradesChronological. apply query_accepted. exact Hs. Qed.

(** ** [BackfillUser] *)

(** C9. For an account that exists and has no stored trade, [BackfillUser]
    returns the zero result without error, issues neither the delete nor
    an insert, and leaves the database, hence the stored snapshot history
    of the account, unchanged. *)
Theorem backfill_without_trades_keeps_snapshots
    (env : Env) (username : string) (w : World) (user : User.t) :
  sql_error env (SelectUser username) = None ->
  sql_error env (SelectTradesChronological (User.ID user)) = None ->
  find_user username (db w) = Some user ->
  user_trades (User.ID user) (db w) = [] ->
  (BackfillUser env username w).1 = Ok (zero_result username)
  /\ db (BackfillUser env username w).2 = db w
  /\ user_snapshots (User.ID user) (db (BackfillUser env username w).2)
     = user_snapshots (User.ID user) (db w)
  /\ events (BackfillUser env username w).2
     = events w ++ [Sql (SelectUser username);
                    Sql (SelectTradesChronological (User.ID user))].
Proof.
  intros Hs1 Hs2 Hfind Hnone.
  assert (Hrun : BackfillUser env username w
    = (Ok (zero_result username),
       mkWorld (db w)
         (events w ++ [Sql (SelectUser username);
                       Sql (SelectTradesChronological (User.ID user))])
         (logs w ++ [mkLog Info "starting backfill" username]))).
  { unfold BackfillUser.
    rewrite (bind_ok _ _ w tt (mkWorld (db w) (events w)
               (logs w ++ [mkLog Info "starting backfill" username]))) by reflexivity.
    erewrite bind_ok; [|apply wrap_ok, GetUser_found; [exact Hs1|exact Hfind]].
    erewrite bind_ok; [|apply wrap_ok, GetUserTradesChronological_accepted; exact Hs2].
    cbn [db events logs]. unfold trades_chronological. rewrite Hnone. simpl.
    unfold ret, zero_result. rewrite <- app_assoc. reflexivity. }
  rewrite Hrun. simpl. auto.
Qed.

Lemma with_snapshots_nil d : with_snapshots [] d = d.
Proof. destruct d. unfold with_snapshots, set_pnl_snapshots. simpl. rewrite app_nil_r. reflexivity. Qed.

Lemma with_snapshots_cons s rest d :
  with_snapshots rest (with_snapshots [s] d) = with_snapshots (s :: rest) d.
Proof.
  unfold with_snapshots, set_pnl_snapshots. simpl. rewrite <- app_assoc. reflexivity.
Qed.

(** The inserts of the transaction either all go through or stop at the
    first rejected one. *)
Lemma tx_insert_snapshots_outcome env snapshots : forall w,
  ((tx_insert_snapshots env snapshots w).1 = Ok tt
   /\ db (tx_insert_snapshots env snapshots w).2 = with_snapshots snapshots (db w)
   /\ Forall (fun s => sql_error env (TxInsertSnapshot s) = None) snapshots)
  \/ ((exists e, (tx_insert_snapshots env snapshots w).1 = Err e)
      /\ Exists (fun s => sql_error env (TxInsertSnapshot s) <> None) snapshots).
Proof.
  induction snapshots as [|s rest IH]; intros w; simpl.
  - left. rewrite with_snapshots_nil. auto.
  - destruct (sql_error env (TxInsertSnapshot s)) as [e|] eqn:Es.
    + right. erewrite bind_err; [|apply exec_rejected; exact Es]. simpl. split.
      * eauto.
      * constructor. rewrite Es. discriminate.
    + erewrite bind_ok; [|apply exec_accepted; exact Es].
      match goal with |- context [tx_insert_snapshots env rest ?w1] =>
        destruct (IH w1) as [(Hok & Hdb & Hall)|(Herr & Hex)] end.
      * left. split; [exact Hok|]. split.
        -- rewrite Hdb. cbn [db]. apply (with_snapshots_cons s rest (db w)).
        -- constructor; assumption.
      * right. split; [exact Herr|]. apply Exists_cons_tl. exact Hex.
Qed.

(** [BulkInsertPnlSnapshots] is all or nothing. *)
Lemma BulkInsertPnlSnapshots_atomic env snapshots w :
  ((BulkInsertPnlSnapshots env snapshots w).1 = Ok tt
   /\ db (BulkInsertPnlSnapshots env snapshots w).2 = with_snapshots snapshots (db w))
  \/ ((exists e, (BulkInsertPnlSnapshots env snapshots w).1 = Err e)
      /\ db (BulkInsertPnlSnapshots env snapshots w).2 = db w).
Proof.
  unfold BulkInsertPnlSnapshots.
  destruct snapshots as [|s0 rest0] eqn:Esn.
  { left. simpl. rewrite with_snapshots_nil. auto. }
  rewrite <- Esn. clear Esn. unfold with_rollback.
  match goal with |- context [match ?body w with _ => _ end] =>
    destruct (body w) as [[[]|e] w'] eqn:Ebody end.
  - left. simpl. split; [reflexivity|].
    apply bind_inv_ok in Ebody as ([] & w1 & Hbegin & Ebody).
    apply bind_inv_ok in Ebody as ([] & w2 & Hprep & Ebody).
    apply bind_inv_ok in Ebody as ([] & w3 & Hins & Hcommit).
    unfold exec, bind, emit, read_db, write_db, fail in Hbegin, Hprep, Hcommit.
    simpl in Hbegin, Hprep, Hcommit.
    destruct (sql_error env BeginTx); [discriminate|].
    destruct (sql_error env PrepareInsertSnapshot); [discriminate|].
    destruct (sql_error env CommitTx); [discriminate|].
    injection Hbegin as <-. injection Hprep as <-. injection Hcommit as <-.
    simpl in *.
    match type of Hins with tx_insert_snapshots env snapshots ?w0 = _ =>
      destruct (tx_insert_snapshots_outcome env snapshots w0) as [(Hok & Hdb & _)|([e He] & _)] end.
    + rewrite Hins in Hdb. simpl in Hdb. exact Hdb.
    + rewrite Hins in He. discriminate He.
  - right. simpl. eauto.
Qed.

Lemma BulkInsertPnlSnapshots_healthy env snapshots w :
  healthy env ->
  (BulkInsertPnlSnapshots env snapshots w).1 = Ok tt
  /\ db (BulkInsertPnlSnapshots env snapshots w).2 = with_snapshots snapshots (db w).
Proof.
  intros Hh.
  destruct (BulkInsertPnlSnapshots_atomic env snapshots w) as [H|([e He] & _)]; [exact H|].
  exfalso. revert He. unfold BulkInsertPnlSnapshots.
  destruct snapshots as [|s0 rest0] eqn:Esn; [discriminate|].
  rewrite <- Esn. clear Esn. unfold with_rollback.
  rewrite (bind_ok _ _ _ _ _ (exec_accepted env _ _ _ _ (Hh _))).
  rewrite (bind_ok _ _ _ _ _ (exec_accepted env _ _ _ _ (Hh _))).
  match goal with |- context [bind (tx_insert_snapshots env snapshots) ?k ?w0] =>
    destruct (tx_insert_snapshots_outcome env snapshots w0) as [(Hok & _ & _)|(_ & Hex)];
    [destruct (tx_insert_snapshots env snapshots w0) as [r w3] eqn:Ei;
     simpl in Hok; subst r; rewrite (bind_ok _ k w0 _ _ Ei)|] end.
  - rewrite (exec_accepted env _ _ _ _ (Hh _)). discriminate.
  - apply Exists_exists in Hex as (s & _ & Hs). rewrite Hh in Hs. congruence.
Qed.

Lemma exec_ok_inv env s what f w w' :
  exec env s what f w = (Ok tt, w') ->
  sql_error env s = None /\ db w' = f (db w).
Proof.
  unfold exec, bind, emit, read_db, write_db, fail. simpl.
  destruct (sql_error env s); [discriminate|]. intros [= <-]. auto.
Qed.

(** The bulk insert succeeds exactly when the driver accepts every
    statement of its transaction, and stores nothing otherwise. *)
Lemma BulkInsertPnlSnapshots_outcome
    (env : Env) (snapshots : list PnlSnapshot.t) (w : World) :
  let r := BulkInsertPnlSnapshots env snapshots w in
  (snapshots = [] -> r = (Ok tt, w))
  /\ (bulk_insert_accepted env snapshots ->
      r.1 = Ok tt /\ db r.2 = with_snapshots snapshots (db w))
  /\ (snapshots <> [] -> ~ bulk_insert_accepted env snapshots ->
      (exists e, r.1 = Err e) /\ db r.2 = db w).
Proof.
  cbv zeta. split; [intros ->; reflexivity|]. split.
  - intros (H1 & H2 & H3 & H4).
    destruct (BulkInsertPnlSnapshots_atomic env snapshots w) as [H|([e He] & _)]; [exact H|].
    exfalso. revert He. unfold BulkInsertPnlSnapshots.
    destruct snapshots as [|s0 rest0] eqn:Esn; [discriminate|].
    rewrite <- Esn in *. clear Esn. unfold with_rollback.
    rewrite (bind_ok _ _ _ _ _ (exec_accepted env _ _ _ _ H1)).
    rewrite (bind_ok _ _ _ _ _ (exec_accepted env _ _ _ _ H2)).
    match goal with |- context [bind (tx_insert_snapshots env snapshots) ?k ?w0] =>
      destruct (tx_insert_snapshots_outcome env snapshots w0) as [(Hok & _ & _)|(_ & Hex)];
      [destruct (tx_insert_snapshots env snapshots w0) as [r w3] eqn:Ei;
       simpl in Hok; subst r; rewrite (bind_ok _ k w0 _ _ Ei)|] end.
    + rewrite (exec_accepted env _ _ _ _ H4). discriminate.
    + exfalso. apply Exists_exists in Hex as (s & Hs & Hne).
      rewrite Forall_forall in H3. apply Hne. apply H3. exact Hs.
  - intros Hne Hrej.
    destruct (BulkInsertPnlSnapshots_atomic env snapshots w) as [(Hok & _)|H]; [|exact H].
    exfalso. apply Hrej. revert Hok. unfold BulkInsertPnlSnapshots.
    destruct snapshots as [|s0 rest0] eqn:Esn; [congruence|].
    rewrite <- Esn in *. clear Esn. unfold with_rollback.
    match goal with |- context [match ?body w with _ => _ end] =>
      destruct (body w) as [[[]|e] w'] eqn:Ebody end; [|discriminate].
    intros _.
    apply bind_inv_ok in Ebody as ([] & w1 & Hbegin & Ebody).
    apply bind_inv_ok in Ebody as ([] & w2 & Hprep & Ebody).
    apply bind_inv_ok in Ebody as ([] & w3 & Hins & Hcommit).
    apply exec_ok_inv in Hbegin as [Hb _]. apply exec_ok_inv in Hprep as [Hp _].
    apply exec_ok_inv in Hcommit as [Hc _].
    destruct (tx_insert_snapshots_outcome env snapshots w2) as [(_ & _ & Hall)|([e He] & _)].
    + unfold bulk_insert_accepted. auto.
    + rewrite Hins in He. discriminate He.
Qed.

Lemma user_snapshots_without userID d :
  user_snapshots userID (without_snapshots userID d) = [].
Proof.
  unfold user_snapshots, without_snapshots, set_pnl_snapshots. simpl.
  induction (pnl_snapshots d) as [|s l IH]; [reflexivity|].
  rewrite filter_cons. destruct (decide (PnlSnapshot.UserID s ≠ userID)) as [Hne|Heq].
  - rewrite filter_cons. rewrite decide_False by exact Hne. exact IH.
  - exact IH.
Qed.

Lemma user_snapshots_without_other userID other d :
  other ≠ userID ->
  user_snapshots other (without_snapshots userID d) = user_snapshots other d.
Proof.
  intros Hne. unfold user_snapshots, without_snapshots, set_pnl_snapshots. simpl.
  induction (pnl_snapshots d) as [|s l IH]; [reflexivity|].
  rewrite !filter_cons. destruct (decide (PnlSnapshot.UserID s ≠ userID)) as [H1|H1].
  - rewrite filter_cons. destruct (decide (PnlSnapshot.UserID s = other)); congruence.
  - destruct (decide (PnlSnapshot.UserID s = other)) as [H2|H2]; [|exact IH].
    exfalso. apply H1. congruence.
Qed.

Lemma user_snapshots_with userID snapshots d :
  Forall (fun s => PnlSnapshot.UserID s = userID) snapshots ->
  user_snapshots userID (with_snapshots snapshots d) = user_snapshots userID d ++ snapshots.
Proof.
  intros Hall. unfold user_snapshots, with_snapshots, set_pnl_snapshots. simpl.
  rewrite filter_app. f_equal.
  induction Hall as [|s l Hs _ IH]; [reflexivity|].
  rewrite filter_cons, decide_True by exact Hs. rewrite IH. reflexivity.
Qed.

Lemma user_snapshots_with_other userID other snapshots d :
  other ≠ userID ->
  Forall (fun s => PnlSnapshot.UserID s = userID) snapshots ->
  user_snapshots other (with_snapshots snapshots d) = user_snapshots other d.
Proof.
  intros Hne Hall. unfold user_snapshots, with_snapshots, set_pnl_snapshots. simpl.
  rewrite filter_app.
  replace (filter (fun s => PnlSnapshot.UserID s = other) snapshots) with (@nil PnlSnapshot.t).
  - apply app_nil_r.
  - induction Hall as [|s l Hs _ IH]; [reflexivity|].
    rewrite filter_cons, decide_False by congruence. exact IH.
Qed.

(** The three ways in which the replacement step of [BackfillUser] ends,
    once the account and a non-empty history have been read. *)
Lemma BackfillUser_replacement env username w user :
  sql_error env (SelectUser username) = None ->
  sql_error env (SelectTradesChronological (User.ID user)) = None ->
  find_user username (db w) = Some user ->
  trades_chronological (User.ID user) (db w) <> [] ->
  let r := BackfillUser env username w in
  let history := trades_chronological (User.ID user) (db w) in
  let new := backfill_snapshots (User.ID user) history in
  let st := Backfill.run history in
  match sql_error env (DeletePnlSnapshots (User.ID user)) with
  | Some _ => (exists e, r.1 = Err e) /\ db r.2 = db w
  | None =>
      (r.1 = Ok (Result.mk username (Z.of_nat (length history)) (Z.of_nat (length new))
                   (Backfill.cumulativeRealizedPnl st)
                   (Backfill.oldestDate st) (Backfill.newestDate st))
       /\ db r.2 = with_snapshots new (without_snapshots (User.ID user) (db w)))
      \/ ((exists e, r.1 = Err e)
          /\ db r.2 = without_snapshots (User.ID user) (db w)
          /\ ~ healthy env)
  end.
Proof.
  intros Hs1 Hs2 Hfind Hne. cbv zeta.
  unfold BackfillUser.
  rewrite (bind_ok _ _ w tt (mkWorld (db w) (events w)
             (logs w ++ [mkLog Info "starting backfill" username]))) by reflexivity.
  erewrite bind_ok; [|apply wrap_ok, GetUser_found; [exact Hs1|exact Hfind]].
  erewrite bind_ok; [|apply wrap_ok, GetUserTradesChronological_accepted; exact Hs2].
  cbn [db events logs].
  remember (trades_chronological (User.ID user) (db w)) as history eqn:Eh.
  destruct history as [|t0 rest]; [congruence|].
  remember (t0 :: rest) as history eqn:Eh2. clear Eh2 Eh Hne t0 rest.
  destruct (sql_error env (DeletePnlSnapshots (User.ID user))) as [e|] eqn:Edel.
  - erewrite bind_err; [|apply wrap_err; unfold DeleteUserPnlSnapshots;
                         apply exec_rejected; exact Edel].
    simpl. eauto.
  - erewrite bind_ok; [|apply wrap_ok; unfold DeleteUserPnlSnapshots;
                        apply exec_accepted; exact Edel].
    cbn [db events logs]. fold (without_snapshots (User.ID user) (db w)).
    match goal with |- context [bind (wrap ?p (BulkInsertPnlSnapshots env ?new)) ?k ?w0] =>
      destruct (BulkInsertPnlSnapshots_atomic env new w0) as [(Hok & Hdb)|([e He] & Hdb)];
      destruct (BulkInsertPnlSnapshots env new w0) as [rb wb] eqn:Eb;
      simpl in Hok || simpl in He; simpl in Hdb; subst rb
    end.
    + left. erewrite bind_ok; [|apply wrap_ok; exact Eb]. simpl. split; [reflexivity|].
      exact Hdb.
    + right. erewrite bind_err; [|apply wrap_err; exact Eb]. simpl.
      split; [eauto|]. split; [exact Hdb|].
      intros Hh.
      match type of Eb with BulkInsertPnlSnapshots env ?new ?w0 = _ =>
        destruct (BulkInsertPnlSnapshots_healthy env new w0 Hh) as [Hok _] end.
      rewrite Eb in Hok. discriminate Hok.
Qed.

Lemma Truncate24h_day timestamp :
  Backfill.Truncate24h timestamp <= timestamp < Backfill.Truncate24h timestamp + 86400
  /\ (86400 | Backfill.Truncate24h timestamp).
Proof.
  unfold Backfill.Truncate24h. split.
  - pose proof (Z.mul_div_le timestamp 86400).
    pose proof (Z.mod_pos_bound timestamp 86400).
    pose proof (Z.div_mod timestamp 86400). lia.
  - exists (timestamp / 86400). lia.
Qed.

(** ** Replacement of the snapshot history *)

(** Once the DELETE is accepted, [BackfillUser] ends as the bulk insert
    that it starts on the emptied history ends. *)
Lemma BackfillUser_replacement_bulk env username w user :
  sql_error env (SelectUser username) = None ->
  sql_error env (SelectTradesChronological (User.ID user)) = None ->
  find_user username (db w) = Some user ->
  trades_chronological (User.ID user) (db w) <> [] ->
  sql_error env (DeletePnlSnapshots (User.ID user)) = None ->
  let new := backfill_snapshots (User.ID user) (trades_chronological (User.ID user) (db w)) in
  exists w0,
    db w0 = without_snapshots (User.ID user) (db w)
    /\ db (BackfillUser env username w).2 = db (BulkInsertPnlSnapshots env new w0).2
    /\ match (BulkInsertPnlSnapshots env new w0).1 with
       | Ok _ => exists res, (BackfillUser env username w).1 = Ok res
       | Err _ => exists e, (BackfillUser env username w).1 = Err e
       end.
Proof.
  intros Hs1 Hs2 Hfind Hne Hdel. cbv zeta. unfold BackfillUser.
  rewrite (bind_ok _ _ w tt (mkWorld (db w) (events w)
             (logs w ++ [mkLog Info "starting backfill" username]))) by reflexivity.
  erewrite bind_ok; [|apply wrap_ok, GetUser_found; [exact Hs1|exact Hfind]].
  erewrite bind_ok; [|apply wrap_ok, GetUserTradesChronological_accepted; exact Hs2].
  cbn [db events logs].
  remember (trades_chronological (User.ID user) (db w)) as history eqn:Eh.
  destruct history as [|t0 rest]; [congruence|].
  remember (t0 :: rest) as history eqn:Eh2. clear Eh2 Eh Hne t0 rest.
  erewrite bind_ok; [|apply wrap_ok; unfold DeleteUserPnlSnapshots;
                      apply exec_accepted; exact Hdel].
  cbn [db events logs]. fold (without_snapshots (User.ID user) (db w)).
  match goal with |- context [bind (wrap ?p (BulkInsertPnlSnapshots env ?new)) ?k ?w0] =>
    exists w0; split; [reflexivity|];
    destruct (BulkInsertPnlSnapshots env new w0) as [[[]|e] wb] eqn:Eb
  end.
  - erewrite bind_ok; [|apply wrap_ok; exact Eb]. simpl. eauto.
  - erewrite bind_err; [|apply wrap_err; exact Eb]. simpl. eauto.
Qed.

(** C6 (as amended). [BackfillUser] replaces the snapshot history of an
    account in two separately committed steps: a DELETE statement, then a
    bulk insert in a transaction of its own. Only the insert is atomic. If
    the DELETE is rejected, the backfill fails and the stored history is
    unchanged. If the DELETE is accepted and the driver accepts the
    begin, the prepare, every insert and the commit of the bulk insert
    (or there is no snapshot to insert), the backfill returns and the
    history is exactly the new set. If the DELETE is accepted and one of
    the statements of the bulk insert is rejected, the backfill fails,
    none of the new snapshots is stored and the account is left with an
    empty history. The snapshots of other accounts are never changed. *)
Theorem backfill_replacement_deletes_then_inserts_atomically
    (env : Env) (username : string) (w : World) (user : User.t) :
  sql_error env (SelectUser username) = None ->
  sql_error env (SelectTradesChronological (User.ID user)) = None ->
  find_user username (db w) = Some user ->
  trades_chronological (User.ID user) (db w) <> [] ->
  let r := BackfillUser env username w in
  let new := backfill_snapshots (User.ID user) (trades_chronological (User.ID user) (db w)) in
  (forall other, other ≠ User.ID user ->
     user_snapshots other (db r.2) = user_snapshots other (db w))
  /\ match sql_error env (DeletePnlSnapshots (User.ID user)) with
     | Some _ =>
         (exists e, r.1 = Err e)
         /\ user_snapshots (User.ID user) (db r.2) = user_snapshots (User.ID user) (db w)
     | None =>
         (new = [] \/ bulk_insert_accepted env new ->
          (exists res, r.1 = Ok res) /\ user_snapshots (User.ID user) (db r.2) = new)
         /\ (new <> [] -> ~ bulk_insert_accepted env new ->
             (exists e, r.1 = Err e) /\ user_snapshots (User.ID user) (db r.2) = [])
     end.
Proof.
  intros Hs1 Hs2 Hfind Hne. cbv zeta.
  pose proof (BackfillUser_replacement env username w user Hs1 Hs2 Hfind Hne) as H.
  pose proof (BackfillUser_replacement_bulk env username w user Hs1 Hs2 Hfind Hne) as Hbulk.
  cbv zeta in H, Hbulk.
  pose proof (backfill_snapshots_user (User.ID user)
                (trades_chronological (User.ID user) (db w))) as Hnew.
  destruct (sql_error env (DeletePnlSnapshots (User.ID user))).
  - destruct H as [Herr Hdb]. rewrite Hdb. auto.
  - split.
    + destruct H as [[Hok Hdb]|(Herr & Hdb & _)]; rewrite Hdb; intros other Hother.
      * rewrite (user_snapshots_with_other (User.ID user)) by assumption.
        apply user_snapshots_without_other. exact Hother.
      * apply user_snapshots_without_other. exact Hother.
    + destruct (Hbulk eq_refl) as (w0 & Hw0 & Hdb & Hres). rewrite Hdb.
      match type of Hres with context [BulkInsertPnlSnapshots env ?new w0] =>
        destruct (BulkInsertPnlSnapshots_outcome env new w0) as (Hnil & Hacc & Hrej) end.
      cbv zeta in Hnil, Hacc, Hrej. split.
      * intros [Hempty|Haccepted].
        -- rewrite (Hnil Hempty) in Hres |- *. cbn [fst snd] in *. split; [exact Hres|].
           rewrite Hw0, Hempty. apply user_snapshots_without.
        -- destruct (Hacc Haccepted) as [Hok Hstored]. rewrite Hok in Hres.
           split; [exact Hres|]. rewrite Hstored, Hw0.
           rewrite user_snapshots_with by assumption.
           rewrite user_snapshots_without. reflexivity.
      * intros Hsome Hrejected. destruct (Hrej Hsome Hrejected) as [[e He] Hstored].
        rewrite He in Hres. split; [exact Hres|]. rewrite Hstored, Hw0.
        apply user_snapshots_without.
Qed.

Lemma backfill_replacement_witness :
  sql_error commit_fails (SelectUser "alice") = None
  /\ sql_error commit_fails (SelectTradesChronological (User.ID alice)) = None
  /\ find_user "alice" (db sample_world) = Some alice
  /\ trades_chronological (User.ID alice) (db sample_world) <> []
  /\ ~ bulk_insert_accepted commit_fails
        (backfill_snapshots (User.ID alice)
           (trades_chronological (User.ID alice) (db sample_world)))
  /\ (exists e, (BackfillUser commit_fails "alice" sample_world).1 = Err e)
  /\ user_snapshots (User.ID alice) (db (BackfillUser commit_fails "alice" sample_world).2)
     = [].
Proof.
  assert (H4 : trades_chronological (User.ID alice) (db sample_world) <> []).
  { intros H. vm_compute in H. discriminate H. }
  assert (H5 : ~ bulk_insert_accepted commit_fails
                 (backfill_snapshots (User.ID alice)
                    (trades_chronological (User.ID alice) (db sample_world)))).
  { intros (_ & _ & _ & H). discriminate H. }
  assert (H6 : backfill_snapshots (User.ID alice)
                 (trades_chronological (User.ID alice) (db sample_world)) <> []).
  { intros H. vm_compute in H. discriminate H. }
  split; [reflexivity|]. split; [reflexivity|]. split; [reflexivity|]. split; [exact H4|].
  split; [exact H5|].
  exact (proj2 (proj2 (backfill_replacement_deletes_then_inserts_atomically
                         commit_fails "alice" sample_world alice eq_refl eq_refl eq_refl H4))
           H6 H5).
Defined.

(** C6 (as stated) fails: when the commit of the bulk insert is rejected,
    [BackfillUser] returns an error and the snapshot that alice had before
    is gone. *)
Lemma failed_commit_loses_snapshot_history :
  user_snapshots 1 (db sample_world) = [stale_snapshot]
  /\ (BackfillUser commit_fails "alice" sample_world).1
     = Err "failed to insert snapshots: failed to commit transaction: disk I/O error"
  /\ user_snapshots 1 (db (BackfillUser commit_fails "alice" sample_world).2) = []
  /\ user_snapshots 1 (db (BackfillUser commit_fails "alice" sample_world).2)
     <> user_snapshots 1 (db sample_world).
Proof.
  split; [reflexivity|]. split; [vm_compute; reflexivity|].
  split; [vm_compute; reflexivity|].
  intros H. vm_compute in H. discriminate H.
Qed.

(** ** One snapshot per day with a sell *)

(** The snapshots of a backfill in terms of [sell_day]. *)
Lemma BackfillUser_sell_days
    (env : Env) (username : string) (w : World) (user : User.t) :
  healthy env ->
  find_user username (db w) = Some user ->
  trades_chronological (User.ID user) (db w) <> [] ->
  let history := trades_chronological (User.ID user) (db w) in
  let r := BackfillUser env username w in
  let stored := user_snapshots (User.ID user) (db r.2) in
  (exists res, r.1 = Ok res
     /\ Result.SnapshotsCreated res = Z.of_nat (length stored)
     /\ Result.TotalRealizedPnl res = Backfill.cumulativeRealizedPnl (Backfill.run history))
  /\ NoDup (map PnlSnapshot.Timestamp stored)
  /\ (forall day, (exists s, s ∈ stored /\ PnlSnapshot.Timestamp s = day)
                  <-> (exists t, t ∈ history /\ sell_day t = Some day))
  /\ (forall s, s ∈ stored ->
        PnlSnapshot.UnrealizedPnl s = Some 0%Q
        /\ PnlSnapshot.TotalPnl s = PnlSnapshot.RealizedPnl s
        /\ exists pre t post,
             history = pre ++ t :: post
             /\ sell_day t = Some (PnlSnapshot.Timestamp s)
             /\ Forall (fun t' => sell_day t' <> Some (PnlSnapshot.Timestamp s)) post
             /\ PnlSnapshot.RealizedPnl s
                = Some (Backfill.cumulativeRealizedPnl (Backfill.run (pre ++ [t])))).
Proof.
  intros Hh Hfind Hne. cbv zeta.
  pose proof (BackfillUser_replacement env username w user (Hh _) (Hh _) Hfind Hne) as H.
  cbv zeta in H. rewrite Hh in H.
  destruct H as [[Hok Hdb]|(_ & _ & Hnot)]; [|contradiction].
  set (history := trades_chronological (User.ID user) (db w)) in *.
  assert (Hstored : user_snapshots (User.ID user) (db (BackfillUser env username w).2)
                    = backfill_snapshots (User.ID user) history).
  { rewrite Hdb. rewrite user_snapshots_with by apply backfill_snapshots_user.
    rewrite user_snapshots_without. reflexivity. }
  rewrite Hstored. split; [|split; [|split]].
  - eexists. split; [exact Hok|]. simpl. auto.
  - apply backfill_snapshots_NoDup.
  - intros day. split.
    + intros (s & Hs & <-).
      apply elem_of_backfill_snapshots in Hs as (d & v & Hlook & ->).
      apply dailyPnl_last_sell in Hlook as (pre & t & post & Hsplit & Ht & _).
      exists t. split; [|exact Ht]. rewrite Hsplit. set_solver.
    + intros (t & Ht & Hday).
      assert (Hsome : is_Some (Backfill.dailyPnl (Backfill.run history) !! day)).
      { clear -Ht Hday. revert Ht. generalize history. intros l Ht.
        induction l as [|x l IH] using rev_ind; [set_solver|].
        rewrite backfill_run_snoc, backfill_step_daily.
        apply elem_of_app in Ht as [Ht|Ht].
        - destruct (sell_day x) as [d|]; [|auto].
          destruct (decide (d = day)) as [->|Hd].
          + rewrite lookup_insert_eq. eauto.
          + rewrite lookup_insert_ne by exact Hd. auto.
        - apply list_elem_of_singleton in Ht. subst x. rewrite Hday.
          rewrite lookup_insert_eq. eauto. }
      destruct Hsome as [v Hv].
      exists (snapshot_of (User.ID user) (day, v)). split; [|reflexivity].
      apply elem_of_backfill_snapshots. eauto.
  - intros s Hs.
    apply elem_of_backfill_snapshots in Hs as (d & v & Hlook & ->).
    split; [reflexivity|]. split; [reflexivity|].
    apply dailyPnl_last_sell in Hlook as (pre & t & post & Hsplit & Ht & Hpost & ->).
    exists pre, t, post. simpl. auto.
Qed.

Lemma sell_day_complete t day :
  sell_day t = Some day <->
  exists timestamp, complete_sell t = Some timestamp /\ day = Backfill.Truncate24h timestamp.
Proof.
  unfold sell_day, complete_sell.
  destruct (Trade.Timestamp t), (Trade.ConditionID t), (Trade.Outcome t),
    (Trade.Side t) as [side|], (Trade.Price t), (Trade.Size t);
    try (split; [discriminate|intros (? & H & _); discriminate H]).
  destruct (String.eqb side "SELL").
  - split; [intros [= <-]; eauto|intros (? & [= <-] & ->); reflexivity].
  - split; [discriminate|intros (? & H & _); discriminate H].
Qed.

(** [Truncate(24 * time.Hour)] gives the midnight (UTC) of the day of a
    timestamp: the multiple of 86400 seconds whose 24 hours hold it. *)
Lemma utc_day_window day timestamp :
  day = Backfill.Truncate24h timestamp <->
  (86400 | day) /\ day <= timestamp < day + 86400.
Proof.
  split.
  - intros ->. destruct (Truncate24h_day timestamp). auto.
  - intros [[k ->] Hw]. unfold Backfill.Truncate24h.
    assert (Hk : timestamp / 86400 = k).
    { symmetry. apply (Z.div_unique timestamp 86400 k (timestamp - k * 86400)); lia. }
    rewrite Hk. lia.
Qed.

(** C5 (as amended). For every non-empty trade history, [BackfillUser]
    stores exactly one snapshot per UTC calendar day on which at least one
    sell with all six required fields occurred, stamped at the midnight
    that starts the day, and none for any other day: the timestamps of the
    snapshots are pairwise distinct, and they are the multiples of 86400
    seconds whose 24 hours hold such a sell. The realized PnL and the total
    PnL of each snapshot are the cumulative realized PnL right after the
    last such sell of its day, and its unrealized PnL is zero. *)
Theorem backfill_stores_one_snapshot_per_sell_day
    (env : Env) (username : string) (w : World) (user : User.t) :
  healthy env ->
  find_user username (db w) = Some user ->
  trades_chronological (User.ID user) (db w) <> [] ->
  let history := trades_chronological (User.ID user) (db w) in
  let r := BackfillUser env username w in
  let stored := user_snapshots (User.ID user) (db r.2) in
  let on_day day t :=
    exists timestamp, complete_sell t = Some timestamp /\ day <= timestamp < day + 86400 in
  (exists res, r.1 = Ok res
     /\ Result.SnapshotsCreated res = Z.of_nat (length stored)
     /\ Result.TotalRealizedPnl res = Backfill.cumulativeRealizedPnl (Backfill.run history))
  /\ NoDup (map PnlSnapshot.Timestamp stored)
  /\ (forall day, (exists s, s ∈ stored /\ PnlSnapshot.Timestamp s = day)
                  <-> ((86400 | day) /\ exists t, t ∈ history /\ on_day day t))
  /\ (forall s, s ∈ stored ->
        PnlSnapshot.UnrealizedPnl s = Some 0%Q
        /\ PnlSnapshot.TotalPnl s = PnlSnapshot.RealizedPnl s
        /\ exists pre t post,
             history = pre ++ t :: post
             /\ on_day (PnlSnapshot.Timestamp s) t
             /\ Forall (fun t' => ~ on_day (PnlSnapshot.Timestamp s) t') post
             /\ PnlSnapshot.RealizedPnl s
                = Some (Backfill.cumulativeRealizedPnl (Backfill.run (pre ++ [t])))).
Proof.
  intros Hh Hfind Hne. cbv zeta.
  destruct (BackfillUser_sell_days env username w user Hh Hfind Hne)
    as (Hres & Hnd & Hdays & Hvalues).
  cbv zeta in Hres, Hnd, Hdays, Hvalues.
  split; [exact Hres|]. split; [exact Hnd|]. split.
  - intros day. rewrite Hdays. split.
    + intros (t & Ht & Hday). apply sell_day_complete in Hday as (ts & Hts & Hd).
      apply utc_day_window in Hd as [Hdiv Hwin]. split; [exact Hdiv|]. eauto.
    + intros (Hdiv & t & Ht & ts & Hts & Hwin). exists t. split; [exact Ht|].
      apply sell_day_complete. exists ts. split; [exact Hts|].
      apply utc_day_window. auto.
  - intros s Hs. destruct (Hvalues s Hs) as (Hu & Htot & pre & t & post & Hsplit & Hday & Hpost & Hv).
    split; [exact Hu|]. split; [exact Htot|].
    apply sell_day_complete in Hday as (ts & Hts & Hd).
    apply utc_day_window in Hd as [Hdiv Hwin].
    exists pre, t, post. split; [exact Hsplit|]. split; [eauto|]. split; [|exact Hv].
    eapply Forall_impl; [exact Hpost|]. intros t' Hnot (ts' & Hts' & Hwin').
    apply Hnot. apply sell_day_complete. exists ts'. split; [exact Hts'|].
    apply utc_day_window. auto.
Qed.

Lemma backfill_stores_one_snapshot_per_sell_day_witness :
  healthy upstream_down
  /\ find_user "alice" (db busy_world) = Some alice
  /\ trades_chronological (User.ID alice) (db busy_world) <> []
  /\ (exists s,
        s ∈ user_snapshots (User.ID alice)
              (db (BackfillUser upstream_down "alice" busy_world).2)
        /\ PnlSnapshot.Timestamp s = 1699920000)
  /\ (exists s,
        s ∈ user_snapshots (User.ID alice)
              (db (BackfillUser upstream_down "alice" busy_world).2)
        /\ PnlSnapshot.Timestamp s = 1700006400)
  /\ length (user_snapshots (User.ID alice)
               (db (BackfillUser upstream_down "alice" busy_world).2)) = 2%nat.
Proof.
  assert (H1 : healthy upstream_down) by (intros s; reflexivity).
  assert (H3 : trades_chronological (User.ID alice) (db busy_world) <> []).
  { intros H. vm_compute in H. discriminate H. }
  assert (Hhist : trades_chronological (User.ID alice) (db busy_world) = busy_trades).
  { vm_compute. reflexivity. }
  split; [exact H1|]. split; [reflexivity|]. split; [exact H3|].
  destruct (backfill_stores_one_snapshot_per_sell_day
              upstream_down "alice" busy_world alice H1 eq_refl H3) as (_ & _ & Hdays & _).
  cbv zeta in Hdays. rewrite Hhist in Hdays.
  split; [|split; [|vm_compute; reflexivity]].
  - apply Hdays. split; [exists 19675; reflexivity|].
    exists (trade_on "0xc1" "Yes" "SELL" 0.60 3 (Some 1700000000)).
    split; [unfold busy_trades; do 2 (apply elem_of_cons; right);
            apply elem_of_cons; left; reflexivity|].
    exists 1700000000. split; [reflexivity|lia].
  - apply Hdays. split; [exists 19676; reflexivity|].
    exists (trade_on "0xc1" "Yes" "SELL" 0.70 1 (Some 1700090000)).
    split; [unfold busy_trades; do 3 (apply elem_of_cons; right);
            apply elem_of_cons; left; reflexivity|].
    exists 1700090000. split; [reflexivity|lia].
Defined.

(** C5 (as stated) fails: a sell whose outcome column is NULL is a stored
    SELL trade of its day, and the backfill, which skips it, stores no
    snapshot for that day. *)
Lemma sell_without_outcome_gets_no_snapshot :
  trades_chronological 1 (db outcomeless_world) = [sell_without_outcome]
  /\ Trade.Side sell_without_outcome = Some "SELL"%string
  /\ Trade.Timestamp sell_without_outcome = Some 1700050000
  /\ trade_not_null sell_without_outcome = true
  /\ (BackfillUser upstream_down "alice" outcomeless_world).1
     = Ok (Result.mk "alice" 1 0 0%Q None None)
  /\ user_snapshots 1 (db (BackfillUser upstream_down "alice" outcomeless_world).2) = [].
Proof. repeat split; vm_compute; reflexivity. Qed.

Lemma backfill_without_trades_witness :
  sql_error upstream_down (SelectUser "alice") = None
  /\ sql_error upstream_down (SelectTradesChronological (User.ID alice)) = None
  /\ find_user "alice" (db tradeless_world) = Some alice
  /\ user_trades (User.ID alice) (db tradeless_world) = []
  /\ (BackfillUser upstream_down "alice" tradeless_world).1 = Ok (zero_result "alice")
  /\ db (BackfillUser upstream_down "alice" tradeless_world).2 = db tradeless_world.
Proof.
  split; [reflexivity|]. split; [reflexivity|]. split; [reflexivity|]. split; [reflexivity|].
  pose proof (backfill_without_trades_keeps_snapshots
                upstream_down "alice" tradeless_world alice eq_refl eq_refl eq_refl eq_refl)
    as (Hres & Hdb & _).
  split; [exact Hres|exact Hdb].
Defined.

Example backfill_of_the_example_history :
  user_snapshots 1 (db (BackfillUser upstream_down "alice" sample_world).2)
  = [snapshot_of 1 (1700006400, (0 + ((0.70 - 0.40) * 10 + (0.70 - 0.60) * 2))%Q)].
Proof. vm_compute. reflexivity. Qed.

(** ** [GetUserStats] *)

Lemma CalculateRealizedPnlFromTrades_accepted env userID w :
  sql_error env (SelectTradesChronological userID) = None ->
  CalculateRealizedPnlFromTrades env userID w
  = (Ok (Live.result (Live.run (trades_chronological userID (db w)))),
     mkWorld (db w) (events w ++ [Sql (SelectTradesChronological userID)]) (logs w)).
Proof.
  intros Hs. unfold CalculateRealizedPnlFromTrades.
  erewrite bind_ok; [|apply wrap_ok, GetUserTradesChronological_accepted; exact Hs].
  reflexivity.
Qed.

Lemma GetUserStats_healthy env username w user :
  healthy env ->
  find_user username (db w) = Some user ->
  exists stats,
    (GetUserStats env username w).1 = Ok stats
    /\ db (GetUserStats env username w).2 = db w
    /\ UserStats.UnrealizedPnl stats = sum_unrealized (user_positions (User.ID user) (db w))
    /\ UserStats.OpenPositions stats
       = Z.of_nat (length (user_positions (User.ID user) (db w)))
    /\ match User.OfficialPnl user with
       | Some official =>
           UserStats.TotalPnl stats = official
           /\ UserStats.RealizedPnl stats
              = (official - sum_unrealized (user_positions (User.ID user) (db w)))%Q
       | None =>
           UserStats.RealizedPnl stats
           = Live.realizedPnl (Live.totals
               (Live.run (trades_chronological (User.ID user) (db w))))
           /\ UserStats.TotalPnl stats
              = (UserStats.RealizedPnl stats + UserStats.UnrealizedPnl stats)%Q
       end.
Proof.
  intros Hh Hfind. unfold GetUserStats.
  erewrite bind_ok; [|apply GetUser_found; [apply Hh|exact Hfind]].
  erewrite bind_ok; [|apply wrap_ok; unfold GetUserAddresses; apply query_accepted, Hh].
  erewrite bind_ok; [|apply query_accepted, Hh].
  cbn [db events logs]. cbv beta iota.
  destruct (User.OfficialPnl user) as [official|].
  - erewrite bind_ok; [|reflexivity]. cbv beta iota.
    erewrite bind_ok; [|apply query_accepted, Hh].
    erewrite bind_ok; [|apply wrap_ok, CalculateRealizedPnlFromTrades_accepted, Hh].
    cbn [db events logs Live.result]. cbv beta iota.
    eexists. split; [reflexivity|]. simpl. auto.
  - erewrite bind_ok;
      [|erewrite bind_ok; [|apply wrap_ok, CalculateRealizedPnlFromTrades_accepted, Hh];
        reflexivity].
    cbv beta iota.
    erewrite bind_ok; [|apply query_accepted, Hh].
    erewrite bind_ok; [|apply wrap_ok, CalculateRealizedPnlFromTrades_accepted, Hh].
    cbn [db events logs Live.result]. cbv beta iota.
    eexists. split; [reflexivity|]. simpl. auto.
Qed.

(** C4. When the stored record of an account carries an official lifetime
    PnL, [GetUserStats] reports it as the total PnL and the total minus the
    summed unrealized PnL of the current positions as the realized PnL,
    whatever the stored trades are; when it carries none, the realized PnL
    is the FIFO-derived one and the total is realized plus unrealized. *)
Theorem official_pnl_takes_precedence
    (env : Env) (username : string) (w : World) (user : User.t) :
  healthy env ->
  find_user username (db w) = Some user ->
  exists stats,
    (GetUserStats env username w).1 = Ok stats
    /\ UserStats.UnrealizedPnl stats = sum_unrealized (user_positions (User.ID user) (db w))
    /\ (forall official, User.OfficialPnl user = Some official ->
          UserStats.TotalPnl stats = official
          /\ UserStats.RealizedPnl stats
             = (UserStats.TotalPnl stats - UserStats.UnrealizedPnl stats)%Q
          /\ forall rows stats',
               (GetUserStats env username
                  (mkWorld (set_trades (fun _ => rows) (db w)) (events w) (logs w))).1
               = Ok stats' ->
               UserStats.TotalPnl stats' = UserStats.TotalPnl stats
               /\ UserStats.RealizedPnl stats' = UserStats.RealizedPnl stats)
    /\ (User.OfficialPnl user = None ->
          UserStats.RealizedPnl stats
          = (Live.result (Live.run (trades_chronological (User.ID user) (db w)))).1.1
          /\ UserStats.TotalPnl stats
             = (UserStats.RealizedPnl stats + UserStats.UnrealizedPnl stats)%Q).
Proof.
  intros Hh Hfind.
  destruct (GetUserStats_healthy env username w user Hh Hfind)
    as (stats & Hok & _ & Hunr & _ & Hpnl).
  exists stats. split; [exact Hok|]. split; [exact Hunr|]. split.
  - intros official Hoff. rewrite Hoff in Hpnl. destruct Hpnl as [Htot Hreal].
    split; [exact Htot|]. split; [rewrite Htot, Hunr; exact Hreal|].
    intros rows stats' Hok'.
    destruct (GetUserStats_healthy env username
                (mkWorld (set_trades (fun _ => rows) (db w)) (events w) (logs w)) user Hh Hfind)
      as (stats2 & Hok2 & _ & _ & _ & Hpnl2).
    rewrite Hok2 in Hok'. injection Hok' as <-.
    rewrite Hoff in Hpnl2. destruct Hpnl2 as [Htot2 Hreal2].
    rewrite Htot2, Hreal2, Htot, Hreal. auto.
  - intros Hnone. rewrite Hnone in Hpnl. exact Hpnl.
Qed.

Lemma official_pnl_takes_precedence_witness :
  healthy upstream_down
  /\ find_user "alice" (db official_world) = Some official_alice
  /\ exists stats,
       (GetUserStats upstream_down "alice" official_world).1 = Ok stats
       /\ UserStats.TotalPnl stats = 12.5%Q
       /\ UserStats.RealizedPnl stats = (12.5 - (0.45 + 0))%Q.
Proof.
  assert (H1 : healthy upstream_down) by (intros s; reflexivity).
  split; [exact H1|]. split; [reflexivity|].
  destruct (official_pnl_takes_precedence upstream_down "alice" official_world
              official_alice H1 eq_refl) as (stats & Hok & Hunr & Hoff & _).
  exists stats. split; [exact Hok|].
  destruct (Hoff 12.5%Q eq_refl) as (Htot & Hreal & _).
  split; [exact Htot|]. rewrite Hreal, Htot, Hunr. reflexivity.
Defined.

(** With a healthy database both ledger passes return a result for every
    stored history, complete rows or not. *)
Lemma ledger_passes_return_on_any_rows env username w user :
  healthy env ->
  find_user username (db w) = Some user ->
  (exists res, (BackfillUser env username w).1 = Ok res)
  /\ (CalculateRealizedPnlFromTrades env (User.ID user) w).1
     = Ok (Live.result (Live.run (trades_chronological (User.ID user) (db w)))).
Proof.
  intros Hh Hfind. split.
  - destruct (trades_chronological (User.ID user) (db w)) as [|t0 rest] eqn:Eh.
    + unfold BackfillUser.
      erewrite bind_ok; [|reflexivity].
      erewrite bind_ok; [|apply wrap_ok, GetUser_found; [apply Hh|exact Hfind]].
      erewrite bind_ok; [|apply wrap_ok, GetUserTradesChronological_accepted, Hh].
      cbn [db events logs]. rewrite Eh. eexists. reflexivity.
    + assert (Hne : trades_chronological (User.ID user) (db w) <> []) by congruence.
      pose proof (BackfillUser_replacement env username w user (Hh _) (Hh _) Hfind Hne) as H.
      cbv zeta in H. rewrite Hh in H.
      destruct H as [[Hok _]|(_ & _ & Hnot)]; [eauto|contradiction].
  - rewrite (CalculateRealizedPnlFromTrades_accepted env (User.ID user) w (Hh _)). reflexivity.
Qed.

(** ** What computations add to the record of calls and to the log *)

Lemma emits_ret {A} P (a : A) : emits P (ret a).
Proof. intros w. exists [], []. simpl. rewrite !app_nil_r. auto. Qed.

Lemma emits_fail {A} P e : emits P (@fail A e).
Proof. intros w. exists [], []. simpl. rewrite !app_nil_r. auto. Qed.

Lemma emits_log P l m subj : emits P (log l m subj).
Proof. intros w. exists [], [mkLog l m subj]. simpl. rewrite app_nil_r. auto. Qed.

Lemma emits_read_db P : emits P read_db.
Proof. intros w. exists [], []. simpl. rewrite !app_nil_r. auto. Qed.

Lemma emits_write_db P d : emits P (write_db d).
Proof. intros w. exists [], []. simpl. rewrite !app_nil_r. auto. Qed.

Lemma emits_emit (P : event -> Prop) e : P e -> emits P (emit e).
Proof. intros H w. exists [e], []. simpl. rewrite app_nil_r. auto. Qed.

Lemma emits_bind {A B} P (m : M A) (k : A -> M B) :
  emits P m -> (forall a, emits P (k a)) -> emits P (bind m k).
Proof.
  intros Hm Hk w. destruct (Hm w) as (es & ls & He & HP & Hl).
  unfold bind. destruct (m w) as [[a|e] w1]; simpl in *.
  - destruct (Hk a w1) as (es' & ls' & He' & HP' & Hl').
    exists (es ++ es'), (ls ++ ls'). rewrite He', Hl', He, Hl, !app_assoc.
    split; [reflexivity|]. split; [|reflexivity]. apply Forall_app. auto.
  - exists es, ls. auto.
Qed.

Lemma emits_wrap {A} P prefix (m : M A) : emits P m -> emits P (wrap prefix m).
Proof.
  intros Hm w. destruct (Hm w) as (es & ls & He & HP & Hl).
  unfold wrap. destruct (m w) as [[a|e] w1]; exists es, ls; auto.
Qed.

Lemma emits_try {A} P (m : M A) : emits P m -> emits P (try m).
Proof.
  intros Hm w. destruct (Hm w) as (es & ls & He & HP & Hl).
  unfold try. destruct (m w) as [r w1]. exists es, ls. auto.
Qed.

Lemma emits_with_rollback {A} P (m : M A) : emits P m -> emits P (with_rollback m).
Proof.
  intros Hm w. destruct (Hm w) as (es & ls & He & HP & Hl).
  unfold with_rollback. destruct (m w) as [[a|e] w1]; exists es, ls; auto.
Qed.

Lemma emits_weaken {A} (P Q : event -> Prop) (m : M A) :
  (forall e, P e -> Q e) -> emits P m -> emits Q m.
Proof.
  intros HPQ Hm w. destruct (Hm w) as (es & ls & He & HP & Hl).
  exists es, ls. split; [exact He|]. split; [|exact Hl].
  eapply Forall_impl; eauto.
Qed.

Lemma emits_exec env (P : event -> Prop) s what f :
  P (Sql s) -> emits P (exec env s what f).
Proof.
  intros H. unfold exec. apply emits_bind; [apply emits_emit; exact H|]. intros _.
  destruct (sql_error env s); [apply emits_fail|].
  apply emits_bind; [apply emits_read_db|]. intros d. apply emits_write_db.
Qed.

Lemma emits_query {A} env (P : event -> Prop) s what (f : DB -> A) :
  P (Sql s) -> emits P (query env s what f).
Proof.
  intros H. unfold query. apply emits_bind; [apply emits_emit; exact H|]. intros _.
  destruct (sql_error env s); [apply emits_fail|].
  apply emits_bind; [apply emits_read_db|]. intros d. apply emits_ret.
Qed.

Lemma emits_http {A} (P : event -> Prop) r (answer : result A) :
  P (Http r) -> emits P (http r answer).
Proof.
  intros H. unfold http. apply emits_bind; [apply emits_emit; exact H|]. intros _.
  destruct answer; [apply emits_ret|apply emits_fail].
Qed.

Lemma emits_or_log P l m subj action : emits P action -> emits P (or_log l m subj action).
Proof.
  intros H. unfold or_log. apply emits_bind; [apply emits_try; exact H|].
  intros [|]; [apply emits_ret|apply emits_log].
Qed.

Create HintDb emits discriminated.
#[global] Hint Resolve emits_ret emits_fail emits_log emits_read_db emits_write_db
  emits_wrap emits_try emits_with_rollback emits_or_log : emits.

(** Decompose a computation along its binds and case distinctions. *)
Ltac emits_step :=
  match goal with
  | |- emits _ (bind _ _) => apply emits_bind; [|intros ?]
  | |- emits _ (wrap _ _) => apply emits_wrap
  | |- emits _ (try _) => apply emits_try
  | |- emits _ (or_log _ _ _ _) => apply emits_or_log
  | |- emits _ (with_rollback _) => apply emits_with_rollback
  | |- emits _ (ret _) => apply emits_ret
  | |- emits _ (fail _) => apply emits_fail
  | |- emits _ (log _ _ _) => apply emits_log
  | |- emits _ (exec _ _ _ _) => apply emits_exec
  | |- emits _ (query _ _ _ _) => apply emits_query
  | |- emits _ (http _ _) => apply emits_http
  | |- emits _ (match ?x with _ => _ end) => destruct x
  | |- emits _ (if ?x then _ else _) => destruct x
  | |- emits _ (let '(_, _) := ?x in _) => destruct x
  end.

Ltac emits_auto := repeat emits_step; try exact I; eauto with emits.

Lemma emits_GetUser env username : emits any_event (GetUser env username).
Proof. unfold GetUser. emits_auto. Qed.

Lemma emits_GetUserTradesChronological env userID :
  emits any_event (GetUserTradesChronological env userID).
Proof. unfold GetUserTradesChronological. emits_auto. Qed.

Lemma emits_CalculateRealizedPnlFromTrades env userID :
  emits any_event (CalculateRealizedPnlFromTrades env userID).
Proof.
  unfold CalculateRealizedPnlFromTrades.
  apply emits_bind; [apply emits_wrap, emits_GetUserTradesChronological|].
  intros. apply emits_ret.
Qed.

Lemma emits_GetUserStats env username : emits any_event (GetUserStats env username).
Proof.
  unfold GetUserStats, GetUserAddresses.
  apply emits_bind; [apply emits_GetUser|]. intros user.
  apply emits_bind; [emits_auto|]. intros addrs.
  apply emits_bind; [emits_auto|]. intros [n u].
  apply emits_bind.
  { destruct (User.OfficialPnl user); [apply emits_ret|].
    apply emits_bind; [apply emits_wrap, emits_CalculateRealizedPnlFromTrades|].
    intros [[? ?] ?]. apply emits_ret. }
  intros [? ?].
  apply emits_bind; [emits_auto|]. intros ?.
  apply emits_bind; [apply emits_wrap, emits_CalculateRealizedPnlFromTrades|].
  intros [[? ?] ?]. apply emits_ret.
Qed.

Lemma emits_takePnlSnapshot env userID : emits any_event (takePnlSnapshot env userID).
Proof.
  unfold takePnlSnapshot, GetUsers, InsertPnlSnapshot.
  apply emits_bind; [emits_auto|]. intros us.
  match goal with |- emits _ (if ?c then _ else _) => destruct c end; [apply emits_fail|].
  apply emits_bind; [apply emits_wrap, emits_GetUserStats|]. intros stats.
  emits_auto.
Qed.

Lemma emits_store_positions env userID address positions :
  emits any_event (store_positions env userID address positions).
Proof.
  induction positions as [|pos rest IH]; simpl; [apply emits_ret|].
  apply emits_bind; [|intros; exact IH]. unfold UpsertPosition. emits_auto.
Qed.

Lemma emits_InsertTrade env trade : emits any_event (InsertTrade env trade).
Proof. unfold InsertTrade. emits_auto. apply emits_emit. exact I. Qed.

Lemma emits_store_trades env userID address trades :
  emits any_event (store_trades env userID address trades).
Proof.
  induction trades as [|t rest IH]; simpl; [apply emits_ret|].
  apply emits_bind; [|intros; exact IH].
  apply emits_or_log, emits_InsertTrade.
Qed.

Lemma emits_syncAddress env userID address : emits any_event (syncAddress env userID address).
Proof.
  unfold syncAddress.
  apply emits_bind; [apply emits_log|]. intros _.
  apply emits_bind; [emits_auto|]. intros positions.
  apply emits_bind; [apply emits_store_positions|]. intros _.
  apply emits_bind; [emits_auto|]. intros trades.
  apply emits_bind; [apply emits_store_trades|]. intros _.
  emits_auto.
Qed.

Lemma emits_sync_addresses env userID username addresses : forall totals,
  emits any_event (sync_addresses env userID username addresses totals).
Proof.
  induction addresses as [|a rest IH]; intros totals; simpl; [apply emits_ret|].
  apply emits_bind; [apply emits_try, emits_syncAddress|].
  intros [[p t]|e].
  - apply IH.
  - apply emits_bind; [apply emits_log|]. intros _. apply IH.
Qed.

Lemma emits_sync_profile env user username addresses :
  emits before_fetch (sync_profile env user username addresses).
Proof.
  unfold sync_profile, UpdateUserProfileImage.
  destruct addresses as [|first rest]; [apply emits_ret|].
  apply emits_bind.
  { apply emits_try, emits_http. intros a; discriminate. }
  intros [[profile|]|e]; emits_auto; intros a; discriminate.
Qed.

Lemma emits_sync_official_pnl env user username polymarketUsername addresses :
  emits before_fetch (sync_official_pnl env user username polymarketUsername addresses).
Proof.
  unfold sync_official_pnl, UpdateUserOfficialPnl.
  destruct addresses as [|first rest]; [apply emits_ret|].
  destruct (String.eqb polymarketUsername ""); [apply emits_ret|].
  apply emits_bind.
  { apply emits_try, emits_http. intros a; discriminate. }
  intros [[stats|]|e]; emits_auto; intros a; discriminate.
Qed.

Lemma before_fetch_any {A} (m : M A) : emits before_fetch m -> emits any_event m.
Proof. apply emits_weaken. intros e _. exact I. Qed.

(** The part of [syncUser] that follows the lookup of the account. *)
Lemma emits_syncUser env username addresses : emits any_event (syncUser env username addresses).
Proof.
  unfold syncUser.
  apply emits_bind; [apply emits_log|]. intros _.
  apply emits_bind; [apply emits_wrap, emits_GetUser|]. intros user.
  apply emits_bind; [apply before_fetch_any, emits_sync_profile|]. intros name.
  apply emits_bind; [apply before_fetch_any, emits_sync_official_pnl|]. intros _.
  apply emits_bind; [unfold DeleteUserPositions; emits_auto|]. intros _.
  apply emits_bind; [apply emits_sync_addresses|]. intros _.
  apply emits_bind; [apply emits_or_log, emits_takePnlSnapshot|]. intros _.
  apply emits_bind; [unfold UpdateUserLastSynced; emits_auto|]. intros _.
  apply emits_log.
Qed.

Lemma emits_sync_users env users : emits any_event (sync_users env users).
Proof.
  induction users as [|[username addresses] rest IH]; simpl; [apply emits_ret|].
  apply emits_bind; [apply emits_or_log, emits_syncUser|]. intros _. exact IH.
Qed.

Lemma emits_keeps_log {A} P (m : M A) w line :
  emits P m -> line ∈ logs w -> line ∈ logs (m w).2.
Proof.
  intros Hm Hin. destruct (Hm w) as (es & ls & _ & _ & Hl). rewrite Hl. set_solver.
Qed.

Lemma emits_keeps_event {A} P (m : M A) w e :
  emits P m -> e ∈ events w -> e ∈ events (m w).2.
Proof.
  intros Hm Hin. destruct (Hm w) as (es & ls & He & _ & _). rewrite He. set_solver.
Qed.

(** ** The sync cycle *)

Lemma GetUser_record env username w :
  events (GetUser env username w).2 = events w ++ [Sql (SelectUser username)]
  /\ logs (GetUser env username w).2 = logs w
  /\ db (GetUser env username w).2 = db w.
Proof.
  unfold GetUser, query, bind, emit, read_db, ret, fail. simpl.
  destruct (sql_error env (SelectUser username)); simpl; [auto|].
  destruct (find_user username (db w)); simpl; auto.
Qed.

Lemma GetUser_inv env username w user w' :
  GetUser env username w = (Ok user, w') -> find_user username (db w) = Some user.
Proof.
  unfold GetUser, query, bind, emit, read_db, ret, fail. simpl.
  destruct (sql_error env (SelectUser username)); simpl; [discriminate|].
  destruct (find_user username (db w)); simpl; [|discriminate].
  intros H. injection H as -> _. reflexivity.
Qed.

Lemma exec_record env s what f w :
  events (exec env s what f w).2 = events w ++ [Sql s].
Proof.
  unfold exec, bind, emit, read_db, write_db, fail. simpl.
  destruct (sql_error env s); reflexivity.
Qed.

(** Whatever its outcome, the sync of an account is announced in the log
    and starts with the lookup of the account. *)
Lemma syncUser_starts env username addresses w :
  mkLog Info "syncing user" username ∈ logs (syncUser env username addresses w).2
  /\ Sql (SelectUser username) ∈ events (syncUser env username addresses w).2.
Proof.
  unfold syncUser.
  rewrite (bind_ok _ _ w tt (mkWorld (db w) (events w)
             (logs w ++ [mkLog Info "syncing user" username]))) by reflexivity.
  set (w1 := mkWorld _ _ _).
  destruct (GetUser_record env username w1) as (He & Hl & _).
  destruct (GetUser env username w1) as [[user|e] w2] eqn:Eg; simpl in He, Hl.
  - erewrite bind_ok; [|apply wrap_ok; exact Eg].
    split.
    + eapply emits_keeps_log.
      * apply emits_bind; [apply before_fetch_any, emits_sync_profile|]. intros name.
        apply emits_bind; [apply before_fetch_any, emits_sync_official_pnl|]. intros _.
        apply emits_bind; [unfold DeleteUserPositions; emits_auto|]. intros _.
        apply emits_bind; [apply emits_sync_addresses|]. intros _.
        apply emits_bind; [apply emits_or_log, emits_takePnlSnapshot|]. intros _.
        apply emits_bind; [unfold UpdateUserLastSynced; emits_auto|]. intros _.
        apply emits_log.
      * rewrite Hl. subst w1. simpl. set_solver.
    + eapply emits_keeps_event.
      * apply emits_bind; [apply before_fetch_any, emits_sync_profile|]. intros name.
        apply emits_bind; [apply before_fetch_any, emits_sync_official_pnl|]. intros _.
        apply emits_bind; [unfold DeleteUserPositions; emits_auto|]. intros _.
        apply emits_bind; [apply emits_sync_addresses|]. intros _.
        apply emits_bind; [apply emits_or_log, emits_takePnlSnapshot|]. intros _.
        apply emits_bind; [unfold UpdateUserLastSynced; emits_auto|]. intros _.
        apply emits_log.
      * rewrite He. set_solver.
  - erewrite bind_err; [|apply wrap_err; exact Eg]. simpl.
    rewrite He, Hl. subst w1. simpl. set_solver.
Qed.

(** A sync that returns without error has logged its completion. *)
Lemma syncUser_completes env username addresses w w' :
  syncUser env username addresses w = (Ok tt, w') ->
  mkLog Info "user sync completed" username ∈ logs w'.
Proof.
  unfold syncUser. intros H.
  repeat (apply bind_inv_ok in H as (? & ? & _ & H)).
  unfold log in H. injection H as <-. simpl. set_solver.
Qed.

Lemma or_log_world l m subj action w :
  or_log l m subj action w
  = (Ok tt, match (action w).1 with
            | Ok _ => (action w).2
            | Err _ => mkWorld (db (action w).2) (events (action w).2)
                         (logs (action w).2 ++ [mkLog l m subj])
            end).
Proof.
  unfold or_log, bind, try, ret, log. destruct (action w) as [[[]|e] w1]; reflexivity.
Qed.

Lemma sync_users_cons env username addresses rest w :
  sync_users env ((username, addresses) :: rest) w
  = sync_users env rest (after_account username (syncUser env username addresses w)).
Proof.
  simpl. erewrite bind_ok; [|apply or_log_world]. reflexivity.
Qed.

Lemma sync_users_ok env users : forall w, (sync_users env users w).1 = Ok tt.
Proof.
  induction users as [|[username addresses] rest IH]; intros w; [reflexivity|].
  rewrite sync_users_cons. apply IH.
Qed.

Lemma sync_users_app env before after : forall w,
  sync_users env (before ++ after) w = sync_users env after (sync_users env before w).2.
Proof.
  induction before as [|[username addresses] rest IH]; intros w; [reflexivity|].
  rewrite <- app_comm_cons, !sync_users_cons. apply IH.
Qed.

Lemma after_account_record env username addresses w :
  mkLog Info "syncing user" username
    ∈ logs (after_account username (syncUser env username addresses w))
  /\ Sql (SelectUser username)
       ∈ events (after_account username (syncUser env username addresses w))
  /\ (mkLog Info "user sync completed" username
        ∈ logs (after_account username (syncUser env username addresses w))
      \/ mkLog Error "failed to sync user" username
           ∈ logs (after_account username (syncUser env username addresses w))).
Proof.
  destruct (syncUser_starts env username addresses w) as [Hl He].
  pose proof (syncUser_completes env username addresses w) as Hc.
  unfold after_account.
  destruct (syncUser env username addresses w) as [[[]|e] w1]; simpl in *.
  - split; [exact Hl|]. split; [exact He|]. left. apply Hc. reflexivity.
  - split; [set_solver|]. split; [exact He|]. right. set_solver.
Qed.

Lemma sync_users_record env users : forall w username addresses,
  (username, addresses) ∈ users ->
  mkLog Info "syncing user" username ∈ logs (sync_users env users w).2
  /\ Sql (SelectUser username) ∈ events (sync_users env users w).2
  /\ (mkLog Info "user sync completed" username ∈ logs (sync_users env users w).2
      \/ mkLog Error "failed to sync user" username ∈ logs (sync_users env users w).2).
Proof.
  induction users as [|[u a] rest IH]; intros w username addresses Hin; [set_solver|].
  rewrite sync_users_cons.
  apply elem_of_cons in Hin as [Heq|Hin]; [|eapply IH; exact Hin].
  injection Heq as -> ->.
  destruct (after_account_record env u a w) as (Hl & He & Hc).
  pose proof (emits_sync_users env rest) as Hrest.
  split; [eapply emits_keeps_log; eauto|].
  split; [eapply emits_keeps_event; eauto|].
  destruct Hc as [Hc|Hc]; [left|right]; eapply emits_keeps_log; eauto.
Qed.

(** C8. Whatever the accounts of a cycle and whichever of them fail,
    [syncAll] returns without error and runs the sync of every configured
    account: the sync of each account is started in the world left by the
    accounts before it (failed or not) and the cycle goes on with the
    accounts after it; every account's sync is announced, begins with the
    lookup of the account, and ends either completed or with its failure
    logged. *)
Theorem sync_cycle_isolates_account_failures
    (env : Env) (users : list (string * list string)) (w : World) :
  (syncAll env users w).1 = Ok tt
  /\ (forall before username addresses after,
        users = before ++ (username, addresses) :: after ->
        sync_users env users w
        = sync_users env after
            (after_account username
               (syncUser env username addresses (sync_users env before w).2)))
  /\ (forall username addresses,
        (username, addresses) ∈ users ->
        mkLog Info "syncing user" username ∈ logs (syncAll env users w).2
        /\ Sql (SelectUser username) ∈ events (syncAll env users w).2
        /\ (mkLog Info "user sync completed" username ∈ logs (syncAll env users w).2
            \/ mkLog Error "failed to sync user" username ∈ logs (syncAll env users w).2)).
Proof.
  assert (Hall : forall w0,
    syncAll env users w0
    = (Ok tt, mkWorld (db (sync_users env users (log Info "syncing all users" "" w0).2).2)
                (events (sync_users env users (log Info "syncing all users" "" w0).2).2)
                (logs (sync_users env users (log Info "syncing all users" "" w0).2).2
                 ++ [mkLog Info "sync completed for all users" ""]))).
  { intros w0. unfold syncAll.
    erewrite bind_ok; [|reflexivity].
    pose proof (sync_users_ok env users (log Info "syncing all users" "" w0).2) as Hok.
    cbn [snd] in Hok |- *.
    destruct (sync_users env users _) as [r w1] eqn:E. simpl in Hok. subst r.
    erewrite bind_ok; [|cbn [snd]; exact E]. reflexivity. }
  split; [rewrite Hall; reflexivity|]. split.
  - intros before username addresses after ->.
    rewrite sync_users_app, sync_users_cons. reflexivity.
  - intros username addresses Hin. rewrite Hall. cbn [fst snd db events logs].
    destruct (sync_users_record env users (log Info "syncing all users" "" w).2
                username addresses Hin) as (Hl & He & Hc).
    split; [apply elem_of_app; left; exact Hl|]. split; [exact He|].
    destruct Hc as [Hc|Hc]; [left|right]; apply elem_of_app; left; exact Hc.
Qed.

(** ** The sync of one account when the upstream fetch fails *)

Lemma same_identities_refl rows : same_identities rows rows.
Proof. induction rows; constructor; auto. Qed.

Lemma same_identities_trans a b c :
  same_identities a b -> same_identities b c -> same_identities a c.
Proof.
  intros Hab. revert c. induction Hab as [|x y l l' [H1 H2] _ IH]; intros c Hbc.
  - inversion Hbc. constructor.
  - inversion Hbc as [|? z ? l'' [H3 H4] Hrest]; subst.
    constructor; [split; congruence|]. apply IH. exact Hrest.
Qed.

Lemma update_user_identities userID f rows :
  (forall u, User.ID (f u) = User.ID u /\ User.Username (f u) = User.Username u) ->
  same_identities rows (update_user userID f rows).
Proof.
  intros Hf. induction rows as [|u rest IH]; simpl; constructor; [|exact IH].
  destruct (User.ID u =? userID); [|auto]. destruct (Hf u). split; congruence.
Qed.

Lemma same_but_profiles_refl d : same_but_profiles d d.
Proof. unfold same_but_profiles. auto using same_identities_refl. Qed.

Lemma same_but_profiles_trans a b c :
  same_but_profiles a b -> same_but_profiles b c -> same_but_profiles a c.
Proof.
  intros (H1 & H2 & H3 & H4 & H5) (G1 & G2 & G3 & G4 & G5).
  unfold same_but_profiles. split; [eapply same_identities_trans; eauto|].
  repeat split; congruence.
Qed.

Lemma same_but_profiles_update userID f d :
  (forall u, User.ID (f u) = User.ID u /\ User.Username (f u) = User.Username u) ->
  same_but_profiles d (set_users (update_user userID f) d).
Proof.
  intros Hf. unfold same_but_profiles. simpl.
  split; [apply update_user_identities; exact Hf|]. auto.
Qed.

Lemma find_user_identities username rows rows' user :
  same_identities rows rows' ->
  List.find (fun u => String.eqb (User.Username u) username) rows = Some user ->
  exists user',
    List.find (fun u => String.eqb (User.Username u) username) rows' = Some user'
    /\ User.ID user' = User.ID user /\ User.Username user' = User.Username user.
Proof.
  intros Hsame. induction Hsame as [|u u' l l' [Hid Hname] _ IH]; simpl; [discriminate|].
  rewrite <- Hname. destruct (String.eqb (User.Username u) username).
  - intros [= <-]. exists u'. auto.
  - exact IH.
Qed.

Lemma find_user_same_but_profiles username d d' user :
  same_but_profiles d d' ->
  find_user username d = Some user ->
  exists user', find_user username d' = Some user'
                /\ User.ID user' = User.ID user /\ User.Username user' = User.Username user.
Proof. intros [H _]. apply find_user_identities. exact H. Qed.

Lemma same_identities_ids rows rows' :
  same_identities rows rows' -> map User.ID rows' = map User.ID rows.
Proof.
  induction 1 as [|u u' l l' [Hid _] _ IH]; simpl; [reflexivity|]. congruence.
Qed.

Lemma find_user_elem username d user :
  find_user username d = Some user -> user ∈ users d /\ User.Username user = username.
Proof.
  unfold find_user. intros H. apply List.find_some in H as [Hin Heq].
  split; [apply list_elem_of_In; exact Hin|]. apply String.eqb_eq. exact Heq.
Qed.

Lemma NoDup_ids_inj (rows : list User.t) u v :
  NoDup (map User.ID rows) -> u ∈ rows -> v ∈ rows -> User.ID u = User.ID v -> u = v.
Proof.
  induction rows as [|x l IH]; intros Hnd Hu Hv Hid; [set_solver|].
  simpl in Hnd. apply NoDup_cons in Hnd as [Hx Hnd].
  apply elem_of_cons in Hu as [->|Hu]; apply elem_of_cons in Hv as [->|Hv].
  - reflexivity.
  - exfalso. apply Hx. rewrite Hid. apply list_elem_of_fmap. eauto.
  - exfalso. apply Hx. rewrite <- Hid. apply list_elem_of_fmap. eauto.
  - apply IH; assumption.
Qed.

Lemma find_by_id rows sorted user :
  NoDup (map User.ID rows) -> user ∈ rows -> sorted ≡ₚ rows ->
  List.find (fun u => User.ID u =? User.ID user) sorted = Some user.
Proof.
  intros Hnd Hin Hperm.
  destruct (List.find (fun u => User.ID u =? User.ID user) sorted) as [u|] eqn:E.
  - apply List.find_some in E as [Hu Hid]. apply Z.eqb_eq in Hid.
    f_equal. apply (NoDup_ids_inj rows); auto.
    rewrite <- Hperm. apply list_elem_of_In. exact Hu.
  - exfalso. assert (Hf : (User.ID user =? User.ID user) = false).
    { apply (List.find_none _ _ E user). apply list_elem_of_In. rewrite Hperm. exact Hin. }
    rewrite Z.eqb_refl in Hf. discriminate Hf.
Qed.

(** The profile step never fails and changes profile columns only. *)
Lemma sync_profile_phase env user username addresses w :
  exists name,
    (sync_profile env user username addresses w).1 = Ok name
    /\ same_but_profiles (db w) (db (sync_profile env user username addresses w).2).
Proof.
  unfold sync_profile. destruct addresses as [|first rest].
  { eexists. split; [reflexivity|]. apply same_but_profiles_refl. }
  unfold bind, try, http, emit, ret, fail, log, or_log, UpdateUserProfileImage, exec,
    read_db, write_db; simpl.
  destruct (GetUserProfile env first) as [[profile|]|e]; simpl;
    try (eexists; split; [reflexivity|]; apply same_but_profiles_refl).
  destruct (String.eqb (ProfileResponse.ProfileImage profile) ""); simpl;
    try (eexists; split; [reflexivity|]; apply same_but_profiles_refl).
  destruct (sql_error env _); simpl;
    try (eexists; split; [reflexivity|]; apply same_but_profiles_refl).
  eexists; split; [reflexivity|]. apply same_but_profiles_update. intros u; auto.
Qed.

Lemma sync_official_pnl_phase env user username polymarketUsername addresses w :
  (sync_official_pnl env user username polymarketUsername addresses w).1 = Ok tt
  /\ same_but_profiles (db w)
       (db (sync_official_pnl env user username polymarketUsername addresses w).2).
Proof.
  unfold sync_official_pnl. destruct addresses as [|first rest].
  { split; [reflexivity|]. apply same_but_profiles_refl. }
  destruct (String.eqb polymarketUsername "").
  { split; [reflexivity|]. apply same_but_profiles_refl. }
  unfold bind, try, http, emit, ret, fail, log, UpdateUserOfficialPnl, exec,
    read_db, write_db; simpl.
  destruct (GetPortfolioStats env polymarketUsername first) as [[stats|]|e]; simpl;
    try (split; [reflexivity|]; apply same_but_profiles_refl).
  destruct (sql_error env _); simpl;
    try (split; [reflexivity|]; apply same_but_profiles_refl).
  split; [reflexivity|]. apply same_but_profiles_update. intros u; auto.
Qed.

Lemma syncAddress_fetch_fails env userID address w e :
  GetPositions env address = Err e ->
  syncAddress env userID address w
  = (Err ("failed to fetch positions: " ++ e)%string,
     mkWorld (db w) (events w ++ [Http (ReqPositions address)])
       (logs w ++ [mkLog Debug "syncing address" address])).
Proof.
  intros He. unfold syncAddress, bind, wrap, http, log, emit, fail. simpl.
  rewrite He. reflexivity.
Qed.

(** When every fetch of positions fails, the loop over the addresses
    attempts each fetch in turn and changes nothing in the database. *)
Lemma sync_addresses_all_failing env userID username addresses : forall totals w,
  (forall a, a ∈ addresses -> exists e, GetPositions env a = Err e) ->
  (sync_addresses env userID username addresses totals w).1 = Ok totals
  /\ db (sync_addresses env userID username addresses totals w).2 = db w
  /\ events (sync_addresses env userID username addresses totals w).2
     = events w ++ map (fun a => Http (ReqPositions a)) addresses.
Proof.
  induction addresses as [|a rest IH]; intros totals w Hfail; simpl.
  - rewrite app_nil_r. auto.
  - destruct (Hfail a) as [e He]; [apply elem_of_cons; auto|].
    erewrite bind_ok;
      [|unfold try; rewrite (syncAddress_fetch_fails env userID a w e He); reflexivity].
    cbv beta iota. erewrite bind_ok; [|reflexivity].
    match goal with |- context [sync_addresses env userID username rest totals ?w1] =>
      destruct (IH totals w1) as (H1 & H2 & H3);
        [intros a' Ha'; apply Hfail; apply elem_of_cons; auto|] end.
    rewrite H1, H2, H3. simpl. rewrite <- app_assoc. auto.
Qed.

(** With a healthy database the snapshot of a cycle is stored, and its
    unrealized PnL is the sum over the positions stored at that moment. *)
Lemma takePnlSnapshot_healthy env username w user :
  healthy env ->
  find_user username (db w) = Some user ->
  username <> ""%string ->
  NoDup (map User.ID (users (db w))) ->
  exists total realized,
    (takePnlSnapshot env (User.ID user) w).1 = Ok tt
    /\ db (takePnlSnapshot env (User.ID user) w).2
       = with_snapshots
           [PnlSnapshot.mk (User.ID user) (Now env) (Some total) (Some realized)
              (Some (sum_unrealized (user_positions (User.ID user) (db w))))]
           (db w).
Proof.
  intros Hh Hfind Hname Hnd.
  destruct (find_user_elem _ _ _ Hfind) as [Hin Huser].
  unfold takePnlSnapshot.
  erewrite bind_ok; [|apply wrap_ok; unfold GetUsers; apply query_accepted, Hh].
  rewrite (find_by_id (users (db w))) by (auto; apply merge_sort_Permutation).
  rewrite Huser. destruct (String.eqb username "") eqn:Eempty.
  { apply String.eqb_eq in Eempty. contradiction. }
  set (w1 := mkWorld _ _ _).
  destruct (GetUserStats_healthy env username w1 user Hh Hfind)
    as (stats & Hok & Hdb & Hunr & _).
  destruct (GetUserStats env username w1) as [r w2] eqn:Estats.
  simpl in Hok, Hdb. subst r.
  erewrite bind_ok; [|apply wrap_ok; exact Estats].
  unfold InsertPnlSnapshot.
  erewrite wrap_ok; [|apply exec_accepted, Hh].
  exists (UserStats.TotalPnl stats), (UserStats.RealizedPnl stats).
  simpl. split; [reflexivity|]. rewrite Hdb, Hunr. reflexivity.
Qed.

Lemma user_positions_deleted userID rows d :
  positions d = filter (fun p => Position.UserID p ≠ userID) rows ->
  user_positions userID d = [].
Proof.
  unfold user_positions. intros ->.
  induction rows as [|p l IH]; [reflexivity|].
  rewrite filter_cons. destruct (decide (Position.UserID p ≠ userID)) as [Hne|Heq].
  - rewrite filter_cons. rewrite decide_False by exact Hne. exact IH.
  - exact IH.
Qed.

Lemma user_positions_kept userID other rows d d0 :
  other ≠ userID ->
  positions d = filter (fun p => Position.UserID p ≠ userID) rows ->
  positions d0 = rows ->
  user_positions other d = user_positions other d0.
Proof.
  unfold user_positions. intros Hne -> <-.
  induction (positions d0) as [|p l IH]; [reflexivity|].
  rewrite !filter_cons. destruct (decide (Position.UserID p ≠ userID)) as [H1|H1].
  - rewrite filter_cons. destruct (decide (Position.UserID p = other)); congruence.
  - destruct (decide (Position.UserID p = other)) as [H2|H2]; [|exact IH].
    exfalso. apply H1. congruence.
Qed.

(** In every run of [syncUser], whatever fails, no position is fetched
    from upstream before the statement that deletes the stored positions
    of the account has been issued. *)
Lemma syncUser_deletes_before_fetching env username addresses w :
  exists before rest,
    events (syncUser env username addresses w).2 = events w ++ before ++ rest
    /\ Forall before_fetch before
    /\ (rest = []
        \/ exists user rest',
             find_user username (db w) = Some user
             /\ rest = Sql (DeletePositions (User.ID user)) :: rest').
Proof.
  unfold syncUser.
  erewrite bind_ok; [|reflexivity].
  set (w1 := mkWorld _ _ _).
  destruct (GetUser_record env username w1) as (He & _ & _).
  destruct (GetUser env username w1) as [[user|e] w2] eqn:Eg; simpl in He.
  - pose proof (GetUser_inv _ _ _ _ _ Eg) as Hfind. subst w1. cbn [db events] in Hfind, He.
    erewrite bind_ok; [|apply wrap_ok; exact Eg].
    destruct (sync_profile_phase env user username addresses w2) as (name & Hp1 & _).
    destruct (emits_sync_profile env user username addresses w2)
      as (es1 & ls1 & He1 & HP1 & _).
    destruct (sync_profile env user username addresses w2) as [rp w3] eqn:Ep.
    simpl in Hp1, He1. subst rp.
    erewrite bind_ok; [|exact Ep].
    destruct (sync_official_pnl_phase env user username name addresses w3) as (Ho1 & _).
    destruct (emits_sync_official_pnl env user username name addresses w3)
      as (es2 & ls2 & He2 & HP2 & _).
    destruct (sync_official_pnl env user username name addresses w3) as [ro w4] eqn:Eo.
    simpl in Ho1, He2. subst ro.
    erewrite bind_ok; [|exact Eo].
    exists (Sql (SelectUser username) :: es1 ++ es2).
    pose proof (exec_record env (DeletePositions (User.ID user))
                  "failed to delete positions"
                  (set_positions (filter (fun p => Position.UserID p ≠ User.ID user))) w4)
      as Hdel.
    fold (DeleteUserPositions env (User.ID user)) in Hdel.
    destruct (DeleteUserPositions env (User.ID user) w4) as [[[]|e] w5] eqn:Ed; simpl in Hdel.
    + erewrite bind_ok; [|apply wrap_ok; exact Ed].
      match goal with |- context [bind ?m ?k w5] =>
        assert (Hrest : emits any_event (bind m k)) end.
      { apply emits_bind; [apply emits_sync_addresses|]. intros _.
        apply emits_bind; [apply emits_or_log, emits_takePnlSnapshot|]. intros _.
        apply emits_bind; [unfold UpdateUserLastSynced; emits_auto|]. intros _.
        apply emits_log. }
      destruct (Hrest w5) as (es3 & ls3 & He3 & _ & _).
      exists (Sql (DeletePositions (User.ID user)) :: es3). split; [|split].
      * rewrite He3, Hdel, He2, He1, He. rewrite <- !app_assoc. simpl.
        rewrite <- ?app_assoc. reflexivity.
      * constructor; [intros a; discriminate|]. apply Forall_app. auto.
      * right. exists user, es3. auto.
    + erewrite bind_err; [|apply wrap_err; exact Ed]. simpl.
      exists [Sql (DeletePositions (User.ID user))]. split; [|split].
      * rewrite Hdel, He2, He1, He. rewrite <- !app_assoc. simpl.
        rewrite <- ?app_assoc. reflexivity.
      * constructor; [intros a; discriminate|]. apply Forall_app. auto.
      * right. exists user, []. auto.
  - erewrite bind_err; [|apply wrap_err; exact Eg]. simpl.
    exists [Sql (SelectUser username)], []. rewrite He. subst w1. simpl.
    split; [reflexivity|]. split; [|auto].
    constructor; [intros a; discriminate|constructor].
Qed.

(** C10. In the sync of one account the stored positions are deleted
    before any position is fetched from upstream, and nothing restores
    them: when the fetch fails for every address (and the database itself
    is healthy), the sync still returns without error, the account ends the
    cycle with no stored position, and the snapshot appended at the end of
    the cycle has an unrealized PnL of zero. *)
Theorem failed_fetch_leaves_account_without_positions
    (env : Env) (username : string) (addresses : list string) (w : World) (user : User.t) :
  healthy env ->
  find_user username (db w) = Some user ->
  username <> ""%string ->
  NoDup (map User.ID (users (db w))) ->
  (forall a, a ∈ addresses -> exists e, GetPositions env a = Err e) ->
  let r := syncUser env username addresses w in
  r.1 = Ok tt
  /\ user_positions (User.ID user) (db r.2) = []
  /\ (forall other, other ≠ User.ID user ->
        user_positions other (db r.2) = user_positions other (db w))
  /\ (exists before after,
        events r.2
        = events w ++ before ++ Sql (DeletePositions (User.ID user))
            :: map (fun a => Http (ReqPositions a)) addresses ++ after
        /\ Forall before_fetch before)
  /\ (exists total realized,
        pnl_snapshots (db r.2)
        = pnl_snapshots (db w)
          ++ [PnlSnapshot.mk (User.ID user) (Now env) (Some total) (Some realized)
                (Some 0%Q)]).
Proof.
  intros Hh Hfind Hname Hnd Hfail. cbv zeta. unfold syncUser.
  (* the announcement and the lookup of the account *)
  erewrite bind_ok; [|reflexivity].
  erewrite bind_ok; [|apply wrap_ok, GetUser_found; [apply Hh|exact Hfind]].
  cbn [db events logs].
  (* the profile and the official PnL *)
  set (w2 := mkWorld _ _ _).
  destruct (sync_profile_phase env user username addresses w2) as (name & Hp1 & Hp2).
  destruct (emits_sync_profile env user username addresses w2) as (es1 & ls1 & He1 & HP1 & _).
  destruct (sync_profile env user username addresses w2) as [rp w3] eqn:Ep.
  simpl in Hp1, Hp2, He1. subst rp.
  erewrite bind_ok; [|exact Ep].
  destruct (sync_official_pnl_phase env user username name addresses w3) as (Ho1 & Ho2).
  destruct (emits_sync_official_pnl env user username name addresses w3)
    as (es2 & ls2 & He2 & HP2 & _).
  destruct (sync_official_pnl env user username name addresses w3) as [ro w4] eqn:Eo.
  simpl in Ho1, Ho2, He2. subst ro.
  erewrite bind_ok; [|exact Eo].
  pose proof (same_but_profiles_trans _ _ _ Hp2 Ho2) as Hsame.
  subst w2. cbn [db events logs] in Hsame, He1.
  (* the deletion of the stored positions, then the failing fetches *)
  erewrite bind_ok; [|apply wrap_ok; unfold DeleteUserPositions; apply exec_accepted, Hh].
  set (w5 := mkWorld _ _ _).
  destruct (sync_addresses_all_failing env (User.ID user) username addresses (0, 0) w5 Hfail)
    as (Ha1 & Ha2 & Ha3).
  destruct (sync_addresses env (User.ID user) username addresses (0, 0) w5) as [ra w6] eqn:Ea.
  simpl in Ha1, Ha2, Ha3. subst ra.
  erewrite bind_ok; [|exact Ea].
  (* the snapshot *)
  assert (Hsame6 : same_but_profiles (db w) (set_positions (fun _ => positions (db w)) (db w6))).
  { rewrite Ha2. subst w5. cbn [db].
    destruct Hsame as (H1 & H2 & H3 & H4 & H5). unfold same_but_profiles. simpl. auto. }
  destruct (find_user_same_but_profiles username _ _ user Hsame6 Hfind)
    as (user6 & Hfind6 & Hid6 & _).
  change (find_user username (set_positions (fun _ => positions (db w)) (db w6)))
    with (find_user username (db w6)) in Hfind6.
  assert (Hnd6 : NoDup (map User.ID (users (db w6)))).
  { destruct Hsame6 as [Hids _]. apply same_identities_ids in Hids.
    simpl in Hids. rewrite Hids. exact Hnd. }
  destruct (takePnlSnapshot_healthy env username w6 user6 Hh Hfind6 Hname Hnd6)
    as (total & realized & Ht1 & Ht2).
  rewrite Hid6 in Ht1, Ht2.
  assert (Hpos6 : positions (db w6)
                  = filter (fun p => Position.UserID p ≠ User.ID user) (positions (db w))).
  { rewrite Ha2. subst w5. cbn [db]. unfold set_positions. simpl.
    destruct Hsame as (_ & _ & -> & _). reflexivity. }
  rewrite (user_positions_deleted (User.ID user) (positions (db w)) (db w6) Hpos6) in Ht2.
  erewrite bind_ok; [|apply or_log_world].
  rewrite Ht1.
  erewrite bind_ok;
    [|apply wrap_ok; unfold UpdateUserLastSynced; apply exec_accepted, Hh].
  destruct (emits_takePnlSnapshot env (User.ID user) w6) as (es3 & ls3 & He3 & _ & _).
  unfold log. cbn [fst snd db events logs].
  split; [reflexivity|]. rewrite Ht2. simpl.
  split; [|split; [|split]].
  - apply (user_positions_deleted (User.ID user) (positions (db w))). exact Hpos6.
  - intros other Hother.
    apply (user_positions_kept (User.ID user) other (positions (db w))); auto.
  - exists (Sql (SelectUser username) :: es1 ++ es2), (es3 ++ [Sql (UpdateLastSynced (User.ID user) (Now env))]).
    split.
    + rewrite He3, Ha3. subst w5. cbn [events]. rewrite He2, He1.
      rewrite <- !app_assoc. simpl. rewrite <- !app_assoc. reflexivity.
    + constructor; [intros a; discriminate|]. apply Forall_app. auto.
  - exists total, realized. f_equal.
    rewrite Ha2. subst w5. cbn [db]. simpl.
    destruct Hsame as (_ & _ & _ & _ & ->). reflexivity.
Qed.

Lemma failed_fetch_witness :
  healthy upstream_down
  /\ find_user "alice" (db sample_world) = Some alice
  /\ "alice"%string <> ""%string
  /\ NoDup (map User.ID (users (db sample_world)))
  /\ (forall a, a ∈ ["0xabc"%string] -> exists e, GetPositions upstream_down a = Err e)
  /\ (syncUser upstream_down "alice" ["0xabc"%string] sample_world).1 = Ok tt
  /\ user_positions (User.ID alice)
       (db (syncUser upstream_down "alice" ["0xabc"%string] sample_world).2) = [].
Proof.
  assert (H1 : healthy upstream_down) by (intros s; reflexivity).
  assert (H3 : "alice"%string <> ""%string) by discriminate.
  assert (H4 : NoDup (map User.ID (users (db sample_world)))).
  { simpl. apply NoDup_cons. split; [|apply NoDup_singleton].
    intros H. apply list_elem_of_singleton in H. discriminate H. }
  assert (H5 : forall a, a ∈ ["0xabc"%string] ->
                         exists e, GetPositions upstream_down a = Err e).
  { intros a _. exists "timeout"%string. reflexivity. }
  split; [exact H1|]. split; [reflexivity|]. split; [exact H3|]. split; [exact H4|].
  split; [exact H5|].
  destruct (failed_fetch_leaves_account_without_positions
              upstream_down "alice" ["0xabc"%string] sample_world alice
              H1 eq_refl H3 H4 H5) as (Hok & Hpos & _).
  split; [exact Hok|exact Hpos].
Defined.

(** A cycle over two accounts of which the first is unknown to the
    database: its failure is logged and the second account is synced. *)
Example one_failed_account_does_not_stop_the_cycle :
  (syncAll upstream_up sample_accounts sample_world).1 = Ok tt
  /\ logs (syncAll upstream_up sample_accounts sample_world).2
     = [ mkLog Info "syncing all users" "";
         mkLog Info "syncing user" "mallory";
         mkLog Error "failed to sync user" "mallory";
         mkLog Info "syncing user" "alice";
         mkLog Debug "syncing address" "0xabc";
         mkLog Debug "address sync completed" "0xabc";
         mkLog Info "user sync completed" "alice";
         mkLog Info "sync completed for all users" "" ]
  /\ map Position.Asset
       (user_positions 1 (db (syncAll upstream_up sample_accounts sample_world).2))
     = ["asset-2"%string]
  /\ map User.LastSynced (users (db (syncAll upstream_up sample_accounts sample_world).2))
     = [Some 1700100000; None].
Proof. vm_compute. auto. Qed.

(** * Further properties *)

(** ** The FIFO queue of a position *)

Lemma held_app l1 l2 : (held (l1 ++ l2) == held l1 + held l2)%Q.
Proof.
  induction l1 as [|x l1 IH].
  - simpl. change (held []) with 0%Q. ring.
  - change (held ((x :: l1) ++ l2)) with (fifoLot.Shares x + held (l1 ++ l2))%Q.
    rewrite held_cons, IH. ring.
Qed.

(** What the matching loop leaves of a queue: it removes whole lots from
    the head while they fit in what remains to be sold, then reduces the
    next lot, whose price it keeps. *)
Lemma match_lots_shape price lots : forall remaining a,
  exists consumed rest,
    lots = consumed ++ rest
    /\ (((Live.match_lots price lots remaining a).1.1 = rest
         /\ ((Live.match_lots price lots remaining a).1.2 == remaining - held consumed)%Q
         /\ (rest = [] \/ ((Live.match_lots price lots remaining a).1.2 <= 0)%Q)
         /\ (consumed = [] \/ (0 <= (Live.match_lots price lots remaining a).1.2)%Q))
        \/ (exists lot rest' r,
              rest = lot :: rest'
              /\ (Live.match_lots price lots remaining a).1.1
                 = fifoLot.mk (fifoLot.Shares lot - r)%Q (fifoLot.Price lot) :: rest'
              /\ (Live.match_lots price lots remaining a).1.2 = 0%Q
              /\ (r == remaining - held consumed)%Q
              /\ (0 < r)%Q /\ (r < fifoLot.Shares lot)%Q)).
Proof.
  induction lots as [|lot rest IH]; intros remaining a; simpl.
  - exists [], []. split; [reflexivity|]. left.
    destruct (Qltb 0 remaining); simpl; (split; [reflexivity|]);
      (split; [change (held []) with 0%Q; ring|auto]).
  - destruct (Qltb 0 remaining) eqn:Epos; simpl.
    + destruct (Qle_bool (fifoLot.Shares lot) remaining) eqn:Efit; simpl.
      * destruct (IH (remaining - fifoLot.Shares lot)%Q
                     (Live.count (fifoLot.Shares lot * price
                                  - fifoLot.Shares lot * fifoLot.Price lot) a))
          as (consumed & rest0 & Hsplit & Hcase).
        exists (lot :: consumed), rest0. split; [rewrite Hsplit; reflexivity|].
        apply Qle_bool_iff in Efit.
        destruct Hcase as [(H1 & H2 & H3 & H3')|(l & r' & r & H1 & H2 & H3 & H4 & H5 & H6)].
        -- left. split; [exact H1|]. split; [rewrite H2, held_cons; ring|].
           split; [exact H3|]. right.
           destruct H3' as [->|H3']; [|exact H3'].
           rewrite H2. change (held []) with 0%Q. lra.
        -- right. exists l, r', r. repeat split; auto.
           rewrite H4, held_cons. ring.
      * exists [], (lot :: rest). split; [reflexivity|]. right.
        exists lot, rest, remaining. apply Qltb_lt in Epos.
        assert (remaining < fifoLot.Shares lot)%Q.
        { apply Qnot_le_lt. intros Hle. apply Qle_bool_iff in Hle. congruence. }
        repeat split; auto. change (held []) with 0%Q. ring.
    + exists [], (lot :: rest). split; [reflexivity|]. left.
      apply Qltb_ge in Epos. split; [reflexivity|].
      split; [change (held []) with 0%Q; ring|]. split; [right; exact Epos|left; reflexivity].
Qed.


Lemma match_lots_positive price lots : forall remaining a,
  Forall (fun l => (0 < fifoLot.Shares l)%Q) lots ->
  Forall (fun l => (0 < fifoLot.Shares l)%Q) (Live.match_lots price lots remaining a).1.1.
Proof.
  intros remaining a Hpos.
  destruct (match_lots_shape price lots remaining a) as (consumed & rest & Hsplit & Hcase).
  rewrite Hsplit in Hpos. apply Forall_app in Hpos as [_ Hrest].
  destruct Hcase as [(H1 & _)|(l & r' & r & H1 & H2 & _ & _ & _ & H6)].
  - rewrite H1. exact Hrest.
  - rewrite H2. subst rest. inversion Hrest as [|? ? Hl Hr']; subst.
    constructor; [simpl; lra|exact Hr'].
Qed.

Lemma live_step_positive st trade :
  (forall key price size,
     ledger_fields trade = Some (key, "BUY"%string, price, size) -> (0 < size)%Q) ->
  lots_positive (Live.inventory st) ->
  lots_positive (Live.inventory (Live.step st trade)).
Proof.
  intros Hbuy Hinv. unfold ledger_fields in Hbuy. unfold Live.step.
  destruct (Trade.ConditionID trade) as [cid|]; [|exact Hinv].
  destruct (Trade.Outcome trade) as [out|]; [|exact Hinv].
  destruct (Trade.Side trade) as [side|]; [|exact Hinv].
  destruct (Trade.Price trade) as [price|]; [|exact Hinv].
  destruct (Trade.Size trade) as [size|]; [|exact Hinv].
  destruct (String.eqb side "BUY") eqn:Ebuy.
  - apply String.eqb_eq in Ebuy. subst side.
    intros key. cbn [Live.inventory]. rewrite lots_at_insert.
    destruct (decide (mkKey cid out = key)); [|apply Hinv].
    apply Forall_app. split; [apply Hinv|].
    constructor; [|constructor]. simpl. eapply Hbuy. reflexivity.
  - destruct (String.eqb side "SELL"); [|exact Hinv].
    pose proof (match_lots_positive price (lots_at (Live.inventory st) (mkKey cid out)) size
                  (Live.totals st) (Hinv _)) as Hm.
    destruct (Live.match_lots price (lots_at (Live.inventory st) (mkKey cid out)) size
                (Live.totals st)) as [[lots' rem'] a'].
    simpl in Hm. intros key. cbn [Live.inventory]. rewrite lots_at_insert.
    destruct (decide (mkKey cid out = key)); [exact Hm|apply Hinv].
Qed.

(** X2. When every buy of a history has a positive size, every open lot
    of the ledger has a positive size after the pass: a sell never leaves
    an empty or negative lot in a queue. *)
Theorem open_lots_stay_positive (trades : list Trade.t) :
  buys_positive trades ->
  lots_positive (Live.inventory (Live.run trades)).
Proof.
  unfold Live.run. intros Hbuys.
  assert (Hgen : forall st, lots_positive (Live.inventory st) ->
                            lots_positive (Live.inventory (fold_left Live.step trades st))).
  { induction Hbuys as [|t rest Ht _ IH]; intros st Hst; simpl; [exact Hst|].
    apply IH. apply live_step_positive; assumption. }
  apply Hgen. intros key. unfold lots_at. simpl. rewrite lookup_empty. constructor.
Qed.

Lemma open_lots_stay_positive_witness :
  buys_positive (example_trades "0xc1" "Yes")
  /\ lots_positive (Live.inventory (Live.run (example_trades "0xc1" "Yes"))).
Proof.
  assert (H : buys_positive (example_trades "0xc1" "Yes")).
  { unfold buys_positive, example_trades.
    repeat apply Forall_cons_2; try apply Forall_nil_2;
      intros key price size Hf; cbv [ledger_fields trade_on] in Hf; simpl in Hf;
      try discriminate Hf; injection Hf as _ <- <-; reflexivity. }
  split; [exact H|exact (open_lots_stay_positive _ H)].
Defined.


(** ** The two passes and their inventories *)

Lemma lots_agree_step (bs : Backfill.state) (ls : Live.state) trade :
  has_timestamp trade ->
  (forall key, lots_at (Backfill.costBasis bs) key
               = map lot_of (lots_at (Live.inventory ls) key)) ->
  forall key, lots_at (Backfill.costBasis (Backfill.step bs trade)) key
              = map lot_of (lots_at (Live.inventory (Live.step ls trade)) key).
Proof.
  intros [ts Hts] Hlots. unfold Backfill.step, Live.step. rewrite Hts.
  destruct (Trade.ConditionID trade) as [cid|]; [|exact Hlots].
  destruct (Trade.Outcome trade) as [out|]; [|exact Hlots].
  destruct (Trade.Side trade) as [side|]; [|exact Hlots].
  destruct (Trade.Price trade) as [price|]; [|exact Hlots].
  destruct (Trade.Size trade) as [size|]; [|exact Hlots].
  destruct (String.eqb side "BUY").
  { intros key. simpl. rewrite !lots_at_insert.
    destruct (decide (mkKey cid out = key)) as [<-|]; [|apply Hlots].
    rewrite Hlots, map_app. reflexivity. }
  destruct (String.eqb side "SELL"); [|exact Hlots].
  set (k := mkKey cid out).
  pose proof (Hlots k) as Hk.
  pose proof (consume_match_lots price (lots_at (Live.inventory ls) k) size (Live.totals ls) 0%Q)
    as (H1 & _ & _).
  destruct (Live.match_lots price (lots_at (Live.inventory ls) k) size (Live.totals ls))
    as [[llots lrem] la] eqn:Ematch.
  unfold Backfill.calculateRealizedPnlFIFO.
  destruct (lots_at (Live.inventory ls) k) as [|l0 lrest] eqn:El.
  - (* nothing recorded on the key: neither pass has a lot to consume *)
    assert (Hll : llots = []).
    { simpl in Ematch. destruct (Qltb 0 size); injection Ematch as <- _ _; reflexivity. }
    subst llots. simpl in Hk.
    assert (Hcb : forall key, lots_at (Backfill.costBasis bs) key
                    = map lot_of (lots_at (<[k := []]> (Live.inventory ls)) key)).
    { intros key. rewrite lots_at_insert.
      destruct (decide (k = key)) as [<-|]; [exact Hk|apply Hlots]. }
    unfold lots_at in Hk at 1.
    destruct (Backfill.costBasis bs !! k) as [[|b brest]|]; simpl in Hk;
      try discriminate Hk; simpl; exact Hcb.
  - assert (Hcb : Backfill.costBasis bs !! k = Some (map lot_of (l0 :: lrest))).
    { unfold lots_at in Hk at 1.
      destruct (Backfill.costBasis bs !! k) as [l|]; simpl in Hk; [simpl; congruence|discriminate]. }
    rewrite Hcb. cbn [map].
    change (lot_of l0 :: map lot_of lrest) with (map lot_of (l0 :: lrest)).
    destruct (Backfill.consume price (map lot_of (l0 :: lrest)) size 0)
      as [[blots brem] bpnl] eqn:Econs.
    simpl in H1. subst blots.
    destruct (Qltb 0 brem); simpl; intros key; rewrite !lots_at_insert;
      (destruct (decide (k = key)); [reflexivity|apply Hlots]).
Qed.

(** X3. On every history whose rows carry a timestamp, covered or not,
    the backfill pass and the live-stats pass end with the same open lots
    on every position key: the passes can differ in realized PnL only. *)
Theorem passes_hold_the_same_lots (trades : list Trade.t) :
  Forall has_timestamp trades ->
  forall key,
    lots_at (Backfill.costBasis (Backfill.run trades)) key
    = map lot_of (lots_at (Live.inventory (Live.run trades)) key).
Proof.
  unfold Backfill.run, Live.run. intros Hts.
  assert (Hgen : forall bs ls,
    (forall key, lots_at (Backfill.costBasis bs) key
                 = map lot_of (lots_at (Live.inventory ls) key)) ->
    forall key, lots_at (Backfill.costBasis (fold_left Backfill.step trades bs)) key
                = map lot_of (lots_at (Live.inventory (fold_left Live.step trades ls)) key)).
  { induction Hts as [|t rest Ht _ IH]; intros bs ls H; simpl; [exact H|].
    apply IH. apply lots_agree_step; assumption. }
  apply Hgen. intros key. reflexivity.
Qed.

Lemma passes_hold_the_same_lots_witness :
  Forall has_timestamp oversell
  /\ lots_at (Backfill.costBasis (Backfill.run oversell)) (mkKey "0xc1" "Yes")
     = map lot_of (lots_at (Live.inventory (Live.run oversell)) (mkKey "0xc1" "Yes")).
Proof.
  assert (H : Forall has_timestamp oversell).
  { unfold oversell. repeat apply Forall_cons_2; try apply Forall_nil_2; eexists; reflexivity. }
  split; [exact H|exact (passes_hold_the_same_lots oversell H (mkKey "0xc1" "Yes"))].
Defined.

(** ** Read-only computations *)

Lemma reads_ret {A} (a : A) : reads (fun _ b => b = a) (ret a).
Proof. intros w. split; [reflexivity|]. intros b H. injection H as <-. reflexivity. Qed.

Lemma reads_fail {A} (P : DB -> A -> Prop) e : reads P (fail e).
Proof. intros w. split; [reflexivity|]. intros b H. discriminate H. Qed.

Lemma reads_bind {A B} (P : DB -> A -> Prop) (Q : A -> DB -> B -> Prop)
    (m : M A) (k : A -> M B) :
  reads P m -> (forall a, reads (Q a) (k a)) ->
  reads (fun d b => exists a, P d a /\ Q a d b) (bind m k).
Proof.
  intros Hm Hk w. unfold bind. specialize (Hm w).
  destruct (m w) as [[a|e] w1]; simpl in Hm; destruct Hm as [Hdb Hp].
  - destruct (Hk a w1) as [Hdb2 Hq]. split; [congruence|].
    intros b Hb. exists a. split; [apply Hp; reflexivity|].
    rewrite <- Hdb. apply Hq. exact Hb.
  - split; [exact Hdb|]. intros b Hb. discriminate Hb.
Qed.

Lemma reads_wrap {A} (P : DB -> A -> Prop) prefix (m : M A) :
  reads P m -> reads P (wrap prefix m).
Proof.
  intros Hm w. unfold wrap. specialize (Hm w).
  destruct (m w) as [[a|e] w1]; simpl in *; [exact Hm|].
  split; [apply Hm|]. intros b Hb. discriminate Hb.
Qed.

Lemma reads_weaken {A} (P Q : DB -> A -> Prop) (m : M A) :
  (forall d a, P d a -> Q d a) -> reads P m -> reads Q m.
Proof. intros HPQ Hm w. destruct (Hm w) as [Hdb Hp]. split; [exact Hdb|]. auto. Qed.

Lemma reads_query {A} env s what (f : DB -> A) :
  reads (fun d a => a = f d) (query env s what f).
Proof.
  intros w. unfold query, bind, emit, read_db, ret, fail. simpl.
  destruct (sql_error env s); simpl; split; try reflexivity; intros a H;
    [discriminate H|injection H as <-; reflexivity].
Qed.

Lemma reads_GetUser env username :
  reads (fun d user => find_user username d = Some user) (GetUser env username).
Proof.
  intros w. destruct (GetUser_record env username w) as (_ & _ & Hdb).
  split; [exact Hdb|]. intros user H.
  destruct (GetUser env username w) as [r w'] eqn:E. simpl in H. subst r.
  exact (GetUser_inv _ _ _ _ _ E).
Qed.

Lemma reads_bind2 {A1 A2 B} (P : DB -> A1 * A2 -> Prop) (Q : A1 -> A2 -> DB -> B -> Prop)
    (m : M (A1 * A2)) (k : A1 * A2 -> M B) :
  reads P m -> (forall a1 a2, reads (Q a1 a2) (k (a1, a2))) ->
  reads (fun d b => exists a1 a2, P d (a1, a2) /\ Q a1 a2 d b) (bind m k).
Proof.
  intros Hm Hk.
  eapply reads_weaken;
    [|apply (reads_bind P (fun a => Q a.1 a.2) m k Hm); intros [a1 a2]; apply Hk].
  simpl. intros d b ([a1 a2] & H1 & H2). eauto.
Qed.

Lemma reads_bind3 {A1 A2 A3 B} (P : DB -> A1 * A2 * A3 -> Prop)
    (Q : A1 -> A2 -> A3 -> DB -> B -> Prop)
    (m : M (A1 * A2 * A3)) (k : A1 * A2 * A3 -> M B) :
  reads P m -> (forall a1 a2 a3, reads (Q a1 a2 a3) (k (a1, a2, a3))) ->
  reads (fun d b => exists a1 a2 a3, P d (a1, a2, a3) /\ Q a1 a2 a3 d b) (bind m k).
Proof.
  intros Hm Hk.
  eapply reads_weaken;
    [|apply (reads_bind P (fun a => Q a.1.1 a.1.2 a.2) m k Hm); intros [[a1 a2] a3]; apply Hk].
  simpl. intros d b ([[a1 a2] a3] & H1 & H2). eauto.
Qed.

Lemma reads_CalculateRealizedPnlFromTrades env userID :
  reads (fun d r => r = Live.result (Live.run (trades_chronological userID d)))
        (CalculateRealizedPnlFromTrades env userID).
Proof.
  unfold CalculateRealizedPnlFromTrades, GetUserTradesChronological.
  eapply reads_weaken; [|apply reads_bind; [apply reads_wrap, reads_query|]].
  2:{ intros trades. apply reads_ret. }
  simpl. intros d a (trades & -> & ->). reflexivity.
Qed.

Lemma reads_GetUserStats env username :
  reads (fun d stats => exists user,
           find_user username d = Some user /\ stats = stats_of username user d)
        (GetUserStats env username).
Proof.
  unfold GetUserStats, GetUserAddresses.
  eapply reads_weaken; [|apply reads_bind; [apply reads_GetUser|]].
  2:{ intros user.
      apply reads_bind; [apply reads_wrap, reads_query|]. intros addresses.
      apply reads_bind2; [apply reads_query|]. intros openPositions unrealizedPnl.
      cbv beta iota.
      apply reads_bind2 with
        (P := fun d (pnl : Q * Q) =>
                pnl = match User.OfficialPnl user with
                      | Some official => (official, (official - unrealizedPnl)%Q)
                      | None => (((Live.result (Live.run
                                     (trades_chronological (User.ID user) d))).1.1
                                  + unrealizedPnl)%Q,
                                 (Live.result (Live.run
                                     (trades_chronological (User.ID user) d))).1.1)
                      end).
      { destruct (User.OfficialPnl user) as [official|].
        - eapply reads_weaken; [|apply reads_ret]. simpl. auto.
        - eapply reads_weaken;
            [|apply reads_bind3;
              [apply reads_wrap, reads_CalculateRealizedPnlFromTrades|]].
          2:{ intros realizedPnl wins closed. apply reads_ret. }
          cbv beta iota. intros d a (r & wi & c & Hr & ->). rewrite <- Hr. reflexivity. }
      intros totalPnl realizedPnl. cbv beta iota.
      apply reads_bind; [apply reads_query|]. intros totalTrades.
      apply reads_bind3; [apply reads_wrap, reads_CalculateRealizedPnlFromTrades|].
      intros r wins totalClosed. apply reads_ret. }
  simpl. intros d stats (user & Hu & addresses & -> & openP & unreal & Hpos & tot & real & Hpnl
                         & totalTrades & -> & r & wins & closed & Hclosed & ->).
  exists user. split; [exact Hu|].
  injection Hpos as -> ->. unfold stats_of, Live.result in *.
  injection Hclosed as -> -> ->.
  destruct (User.OfficialPnl user); injection Hpnl as -> ->; reflexivity.
Qed.

(** ** The win and loss counters *)








(** X5. [GetUserStats] never writes: whatever the driver answers and
    whether it returns or fails, the database is the one it was called on.
    The figures it returns are those of the account of that name: the
    unrealized PnL is the sum over its cached positions, the open
    positions and the trades are counted from its rows, and the total
    and the realized PnL are tied by the one operation that computes
    them: without an official PnL the total is the realized plus the
    unrealized PnL, with one the total is the official PnL and the
    realized PnL is the total minus the unrealized PnL. *)
Theorem user_stats_balance_and_never_write
    (env : Env) (username : string) (w : World) :
  db (GetUserStats env username w).2 = db w
  /\ forall stats, (GetUserStats env username w).1 = Ok stats ->
       exists user, find_user username (db w) = Some user
         /\ UserStats.UnrealizedPnl stats
            = sum_unrealized (user_positions (User.ID user) (db w))
         /\ UserStats.OpenPositions stats
            = Z.of_nat (length (user_positions (User.ID user) (db w)))
         /\ UserStats.TotalTrades stats
            = Z.of_nat (length (user_trades (User.ID user) (db w)))
         /\ match User.OfficialPnl user with
            | Some official =>
                UserStats.TotalPnl stats = official
                /\ UserStats.RealizedPnl stats
                   = (UserStats.TotalPnl stats - UserStats.UnrealizedPnl stats)%Q
            | None =>
                UserStats.TotalPnl stats
                = (UserStats.RealizedPnl stats + UserStats.UnrealizedPnl stats)%Q
            end.
Proof.
  destruct (reads_GetUserStats env username w) as [Hdb Hpost].
  split; [exact Hdb|]. intros stats Hok.
  destruct (Hpost stats Hok) as (user & Hu & ->).
  exists user. split; [exact Hu|]. do 3 (split; [reflexivity|]).
  unfold stats_of. cbn [UserStats.TotalPnl UserStats.RealizedPnl UserStats.UnrealizedPnl].
  destruct (User.OfficialPnl user); simpl; auto.
Qed.

Lemma user_stats_balance_and_never_write_witness :
  db (GetUserStats upstream_down "alice" official_world).2 = db official_world
  /\ exists stats,
       (GetUserStats upstream_down "alice" official_world).1 = Ok stats
       /\ UserStats.TotalPnl stats = 12.5%Q
       /\ UserStats.RealizedPnl stats
          = (UserStats.TotalPnl stats - UserStats.UnrealizedPnl stats)%Q.
Proof.
  destruct (user_stats_balance_and_never_write upstream_down "alice" official_world)
    as [Hdb Hpost].
  split; [exact Hdb|].
  destruct (GetUserStats_healthy upstream_down "alice" official_world official_alice
              (fun s => eq_refl) eq_refl) as (stats & Hok & _).
  exists stats. split; [exact Hok|].
  destruct (Hpost stats Hok) as (user & Hu & _ & _ & _ & Hpnl).
  injection Hu as <-. exact Hpnl.
Defined.

(** ** The date range of a backfill *)



(** ** What a computation keeps of the database *)

Section Frame.
Context (R : DB -> DB -> Prop) `{!PreOrder R} (env : Env).

Lemma keeps_ret {A} (a : A) : keeps R (ret a).
Proof. intros w. reflexivity. Qed.

Lemma keeps_fail {A} e : keeps R (@fail A e).
Proof. intros w. reflexivity. Qed.

Lemma keeps_log l m subj : keeps R (log l m subj).
Proof. intros w. reflexivity. Qed.

Lemma keeps_emit e : keeps R (emit e).
Proof. intros w. reflexivity. Qed.

Lemma keeps_bind {A B} (m : M A) (k : A -> M B) :
  keeps R m -> (forall a, keeps R (k a)) -> keeps R (bind m k).
Proof.
  intros Hm Hk w. unfold bind. specialize (Hm w).
  destruct (m w) as [[a|e] w1]; simpl in *; [|exact Hm].
  etransitivity; [exact Hm|apply Hk].
Qed.

Lemma keeps_wrap {A} prefix (m : M A) : keeps R m -> keeps R (wrap prefix m).
Proof.
  intros Hm w. unfold wrap. specialize (Hm w). destruct (m w) as [[a|e] w1]; exact Hm.
Qed.

Lemma keeps_try {A} (m : M A) : keeps R m -> keeps R (try m).
Proof.
  intros Hm w. unfold try. specialize (Hm w). destruct (m w) as [r w1]. exact Hm.
Qed.

Lemma keeps_or_log l m subj action : keeps R action -> keeps R (or_log l m subj action).
Proof.
  intros H. unfold or_log. apply keeps_bind; [apply keeps_try; exact H|].
  intros [|]; [apply keeps_ret|apply keeps_log].
Qed.

Lemma keeps_with_rollback {A} (m : M A) : keeps R m -> keeps R (with_rollback m).
Proof.
  intros Hm w. unfold with_rollback. specialize (Hm w).
  destruct (m w) as [[a|e] w1]; simpl in *; [exact Hm|reflexivity].
Qed.

Lemma keeps_http {A} r (answer : result A) : keeps R (http r answer).
Proof.
  unfold http. apply keeps_bind; [apply keeps_emit|].
  intros _. destruct answer; [apply keeps_ret|apply keeps_fail].
Qed.

Lemma keeps_reads {A} (P : DB -> A -> Prop) (m : M A) : reads P m -> keeps R m.
Proof. intros Hm w. destruct (Hm w) as [-> _]. reflexivity. Qed.

Lemma keeps_query {A} s what (f : DB -> A) : keeps R (query env s what f).
Proof. eapply keeps_reads, reads_query. Qed.

Lemma keeps_exec s what f : (forall d, R d (f d)) -> keeps R (exec env s what f).
Proof.
  intros Hf w. unfold exec, bind, emit, read_db, write_db, fail. simpl.
  destruct (sql_error env s); simpl; [reflexivity|apply Hf].
Qed.

Lemma keeps_tx_insert_snapshots snapshots :
  (forall s d, s ∈ snapshots -> R d (set_pnl_snapshots (fun rows => rows ++ [s]) d)) ->
  keeps R (tx_insert_snapshots env snapshots).
Proof.
  induction snapshots as [|s rest IH]; intros H; simpl; [apply keeps_ret|].
  apply keeps_bind.
  - apply keeps_exec. intros d. apply H. apply elem_of_cons. auto.
  - intros _. apply IH. intros s' d Hs'. apply H. apply elem_of_cons. auto.
Qed.

Lemma keeps_BulkInsertPnlSnapshots snapshots :
  (forall s d, s ∈ snapshots -> R d (set_pnl_snapshots (fun rows => rows ++ [s]) d)) ->
  keeps R (BulkInsertPnlSnapshots env snapshots).
Proof.
  intros H. unfold BulkInsertPnlSnapshots. destruct snapshots as [|s0 rest0] eqn:E.
  { apply keeps_ret. }
  rewrite <- E in *. apply keeps_with_rollback.
  apply keeps_bind; [apply keeps_exec; reflexivity|]. intros _.
  apply keeps_bind; [apply keeps_exec; reflexivity|]. intros _.
  apply keeps_bind; [apply keeps_tx_insert_snapshots; exact H|]. intros _.
  apply keeps_exec; reflexivity.
Qed.

(** The writes of the sync of the account [userID]. *)
Context (userID : Z).
Hypothesis Husers : forall f d,
  (forall u, User.ID (f u) = User.ID u /\ User.Username (f u) = User.Username u) ->
  R d (set_users (update_user userID f) d).
Hypothesis Hdel : forall d,
  R d (set_positions (filter (fun p => Position.UserID p ≠ userID)) d).
Hypothesis Hups : forall pos d,
  Position.UserID pos = userID -> R d (set_positions (upsert_position pos) d).
Hypothesis Hins : forall address trade d,
  let t := trade_row userID address trade in
  trade_not_null t = true ->
  R d (set_trades (fun rows => if existsb (same_trade t) rows then rows else rows ++ [t]) d).
Hypothesis Hsnap : forall s d,
  PnlSnapshot.UserID s = userID -> R d (set_pnl_snapshots (fun rows => rows ++ [s]) d).

Lemma keeps_InsertTrade address trade :
  keeps R (InsertTrade env (trade_row userID address trade)).
Proof.
  intros w. unfold InsertTrade, bind, emit, read_db, write_db, fail. cbn [fst snd db].
  destruct (sql_error env (InsertTradeRow _)); cbn [fst snd db]; [reflexivity|].
  destruct (trade_not_null (trade_row userID address trade)) eqn:E; cbn [fst snd db];
    [|reflexivity].
  apply Hins. exact E.
Qed.

Lemma keeps_store_positions address positions :
  keeps R (store_positions env userID address positions).
Proof.
  induction positions as [|pos rest IH]; simpl; [apply keeps_ret|].
  apply keeps_bind; [|intros _; exact IH].
  apply keeps_or_log. apply keeps_exec. intros d. apply Hups. reflexivity.
Qed.

Lemma keeps_store_trades address trades :
  keeps R (store_trades env userID address trades).
Proof.
  induction trades as [|t rest IH]; simpl; [apply keeps_ret|].
  apply keeps_bind; [|intros _; exact IH].
  apply keeps_or_log. apply keeps_InsertTrade.
Qed.

Lemma keeps_fetch_trades address :
  keeps R (trades <- wrap "failed to fetch trades"
                       (http (ReqTrades address 100) (GetTrades env address 100)) ;;
           store_trades env userID address trades).
Proof.
  apply keeps_bind; [apply keeps_wrap, keeps_http|]. intros trades.
  apply keeps_store_trades.
Qed.

Lemma keeps_syncAddress address : keeps R (syncAddress env userID address).
Proof.
  unfold syncAddress.
  apply keeps_bind; [apply keeps_log|]. intros _.
  apply keeps_bind; [apply keeps_wrap, keeps_http|]. intros positions.
  apply keeps_bind; [apply keeps_store_positions|]. intros _.
  apply keeps_bind; [apply keeps_wrap, keeps_http|]. intros trades.
  apply keeps_bind; [apply keeps_store_trades|]. intros _.
  apply keeps_bind; [apply keeps_log|]. intros _. apply keeps_ret.
Qed.

Lemma keeps_sync_addresses username addresses : forall totals,
  keeps R (sync_addresses env userID username addresses totals).
Proof.
  induction addresses as [|address rest IH]; intros totals; simpl; [apply keeps_ret|].
  apply keeps_bind; [apply keeps_try, keeps_syncAddress|].
  intros [[positions trades]|e]; [apply IH|].
  apply keeps_bind; [apply keeps_log|]. intros _. apply IH.
Qed.

Lemma keeps_takePnlSnapshot : keeps R (takePnlSnapshot env userID).
Proof.
  unfold takePnlSnapshot, GetUsers.
  apply keeps_bind; [apply keeps_wrap, keeps_query|]. intros users.
  match goal with |- context [String.eqb ?u ""] => destruct (String.eqb u "") end;
    [apply keeps_fail|].
  apply keeps_bind; [eapply keeps_wrap, keeps_reads, reads_GetUserStats|]. intros stats.
  apply keeps_wrap, keeps_exec. intros d. apply Hsnap. reflexivity.
Qed.

Lemma keeps_sync_profile user username addresses :
  User.ID user = userID -> keeps R (sync_profile env user username addresses).
Proof.
  intros Hid. unfold sync_profile. destruct addresses as [|first rest]; [apply keeps_ret|].
  apply keeps_bind; [apply keeps_try, keeps_http|].
  intros [[profile|]|e]; [|apply keeps_ret|].
  - apply keeps_bind; [|intros _; apply keeps_ret].
    destruct (String.eqb (ProfileResponse.ProfileImage profile) ""); [apply keeps_ret|].
    apply keeps_or_log, keeps_exec. intros d. rewrite Hid. apply Husers. intros u; auto.
  - apply keeps_bind; [apply keeps_log|]. intros _. apply keeps_ret.
Qed.

Lemma keeps_sync_official_pnl user username polymarketUsername addresses :
  User.ID user = userID ->
  keeps R (sync_official_pnl env user username polymarketUsername addresses).
Proof.
  intros Hid. unfold sync_official_pnl. destruct addresses as [|first rest]; [apply keeps_ret|].
  destruct (String.eqb polymarketUsername ""); [apply keeps_ret|].
  apply keeps_bind; [apply keeps_try, keeps_http|].
  intros [[stats|]|e]; [|apply keeps_ret|apply keeps_log].
  apply keeps_bind.
  - apply keeps_try, keeps_exec. intros d. rewrite Hid. apply Husers. intros u; auto.
  - intros [|]; apply keeps_log.
Qed.

(** The sync of one account, when the account that its lookup finds is
    [userID]. *)
Lemma syncUser_frame username addresses w :
  (forall user, find_user username (db w) = Some user -> User.ID user = userID) ->
  R (db w) (db (syncUser env username addresses w).2).
Proof.
  intros Hfound. unfold syncUser.
  unfold bind at 1. unfold log at 1. cbv beta iota.
  set (w0 := mkWorld (db w) (events w) (logs w ++ [mkLog Info "syncing user" username])).
  unfold bind at 1.
  destruct (wrap "failed to get user" (GetUser env username) w0) as [[user|e] w1] eqn:Eu.
  2:{ simpl.
      assert (Hk : keeps R (wrap "failed to get user" (GetUser env username))).
      { eapply keeps_wrap, keeps_reads, reads_GetUser. }
      specialize (Hk w0). rewrite Eu in Hk. exact Hk. }
  assert (Hw1 : db w1 = db w /\ find_user username (db w) = Some user).
  { unfold wrap in Eu. destruct (GetUser env username w0) as [[u|e] w1'] eqn:Eg;
      [|discriminate Eu]. injection Eu as -> ->.
    destruct (GetUser_record env username w0) as (_ & _ & Hdb). rewrite Eg in Hdb.
    split; [exact Hdb|]. exact (GetUser_inv _ _ _ _ _ Eg). }
  destruct Hw1 as [Hdb Hu]. specialize (Hfound user Hu).
  rewrite <- Hdb.
  match goal with |- R _ (db (?rest w1).2) => assert (Hk : keeps R rest) end.
  { apply keeps_bind; [apply keeps_sync_profile; exact Hfound|]. intros name.
    apply keeps_bind; [apply keeps_sync_official_pnl; exact Hfound|]. intros _.
    rewrite Hfound.
    apply keeps_bind; [apply keeps_wrap, keeps_exec; exact Hdel|]. intros _.
    apply keeps_bind; [apply keeps_sync_addresses|]. intros _.
    apply keeps_bind; [apply keeps_or_log, keeps_takePnlSnapshot|]. intros _.
    apply keeps_bind; [|intros _; apply keeps_log].
    apply keeps_wrap, keeps_exec. intros d. apply Husers. intros u; auto. }
  apply Hk.
Qed.

End Frame.

#[local] Instance history_kept_preorder : PreOrder history_kept.
Proof.
  split.
  - intros d. unfold history_kept. auto using same_identities_refl.
  - intros a b c (H1 & H2 & H3 & H4) (G1 & G2 & G3 & G4). unfold history_kept.
    split; [eapply same_identities_trans; eauto|]. split; [congruence|].
    split; etransitivity; eauto.
Qed.

#[local] Instance other_positions_kept_preorder userID : PreOrder (other_positions_kept userID).
Proof.
  split.
  - intros d other _. reflexivity.
  - intros a b c H1 H2 other Hne. rewrite (H2 other Hne). apply H1. exact Hne.
Qed.

#[local] Instance positions_kept_preorder : PreOrder positions_kept.
Proof.
  split; [intros d; reflexivity|]. intros a b c H1 H2. unfold positions_kept in *. congruence.
Qed.

#[local] Instance trades_table_kept_preorder : PreOrder trades_table_kept.
Proof. split; [intros d H; exact H|]. intros a b c H1 H2 H. auto. Qed.

Lemma syncUser_keeps_history env username addresses :
  keeps history_kept (syncUser env username addresses).
Proof.
  intros w.
  set (userID := match find_user username (db w) with Some u => User.ID u | None => 0 end).
  apply (syncUser_frame history_kept env userID).
  - intros f d Hf. unfold history_kept. simpl.
    split; [apply update_user_identities; exact Hf|]. auto.
  - intros d. unfold history_kept. simpl. auto using same_identities_refl.
  - intros pos d _. unfold history_kept. simpl. auto using same_identities_refl.
  - intros address trade d t _. unfold history_kept. simpl.
    split; [apply same_identities_refl|]. split; [reflexivity|]. split; [|reflexivity].
    destruct (existsb (same_trade t) (trades d)); [reflexivity|apply prefix_app_r; reflexivity].
  - intros s d _. unfold history_kept. simpl.
    split; [apply same_identities_refl|]. split; [reflexivity|]. split; [reflexivity|].
    apply prefix_app_r. reflexivity.
  - intros user Hu. subst userID. rewrite Hu. reflexivity.
Qed.

Lemma sync_users_keeps R `{!PreOrder R} env users :
  (forall username addresses, keeps R (syncUser env username addresses)) ->
  keeps R (sync_users env users).
Proof.
  intros H. induction users as [|[username addresses] rest IH]; simpl; [apply keeps_ret; exact _|].
  apply keeps_bind; [exact _|apply keeps_or_log; [exact _|apply H]|intros _; exact IH].
Qed.

Lemma syncAll_keeps R `{!PreOrder R} env users :
  (forall username addresses, keeps R (syncUser env username addresses)) ->
  keeps R (syncAll env users).
Proof.
  intros H. unfold syncAll.
  apply keeps_bind; [exact _|apply keeps_log; exact _|]. intros _.
  apply keeps_bind; [exact _|apply sync_users_keeps; [exact _|exact H]|]. intros _.
  apply keeps_log; exact _.
Qed.

(** X7. A sync cycle, triggered by the timer or by hand, never rewrites
    history: whatever the upstream API and the database driver answer,
    after it the accounts have the same ids and names, the addresses are
    unchanged, and the trades and the PnL snapshots stored before are
    still there, in place, followed by the rows that the cycle added. *)
Theorem sync_never_rewrites_history
    (env : Env) (users : list (string * list string)) (w : World) :
  history_kept (db w) (db (syncAll env users w).2)
  /\ history_kept (db w) (db (TriggerSync env users w).2).
Proof.
  assert (H : keeps history_kept (syncAll env users)).
  { apply syncAll_keeps; [exact _|]. apply syncUser_keeps_history. }
  split; [apply H|].
  unfold TriggerSync. apply keeps_bind; [exact _|apply keeps_log; exact _|].
  intros _. exact H.
Qed.

Lemma filter_filter_other (userID other : Z) (rows : list Position.t) :
  other <> userID ->
  filter (fun p => Position.UserID p = other) (filter (fun p => Position.UserID p ≠ userID) rows)
  = filter (fun p => Position.UserID p = other) rows.
Proof.
  intros Hne. induction rows as [|p rest IH]; [reflexivity|].
  rewrite !filter_cons.
  destruct (decide (Position.UserID p ≠ userID)) as [H1|H1].
  - rewrite filter_cons. destruct (decide (Position.UserID p = other)); congruence.
  - destruct (decide (Position.UserID p = other)) as [H2|H2]; [|exact IH].
    exfalso. apply H1. congruence.
Qed.

Lemma same_position_user p q : same_position p q = true -> Position.UserID p = Position.UserID q.
Proof.
  unfold same_position. rewrite !andb_true_iff. intros [[[H _] _] _].
  apply Z.eqb_eq. exact H.
Qed.

Lemma filter_upsert_other (other : Z) (pos : Position.t) (rows : list Position.t) :
  Position.UserID pos <> other ->
  filter (fun p => Position.UserID p = other) (upsert_position pos rows)
  = filter (fun p => Position.UserID p = other) rows.
Proof.
  intros Hne. induction rows as [|p rest IH]; simpl.
  - rewrite filter_cons, decide_False by exact Hne. reflexivity.
  - destruct (same_position p pos) eqn:E.
    + apply same_position_user in E. rewrite !filter_cons.
      rewrite (decide_False (P := Position.UserID pos = other)) by exact Hne.
      rewrite (decide_False (P := Position.UserID p = other)) by congruence. reflexivity.
    + rewrite !filter_cons. destruct (decide (Position.UserID p = other)); congruence.
Qed.

(** X8. The sync of an account touches the cached positions of that
    account only: the positions of every other account are the same
    afterwards, whatever the upstream API and the driver answer. *)
Theorem sync_touches_positions_of_its_account_only
    (env : Env) (username : string) (addresses : list string) (w : World)
    (user : User.t) (other : Z) :
  find_user username (db w) = Some user ->
  other <> User.ID user ->
  user_positions other (db (syncUser env username addresses w).2)
  = user_positions other (db w).
Proof.
  intros Hu Hne.
  apply (syncUser_frame (other_positions_kept (User.ID user)) env (User.ID user)); try exact Hne.
  - intros f d _ o _. reflexivity.
  - intros d o Ho. unfold user_positions. simpl. apply filter_filter_other. exact Ho.
  - intros pos d Hpos o Ho. unfold user_positions. simpl.
    apply filter_upsert_other. congruence.
  - intros address trade d t _ o _. reflexivity.
  - intros s d _ o _. reflexivity.
  - intros user' Hu'. congruence.
Qed.

Lemma sync_touches_positions_of_its_account_only_witness :
  user_positions 1 (db (syncUser upstream_up "bob" ["0xdef"%string] sample_world).2)
  = user_positions 1 (db sample_world).
Proof.
  apply (sync_touches_positions_of_its_account_only upstream_up "bob" ["0xdef"%string]
           sample_world bob 1); [reflexivity|discriminate].
Defined.

(** ** The constraints of the trades table *)

Lemma Qeq_bool_sym_eq (x y : Q) : Qeq_bool x y = Qeq_bool y x.
Proof.
  destruct (Qeq_bool x y) eqn:E1, (Qeq_bool y x) eqn:E2; try reflexivity.
  - apply Qeq_bool_iff in E1. symmetry in E1. apply Qeq_bool_iff in E1. congruence.
  - apply Qeq_bool_iff in E2. symmetry in E2. apply Qeq_bool_iff in E2. congruence.
Qed.

Lemma opt_eqb_sym {A} (eqb : A -> A -> bool) (x y : option A) :
  (forall a b, eqb a b = eqb b a) -> opt_eqb eqb x y = opt_eqb eqb y x.
Proof. intros H. destruct x, y; simpl; auto. Qed.

Lemma same_trade_sym a b : same_trade a b = same_trade b a.
Proof.
  unfold same_trade.
  rewrite (Z.eqb_sym (Trade.UserID a)).
  rewrite (opt_eqb_sym String.eqb (Trade.ConditionID a)) by apply String.eqb_sym.
  rewrite (opt_eqb_sym Z.eqb (Trade.Timestamp a)) by apply Z.eqb_sym.
  rewrite (opt_eqb_sym String.eqb (Trade.Side a)) by apply String.eqb_sym.
  rewrite (opt_eqb_sym Qeq_bool (Trade.Size a)) by apply Qeq_bool_sym_eq.
  rewrite (opt_eqb_sym Qeq_bool (Trade.Price a)) by apply Qeq_bool_sym_eq.
  reflexivity.
Qed.

Lemma same_trade_refl t : trade_not_null t = true -> same_trade t t = true.
Proof.
  unfold trade_not_null, same_trade.
  destruct (Trade.ConditionID t), (Trade.Side t), (Trade.Price t), (Trade.Size t),
    (Trade.Timestamp t); try discriminate.
  intros _. simpl. rewrite !Z.eqb_refl, !String.eqb_refl, !Qeq_bool_refl. reflexivity.
Qed.

Lemma existsb_false {A} (f : A -> bool) (l : list A) x :
  existsb f l = false -> x ∈ l -> f x = false.
Proof.
  intros E Hin. destruct (f x) eqn:Ef; [|reflexivity].
  assert (H : existsb f l = true).
  { apply existsb_exists. exists x. split; [apply list_elem_of_In; exact Hin|exact Ef]. }
  congruence.
Qed.

Lemma insert_trade_keeps_table t rows :
  trade_not_null t = true ->
  trades_table_ok rows ->
  trades_table_ok (if existsb (same_trade t) rows then rows else rows ++ [t]).
Proof.
  intros Hnn [Hall Hpair]. destruct (existsb (same_trade t) rows) eqn:E; [split; assumption|].
  split.
  - apply Forall_app. split; [exact Hall|]. constructor; [exact Hnn|constructor].
  - intros i j a b Hi Hj Hs.
    apply lookup_app_Some in Hi as [Hi|[Hli Hi]];
      apply lookup_app_Some in Hj as [Hj|[Hlj Hj]].
    + exact (Hpair i j a b Hi Hj Hs).
    + apply list_lookup_singleton_Some in Hj as [_ <-].
      rewrite same_trade_sym in Hs.
      rewrite (existsb_false _ _ a E) in Hs; [discriminate|].
      eapply list_elem_of_lookup_2. exact Hi.
    + apply list_lookup_singleton_Some in Hi as [_ <-].
      rewrite (existsb_false _ _ b E) in Hs; [discriminate|].
      eapply list_elem_of_lookup_2. exact Hj.
    + apply list_lookup_singleton_Some in Hi as [Hi _].
      apply list_lookup_singleton_Some in Hj as [Hj _]. lia.
Qed.

Lemma syncUser_keeps_trades_table env username addresses :
  keeps trades_table_kept (syncUser env username addresses).
Proof.
  intros w.
  set (userID := match find_user username (db w) with Some u => User.ID u | None => 0 end).
  apply (syncUser_frame trades_table_kept env userID).
  - intros f d _ H. exact H.
  - intros d H. exact H.
  - intros pos d _ H. exact H.
  - intros address trade d t Hnn H. simpl. apply insert_trade_keeps_table; assumption.
  - intros s d _ H. exact H.
  - intros user Hu. subst userID. rewrite Hu. reflexivity.
Qed.

(** X9. A sync cycle keeps the constraints of the trades table: if no
    stored trade has a NULL in a required column and no two stored trades
    share a conflict key before the cycle, the same holds after it; in
    particular every stored trade carries a timestamp, so that the
    backfill pass skips none of them for a missing date. *)
Theorem sync_keeps_the_trades_table_wellformed
    (env : Env) (users : list (string * list string)) (w : World) :
  trades_table_ok (trades (db w)) ->
  trades_table_ok (trades (db (syncAll env users w).2))
  /\ Forall has_timestamp (trades (db (syncAll env users w).2)).
Proof.
  intros Hok.
  assert (H : trades_table_ok (trades (db (syncAll env users w).2))).
  { apply (syncAll_keeps trades_table_kept env users); [|exact Hok].
    apply syncUser_keeps_trades_table. }
  split; [exact H|]. destruct H as [Hall _].
  eapply Forall_impl; [exact Hall|]. intros t Ht. unfold has_timestamp.
  unfold trade_not_null in Ht.
  destruct (Trade.ConditionID t), (Trade.Side t), (Trade.Price t), (Trade.Size t),
    (Trade.Timestamp t); try discriminate Ht. eexists; reflexivity.
Qed.

Lemma sync_keeps_the_trades_table_wellformed_witness :
  trades_table_ok (trades (db sample_world))
  /\ Forall has_timestamp (trades (db (syncAll upstream_up sample_accounts sample_world).2)).
Proof.
  assert (H : trades_table_ok (trades (db sample_world))).
  { split.
    - simpl. unfold example_trades. repeat apply Forall_cons_2; try apply Forall_nil_2; reflexivity.
    - simpl. unfold example_trades. intros i j a b Hi Hj Hs.
      destruct i as [|[|[|i]]]; try discriminate Hi;
        destruct j as [|[|[|j]]]; try discriminate Hj; try reflexivity;
        simpl in Hi, Hj; injection Hi as <-; injection Hj as <-;
        vm_compute in Hs; discriminate Hs. }
  split; [exact H|].
  exact (proj2 (sync_keeps_the_trades_table_wellformed upstream_up sample_accounts
                  sample_world H)).
Defined.

(** X10. [InsertTrade] is idempotent: storing the same trade twice in a
    row leaves the database as storing it once, whatever the driver
    answers; and a trade that lacks a required column is never stored. *)
Theorem insert_trade_twice_is_insert_once (env : Env) (trade : Trade.t) (w : World) :
  db (InsertTrade env trade (InsertTrade env trade w).2).2 = db (InsertTrade env trade w).2
  /\ (trade_not_null trade = false ->
      (exists e, (InsertTrade env trade w).1 = Err e)
      /\ db (InsertTrade env trade w).2 = db w).
Proof.
  unfold InsertTrade, bind, emit, read_db, write_db, fail. simpl.
  destruct (sql_error env (InsertTradeRow trade)) as [e|]; simpl.
  { split; [reflexivity|]. intros _. eauto. }
  destruct (trade_not_null trade) eqn:Hnn; simpl.
  2:{ split; [reflexivity|]. intros _. eauto. }
  split; [|discriminate].
  unfold set_trades. simpl. f_equal.
  destruct (existsb (same_trade trade) (trades (db w))) eqn:E.
  - rewrite E. reflexivity.
  - rewrite existsb_app. simpl. rewrite (same_trade_refl trade Hnn).
    rewrite orb_true_r. reflexivity.
Qed.

Lemma insert_trade_twice_is_insert_once_witness :
  (exists e, (InsertTrade upstream_down priceless_sell sample_world).1 = Err e)
  /\ db (InsertTrade upstream_down priceless_sell sample_world).2 = db sample_world.
Proof.
  exact (proj2 (insert_trade_twice_is_insert_once upstream_down priceless_sell sample_world)
           eq_refl).
Defined.

(** ** The positions that a sync stores *)

Lemma filter_upsert_own (userID : Z) (pos : Position.t) (rows : list Position.t) :
  Position.UserID pos = userID ->
  filter (fun p => Position.UserID p = userID) (upsert_position pos rows)
  = upsert_position pos (filter (fun p => Position.UserID p = userID) rows).
Proof.
  intros Hpos. induction rows as [|p rest IH]; simpl.
  - rewrite filter_cons, decide_True by exact Hpos. reflexivity.
  - destruct (same_position p pos) eqn:E.
    + pose proof (same_position_user _ _ E) as Hu.
      rewrite !filter_cons.
      rewrite (decide_True (P := Position.UserID pos = userID)) by exact Hpos.
      rewrite (decide_True (P := Position.UserID p = userID)) by congruence.
      simpl. rewrite E. reflexivity.
    + rewrite !filter_cons. destruct (decide (Position.UserID p = userID)).
      * simpl. rewrite E, IH. reflexivity.
      * exact IH.
Qed.

Lemma filter_upsert_all env userID address fetched : forall rows,
  filter (fun p => Position.UserID p = userID) (upsert_all env userID address fetched rows)
  = upsert_all env userID address fetched (filter (fun p => Position.UserID p = userID) rows).
Proof.
  unfold upsert_all. induction fetched as [|pos rest IH]; intros rows; simpl; [reflexivity|].
  rewrite IH, filter_upsert_own by reflexivity. reflexivity.
Qed.

Lemma http_ok {A} r (answer : result A) a w :
  answer = Ok a -> http r answer w = (Ok a, mkWorld (db w) (events w ++ [Http r]) (logs w)).
Proof. intros ->. reflexivity. Qed.

Lemma store_positions_healthy env userID address fetched : forall w,
  healthy env ->
  (store_positions env userID address fetched w).1 = Ok tt
  /\ positions (db (store_positions env userID address fetched w).2)
     = upsert_all env userID address fetched (positions (db w)).
Proof.
  induction fetched as [|pos rest IH]; intros w Hh; simpl; [auto|].
  erewrite bind_ok; [|apply or_log_world].
  unfold UpsertPosition. rewrite (exec_accepted env _ _ _ w (Hh _)). cbn [fst snd].
  destruct (IH (mkWorld (set_positions (upsert_position (position_row env userID address pos))
                           (db w))
                  (events w ++ [Sql (UpsertPositionRow (position_row env userID address pos))])
                  (logs w)) Hh) as [H1 H2].
  split; [exact H1|]. rewrite H2. reflexivity.
Qed.

Lemma positions_kept_writes userID :
  (forall f d,
     (forall u, User.ID (f u) = User.ID u /\ User.Username (f u) = User.Username u) ->
     positions_kept d (set_users (update_user userID f) d))
  /\ (forall (t : Trade.t) d,
        positions_kept d
          (set_trades (fun rows => if existsb (same_trade t) rows then rows else rows ++ [t]) d))
  /\ (forall s d, PnlSnapshot.UserID s = userID ->
        positions_kept d (set_pnl_snapshots (fun rows => rows ++ [s]) d)).
Proof. repeat split. Qed.

Lemma syncAddress_positions env userID address fetched w :
  healthy env ->
  GetPositions env address = Ok fetched ->
  positions (db (syncAddress env userID address w).2)
  = upsert_all env userID address fetched (positions (db w)).
Proof.
  intros Hh Hfetch. unfold syncAddress.
  erewrite bind_ok; [|reflexivity].
  erewrite bind_ok; [|apply wrap_ok, http_ok; exact Hfetch].
  match goal with |- context [bind (store_positions env userID address fetched) ?k ?w0] =>
    destruct (store_positions_healthy env userID address fetched w0 Hh) as [H1 H2];
    destruct (store_positions env userID address fetched w0) as [r w1] eqn:Es;
    simpl in H1, H2; subst r; rewrite (bind_ok _ k w0 tt w1 Es) end.
  cbn [db] in H2. rewrite <- H2.
  destruct (positions_kept_writes userID) as (_ & Hins & _).
  match goal with |- positions (db (?rest w1).2) = _ =>
    assert (Hk : keeps positions_kept rest) end.
  { apply keeps_bind; [exact _|apply keeps_wrap, keeps_http; exact _|]. intros trades.
    apply keeps_bind; [exact _| |].
    { apply (keeps_store_trades _ env userID). intros a tr d t _. apply Hins. }
    intros _.
    apply keeps_bind; [exact _|apply keeps_log; exact _|]. intros _. apply keeps_ret; exact _. }
  apply Hk.
Qed.

Lemma sync_addresses_cons env userID username address rest totals w :
  sync_addresses env userID username (address :: rest) totals w
  = match syncAddress env userID address w with
    | (Ok (positions, trades), w1) =>
        sync_addresses env userID username rest (totals.1 + positions, totals.2 + trades) w1
    | (Err _, w1) =>
        sync_addresses env userID username rest totals
          (mkWorld (db w1) (events w1)
             (logs w1 ++ [mkLog Error "failed to sync address" address]))
    end.
Proof.
  simpl. unfold bind at 1. unfold try.
  destruct (syncAddress env userID address w) as [[[positions trades]|e] w1]; reflexivity.
Qed.

Lemma sync_addresses_positions env userID username
    (fetched : string -> list PositionResponse.t) addresses : forall totals w,
  healthy env ->
  (forall a, a ∈ addresses -> GetPositions env a = Ok (fetched a)) ->
  (exists totals', (sync_addresses env userID username addresses totals w).1 = Ok totals')
  /\ positions (db (sync_addresses env userID username addresses totals w).2)
     = fold_left (fun rows a => upsert_all env userID a (fetched a) rows) addresses
         (positions (db w)).
Proof.
  induction addresses as [|address rest IH]; intros totals w Hh Hfetch; [simpl; eauto|].
  pose proof (syncAddress_positions env userID address (fetched address) w Hh
                (Hfetch address ltac:(apply elem_of_cons; auto))) as Hpos.
  assert (Hrest : forall a, a ∈ rest -> GetPositions env a = Ok (fetched a)).
  { intros a Ha. apply Hfetch. apply elem_of_cons. auto. }
  rewrite sync_addresses_cons. cbn [fold_left].
  destruct (syncAddress env userID address w) as [[[positions trades]|e] w1]; simpl in Hpos;
    rewrite <- Hpos.
  - apply IH; assumption.
  - apply (IH totals (mkWorld (db w1) (events w1) _)); assumption.
Qed.

(** X11. With a healthy database, when the positions of every address of
    the account are fetched, the sync of the account returns without
    error and leaves as the cached positions of the account exactly the
    fetched rows, upserted address by address in the order of the
    response on an empty cache: none of the positions cached before
    survives, whether or not the trades could be fetched. *)
Theorem sync_stores_the_upstream_positions
    (env : Env) (username : string) (addresses : list string) (w : World) (user : User.t)
    (fetched : string -> list PositionResponse.t) :
  healthy env ->
  find_user username (db w) = Some user ->
  (forall a, a ∈ addresses -> GetPositions env a = Ok (fetched a)) ->
  (syncUser env username addresses w).1 = Ok tt
  /\ user_positions (User.ID user) (db (syncUser env username addresses w).2)
     = fold_left (fun rows a => upsert_all env (User.ID user) a (fetched a) rows) addresses [].
Proof.
  intros Hh Hfind Hfetch. unfold syncUser.
  erewrite bind_ok; [|reflexivity].
  erewrite bind_ok; [|apply wrap_ok, GetUser_found; [apply Hh|exact Hfind]].
  set (w2 := mkWorld _ _ _).
  destruct (sync_profile_phase env user username addresses w2) as (name & Hp1 & _).
  destruct (sync_profile env user username addresses w2) as [rp w3] eqn:Ep.
  simpl in Hp1. subst rp. erewrite bind_ok; [|exact Ep].
  destruct (sync_official_pnl_phase env user username name addresses w3) as (Ho1 & _).
  destruct (sync_official_pnl env user username name addresses w3) as [ro w4] eqn:Eo.
  simpl in Ho1. subst ro. erewrite bind_ok; [|exact Eo].
  erewrite bind_ok; [|apply wrap_ok; unfold DeleteUserPositions; apply exec_accepted, Hh].
  set (w5 := mkWorld _ _ _).
  destruct (sync_addresses_positions env (User.ID user) username fetched addresses (0, 0) w5
              Hh Hfetch) as ([totals Ha1] & Ha2).
  destruct (sync_addresses env (User.ID user) username addresses (0, 0) w5) as [ra w6] eqn:Ea.
  simpl in Ha1, Ha2. subst ra. erewrite bind_ok; [|exact Ea].
  erewrite bind_ok; [|apply or_log_world].
  erewrite bind_ok; [|apply wrap_ok; unfold UpdateUserLastSynced; apply exec_accepted, Hh].
  split; [reflexivity|].
  unfold log. cbn [fst snd db]. unfold user_positions. simpl.
  assert (Hsnap : positions (match (takePnlSnapshot env (User.ID user) w6).1 with
                             | Ok _ => db (takePnlSnapshot env (User.ID user) w6).2
                             | Err _ => db (takePnlSnapshot env (User.ID user) w6).2
                             end) = positions (db w6)).
  { destruct (positions_kept_writes (User.ID user)) as (_ & _ & Hs).
    pose proof (keeps_takePnlSnapshot positions_kept env (User.ID user) Hs w6) as Hk.
    destruct (takePnlSnapshot env (User.ID user) w6).1; exact Hk. }
  match goal with |- filter _ (positions ?d) = _ =>
    replace (positions d) with (positions (db w6)) end.
  2:{ destruct (takePnlSnapshot env (User.ID user) w6) as [[[]|e] w7]; simpl in *;
        symmetry; exact Hsnap. }
  rewrite Ha2. subst w5. cbn [db]. unfold set_positions. simpl.
  assert (Hgen : forall l rows,
    filter (fun p => Position.UserID p = User.ID user)
      (fold_left (fun rows a => upsert_all env (User.ID user) a (fetched a) rows) l rows)
    = fold_left (fun rows a => upsert_all env (User.ID user) a (fetched a) rows) l
        (filter (fun p => Position.UserID p = User.ID user) rows)).
  { induction l as [|a l IH]; intros rows; simpl; [reflexivity|].
    rewrite IH, filter_upsert_all. reflexivity. }
  rewrite Hgen. f_equal.
  apply (user_positions_deleted (User.ID user) (positions (db w4))
           (set_positions (fun _ => filter (fun p => Position.UserID p ≠ User.ID user)
                                      (positions (db w4))) (db w4))).
  reflexivity.
Qed.

Lemma sync_stores_the_upstream_positions_witness :
  (syncUser upstream_up "alice" ["0xabc"%string] sample_world).1 = Ok tt
  /\ user_positions 1 (db (syncUser upstream_up "alice" ["0xabc"%string] sample_world).2)
     = fold_left
         (fun rows a =>
            upsert_all upstream_up 1 a
              (match GetPositions upstream_up a with Ok fetched => fetched | Err _ => [] end)
              rows)
         ["0xabc"%string] [].
Proof.
  apply (sync_stores_the_upstream_positions upstream_up "alice" ["0xabc"%string] sample_world
           alice
           (fun a => match GetPositions upstream_up a with Ok fetched => fetched | Err _ => [] end)).
  - intros s. reflexivity.
  - reflexivity.
  - intros a Ha. apply list_elem_of_singleton in Ha. subst a. reflexivity.
Defined.

(** ** The conflict key of the positions table *)

Lemma same_position_key p q : same_position p q = true <-> position_key p = position_key q.
Proof.
  unfold same_position, position_key. rewrite !andb_true_iff, Z.eqb_eq, !String.eqb_eq.
  split.
  - intros [[[-> ->] ->] ->]. reflexivity.
  - intros [= -> -> -> ->]. auto.
Qed.

Lemma upsert_position_keys pos rows :
  (position_key pos ∈ map position_key rows ->
   map position_key (upsert_position pos rows) = map position_key rows)
  /\ (position_key pos ∉ map position_key rows ->
      upsert_position pos rows = rows ++ [pos]).
Proof.
  induction rows as [|p rest [IH1 IH2]]; simpl.
  - split; [intros H; inversion H|reflexivity].
  - destruct (same_position p pos) eqn:E.
    + apply same_position_key in E. split.
      * intros _. simpl. congruence.
      * intros H. exfalso. apply H. rewrite E. apply elem_of_cons. auto.
    + assert (Hne : position_key p <> position_key pos).
      { intros H. apply same_position_key in H. congruence. }
      split.
      * intros H. apply elem_of_cons in H as [H|H]; [congruence|].
        simpl. rewrite IH1 by exact H. reflexivity.
      * intros H. rewrite IH2; [reflexivity|].
        intros Hin. apply H. apply elem_of_cons. auto.
Qed.

Lemma upsert_position_NoDup pos rows :
  NoDup (map position_key rows) -> NoDup (map position_key (upsert_position pos rows)).
Proof.
  intros Hnd. destruct (upsert_position_keys pos rows) as [H1 H2].
  destruct (decide (position_key pos ∈ map position_key rows)) as [Hin|Hin].
  - rewrite H1 by exact Hin. exact Hnd.
  - rewrite H2 by exact Hin. rewrite map_app. simpl.
    apply NoDup_app. split; [exact Hnd|]. split.
    + intros k Hk Hk'. apply list_elem_of_singleton in Hk'. subst k. contradiction.
    + apply NoDup_singleton.
Qed.

Lemma upsert_position_elem pos rows q :
  NoDup (map position_key rows) ->
  q ∈ upsert_position pos rows
  <-> q = pos \/ (q ∈ rows /\ position_key q <> position_key pos).
Proof.
  induction rows as [|p rest IH]; intros Hnd; simpl.
  - rewrite list_elem_of_singleton. split; [auto|]. intros [H|[H _]]; [exact H|inversion H].
  - simpl in Hnd. apply NoDup_cons in Hnd as [Hp Hnd].
    destruct (same_position p pos) eqn:E.
    + apply same_position_key in E. rewrite !elem_of_cons. split.
      * intros [->|Hq]; [auto|]. right. split; [auto|].
        intros Hk. apply Hp. rewrite E, <- Hk. apply list_elem_of_fmap. eauto.
      * intros [->|[[->|Hq] Hne]]; auto. congruence.
    + assert (Hne : position_key p <> position_key pos).
      { intros H. apply same_position_key in H. congruence. }
      rewrite !elem_of_cons, (IH Hnd). split.
      * intros [->|[->|[Hq Hk]]]; auto.
      * intros [->|[[->|Hq] Hk]]; auto.
Qed.

(** X12. [UpsertPosition] keeps one row per conflict key (account,
    address, condition id, asset): on a table without duplicate keys an
    accepted upsert leaves a table without duplicate keys that holds the
    new row and every old row with another key, and nothing else; a row
    with the key of the new row is replaced in place, otherwise the new
    row is appended. *)
Theorem upsert_keeps_one_row_per_key (env : Env) (pos : Position.t) (w : World) :
  sql_error env (UpsertPositionRow pos) = None ->
  NoDup (map position_key (positions (db w))) ->
  let rows := positions (db w) in
  let rows' := positions (db (UpsertPosition env pos w).2) in
  NoDup (map position_key rows')
  /\ (forall q, q ∈ rows' <-> q = pos \/ (q ∈ rows /\ position_key q <> position_key pos))
  /\ (position_key pos ∈ map position_key rows ->
      map position_key rows' = map position_key rows)
  /\ (position_key pos ∉ map position_key rows -> rows' = rows ++ [pos]).
Proof.
  intros Hs Hnd. cbv zeta. unfold UpsertPosition.
  rewrite (exec_accepted env _ _ _ w Hs). cbn [snd db]. unfold set_positions. simpl.
  split; [apply upsert_position_NoDup; exact Hnd|].
  split; [intros q; apply upsert_position_elem; exact Hnd|].
  apply upsert_position_keys.
Qed.

Lemma upsert_keeps_one_row_per_key_witness :
  sql_error upstream_down (UpsertPositionRow open_position) = None
  /\ NoDup (map position_key (positions (db sample_world)))
  /\ NoDup (map position_key
              (positions (db (UpsertPosition upstream_down open_position sample_world).2))).
Proof.
  assert (H : NoDup (map position_key (positions (db sample_world)))).
  { simpl. apply NoDup_singleton. }
  split; [reflexivity|]. split; [exact H|].
  exact (proj1 (upsert_keeps_one_row_per_key upstream_down open_position sample_world
                  eq_refl H)).
Defined.

#[local] Instance positions_table_kept_preorder : PreOrder positions_table_kept.
Proof. split; [intros d H; exact H|]. intros a b c H1 H2 H. auto. Qed.

Lemma filter_keys_NoDup (P : Position.t -> Prop) `{!forall p, Decision (P p)}
    (rows : list Position.t) :
  NoDup (map position_key rows) -> NoDup (map position_key (filter P rows)).
Proof.
  induction rows as [|p rest IH]; intros Hnd; [constructor|].
  simpl in Hnd. apply NoDup_cons in Hnd as [Hp Hnd].
  rewrite filter_cons. destruct (decide (P p)); [|apply IH; exact Hnd].
  simpl. apply NoDup_cons. split; [|apply IH; exact Hnd].
  intros Hin. apply Hp. apply list_elem_of_fmap in Hin as (q & Hk & Hq).
  apply list_elem_of_filter in Hq as [_ Hq]. apply list_elem_of_fmap. eauto.
Qed.

(** X13. A sync cycle keeps one cached position per conflict key: if no
    two rows of the positions table share their account, address,
    condition id and asset before the cycle, none do after it, whatever
    the upstream API returns, repeated rows included. *)
Theorem sync_keeps_one_position_per_key
    (env : Env) (users : list (string * list string)) (w : World) :
  NoDup (map position_key (positions (db w))) ->
  NoDup (map position_key (positions (db (syncAll env users w).2))).
Proof.
  apply (syncAll_keeps positions_table_kept env users).
  intros username addresses w0.
  set (userID := match find_user username (db w0) with Some u => User.ID u | None => 0 end).
  apply (syncUser_frame positions_table_kept env userID).
  - intros f d _ H. exact H.
  - intros d H. simpl. apply filter_keys_NoDup. exact H.
  - intros pos d _ H. simpl. apply upsert_position_NoDup. exact H.
  - intros address trade d t _ H. exact H.
  - intros s d _ H. exact H.
  - intros user Hu. subst userID. rewrite Hu. reflexivity.
Qed.

Lemma sync_keeps_one_position_per_key_witness :
  NoDup (map position_key (positions (db sample_world)))
  /\ NoDup (map position_key
              (positions (db (syncAll upstream_up sample_accounts sample_world).2))).
Proof.
  assert (H : NoDup (map position_key (positions (db sample_world)))).
  { simpl. apply NoDup_singleton. }
  split; [exact H|].
  exact (sync_keeps_one_position_per_key upstream_up sample_accounts sample_world H).
Defined.

(** ** The snapshot at the end of a sync *)

(** X14. [takePnlSnapshot] appends one snapshot or nothing: when it
    returns, the database is the one it was called on followed by a single
    snapshot of the account, stamped with the current time, whose figures
    are those of an account of the database, tied by the operation that
    computes them (without an official PnL the total is the realized plus
    the unrealized PnL, with one the total is the official PnL and the
    realized PnL is the total minus the unrealized PnL); when it fails,
    at whatever step, the database is unchanged. *)
Theorem sync_snapshot_is_balanced_or_absent (env : Env) (userID : Z) (w : World) :
  match (takePnlSnapshot env userID w).1 with
  | Ok _ =>
      exists total realized unrealized user,
        db (takePnlSnapshot env userID w).2
        = with_snapshots
            [PnlSnapshot.mk userID (Now env) (Some total) (Some realized) (Some unrealized)]
            (db w)
        /\ user ∈ users (db w)
        /\ unrealized = sum_unrealized (user_positions (User.ID user) (db w))
        /\ match User.OfficialPnl user with
           | Some official => total = official /\ realized = (total - unrealized)%Q
           | None => total = (realized + unrealized)%Q
           end
  | Err _ => db (takePnlSnapshot env userID w).2 = db w
  end.
Proof.
  destruct (takePnlSnapshot env userID w) as [res w'] eqn:E. cbn [fst snd].
  unfold takePnlSnapshot in E. unfold bind at 1 in E.
  assert (H1 : reads (fun d rows => rows = merge_sort by_username (users d))
                 (wrap "failed to get users" (GetUsers env))).
  { apply reads_wrap. unfold GetUsers. apply reads_query. }
  destruct (H1 w) as [Hdb1 _].
  destruct (wrap "failed to get users" (GetUsers env) w) as [[rows|e] w1]; simpl in Hdb1;
    [|injection E as <- <-; exact Hdb1].
  match type of E with context [String.eqb ?u ""] => destruct (String.eqb u "") eqn:Eu end.
  { injection E as <- <-. exact Hdb1. }
  unfold bind at 1 in E.
  match type of E with
    context [wrap "failed to get user stats" (GetUserStats env ?u) w1] =>
    destruct (reads_wrap _ "failed to get user stats" _ (reads_GetUserStats env u) w1)
      as [Hdb2 Hpost];
    destruct (wrap "failed to get user stats" (GetUserStats env u) w1) as [[stats|e] w2]
  end; simpl in Hdb2, Hpost; [|injection E as <- <-; congruence].
  destruct (Hpost stats eq_refl) as (user & Huser & Hstats).
  unfold wrap, InsertPnlSnapshot, exec, bind, emit, read_db, write_db, fail in E.
  simpl in E.
  destruct (sql_error env _); simpl in E; injection E as <- <-; [simpl; congruence|].
  exists (UserStats.TotalPnl stats), (UserStats.RealizedPnl stats),
    (UserStats.UnrealizedPnl stats), user.
  split; [unfold with_snapshots; simpl; congruence|].
  rewrite Hdb1 in Huser, Hstats.
  split; [exact (proj1 (find_user_elem _ _ _ Huser))|].
  rewrite Hstats. unfold stats_of.
  cbn [UserStats.TotalPnl UserStats.RealizedPnl UserStats.UnrealizedPnl].
  split; [reflexivity|].
  destruct (User.OfficialPnl user); simpl; auto.
Qed.

(** ** The bulk insert and the backfill of an account *)

(** X15. [BulkInsertPnlSnapshots] is all or nothing, and succeeds exactly
    when the driver accepts every statement of the transaction: for an
    empty list it returns at once without a statement; otherwise, if the
    begin, the prepare, every insert and the commit are accepted, all the
    snapshots are appended in order, and if any of them is rejected it
    fails and the database is unchanged. *)
Theorem bulk_insert_is_all_or_nothing
    (env : Env) (snapshots : list PnlSnapshot.t) (w : World) :
  let r := BulkInsertPnlSnapshots env snapshots w in
  (snapshots = [] -> r = (Ok tt, w))
  /\ (bulk_insert_accepted env snapshots ->
      r.1 = Ok tt /\ db r.2 = with_snapshots snapshots (db w))
  /\ (snapshots <> [] -> ~ bulk_insert_accepted env snapshots ->
      (exists e, r.1 = Err e) /\ db r.2 = db w).
Proof. exact (BulkInsertPnlSnapshots_outcome env snapshots w). Qed.

Lemma bulk_insert_is_all_or_nothing_witness :
  bulk_insert_accepted upstream_down [stale_snapshot]
  /\ db (BulkInsertPnlSnapshots upstream_down [stale_snapshot] sample_world).2
     = with_snapshots [stale_snapshot] (db sample_world).
Proof.
  assert (H : bulk_insert_accepted upstream_down [stale_snapshot]).
  { unfold bulk_insert_accepted. repeat split. repeat constructor. }
  split; [exact H|].
  exact (proj2 (proj1 (proj2 (bulk_insert_is_all_or_nothing upstream_down [stale_snapshot]
                                sample_world)) H)).
Defined.

#[local] Instance only_snapshots_of_preorder userID : PreOrder (only_snapshots_of userID).
Proof.
  split.
  - intros d. unfold only_snapshots_of. auto.
  - intros a b c (H1 & H2 & H3 & H4 & H5) (G1 & G2 & G3 & G4 & G5).
    unfold only_snapshots_of. repeat split; try congruence.
    intros other Hne. rewrite (G5 other Hne). apply H5. exact Hne.
Qed.

Lemma BackfillUser_frame env username w :
  only_snapshots_of
    (match find_user username (db w) with Some u => User.ID u | None => 0 end)
    (db w) (db (BackfillUser env username w).2).
Proof.
  set (userID := match find_user username (db w) with Some u => User.ID u | None => 0 end).
  unfold BackfillUser. unfold bind at 1. unfold log at 1. cbv beta iota.
  set (w0 := mkWorld (db w) (events w) (logs w ++ [mkLog Info "starting backfill" username])).
  unfold bind at 1.
  destruct (reads_wrap _ "failed to get user" _ (reads_GetUser env username) w0)
    as [Hdb Hpost].
  destruct (wrap "failed to get user" (GetUser env username) w0) as [[user|e] w1];
    simpl in Hdb, Hpost.
  2:{ simpl. rewrite Hdb. reflexivity. }
  specialize (Hpost user eq_refl). change (db w0) with (db w) in Hpost, Hdb.
  assert (Hid : User.ID user = userID) by (subst userID; rewrite Hpost; reflexivity).
  rewrite <- Hdb.
  match goal with |- only_snapshots_of _ _ (db (?rest w1).2) =>
    assert (Hk : keeps (only_snapshots_of userID) rest) end.
  { apply keeps_bind; try exact _.
    { apply keeps_wrap; try exact _. unfold GetUserTradesChronological.
      apply keeps_query. exact _. }
    intros history. destruct history as [|t0 rest0] eqn:Eh; [apply keeps_ret; exact _|].
    rewrite <- Eh. clear Eh. rewrite Hid.
    apply keeps_bind; try exact _.
    { apply keeps_wrap; try exact _. apply keeps_exec; try exact _.
      intros d. unfold only_snapshots_of. simpl. repeat split.
      intros other Hne. apply (user_snapshots_without_other userID other d Hne). }
    intros _. apply keeps_bind; try exact _.
    { apply keeps_wrap; try exact _. apply keeps_BulkInsertPnlSnapshots; try exact _.
      intros s d Hs. unfold only_snapshots_of. simpl. repeat split.
      intros other Hne.
      apply (user_snapshots_with_other userID other [s] d Hne).
      constructor; [|constructor].
      pose proof (backfill_snapshots_user userID history) as Hall.
      rewrite Forall_forall in Hall. apply Hall. exact Hs. }
    intros _. apply keeps_bind; try exact _; [apply keeps_log; exact _|].
    intros _. apply keeps_ret. exact _. }
  apply Hk.
Qed.

Lemma backfill_touches_own_frame env username w :
  users (db (BackfillUser env username w).2) = users (db w)
  /\ trades (db (BackfillUser env username w).2) = trades (db w).
Proof.
  destruct (BackfillUser_frame env username w) as (H1 & _ & _ & H4 & _). auto.
Qed.

(** X16. A backfill touches the snapshots of its own account only:
    whatever the driver answers and however the backfill ends, the users,
    addresses, positions and trades are unchanged, and so are the
    snapshots of every other account. *)
Theorem backfill_touches_snapshots_of_its_account_only
    (env : Env) (username : string) (w : World) :
  let d' := db (BackfillUser env username w).2 in
  users d' = users (db w) /\ addresses d' = addresses (db w)
  /\ positions d' = positions (db w) /\ trades d' = trades (db w)
  /\ forall user other,
       find_user username (db w) = Some user -> other <> User.ID user ->
       user_snapshots other d' = user_snapshots other (db w).
Proof.
  cbv zeta.
  set (userID := match find_user username (db w) with Some u => User.ID u | None => 0 end).
  pose proof (BackfillUser_frame env username w) as H. fold userID in H.
  destruct H as (H1 & H2 & H3 & H4 & H5). repeat split; try assumption.
  intros user other Hu Hne. apply H5. subst userID. rewrite Hu. exact Hne.
Qed.

Lemma backfill_touches_snapshots_of_its_account_only_witness :
  trades (db (BackfillUser commit_fails "alice" sample_world).2) = trades (db sample_world)
  /\ user_snapshots 2 (db (BackfillUser commit_fails "alice" sample_world).2)
     = user_snapshots 2 (db sample_world).
Proof.
  destruct (backfill_touches_snapshots_of_its_account_only commit_fails "alice" sample_world)
    as (_ & _ & _ & H4 & H5).
  split; [exact H4|]. apply (H5 alice 2); [reflexivity|discriminate].
Defined.

Lemma BackfillUser_healthy env username w user :
  healthy env ->
  find_user username (db w) = Some user ->
  let history := trades_chronological (User.ID user) (db w) in
  let new := backfill_snapshots (User.ID user) history in
  let st := Backfill.run history in
  (history = [] ->
   (BackfillUser env username w).1 = Ok (zero_result username)
   /\ db (BackfillUser env username w).2 = db w)
  /\ (history <> [] ->
      (BackfillUser env username w).1
      = Ok (Result.mk username (Z.of_nat (length history)) (Z.of_nat (length new))
              (Backfill.cumulativeRealizedPnl st)
              (Backfill.oldestDate st) (Backfill.newestDate st))
      /\ db (BackfillUser env username w).2
         = with_snapshots new (without_snapshots (User.ID user) (db w))).
Proof.
  intros Hh Hfind. cbv zeta. split.
  - intros Hnone. unfold BackfillUser.
    erewrite bind_ok; [|reflexivity].
    erewrite bind_ok; [|apply wrap_ok, GetUser_found; [apply Hh|exact Hfind]].
    erewrite bind_ok; [|apply wrap_ok, GetUserTradesChronological_accepted; apply Hh].
    cbn [db events logs]. rewrite Hnone. split; reflexivity.
  - intros Hne.
    pose proof (BackfillUser_replacement env username w user (Hh _) (Hh _) Hfind Hne) as H.
    cbv zeta in H. rewrite (Hh (DeletePnlSnapshots (User.ID user))) in H.
    destruct H as [H|(_ & _ & Hno)]; [exact H|]. contradiction.
Qed.

Lemma without_with_snapshots userID snapshots d :
  Forall (fun s => PnlSnapshot.UserID s = userID) snapshots ->
  without_snapshots userID (with_snapshots snapshots (without_snapshots userID d))
  = without_snapshots userID d.
Proof.
  intros Hall. unfold without_snapshots, with_snapshots, set_pnl_snapshots. simpl. f_equal.
  rewrite filter_app.
  replace (filter (fun s => PnlSnapshot.UserID s ≠ userID) snapshots)
    with (@nil PnlSnapshot.t).
  - rewrite app_nil_r. apply list_filter_filter_l. auto.
  - induction Hall as [|s l Hs _ IH]; [reflexivity|].
    rewrite filter_cons. destruct (decide (PnlSnapshot.UserID s ≠ userID)); [contradiction|].
    exact IH.
Qed.

(** X17. With a healthy database a backfill is idempotent: running it a
    second time on the database that the first run left returns the same
    result and leaves the same database, so that the snapshot history of
    an account depends on its trades only and not on how often it was
    rebuilt. *)
Theorem backfill_twice_is_backfill_once
    (env : Env) (username : string) (w : World) (user : User.t) :
  healthy env ->
  find_user username (db w) = Some user ->
  let once := BackfillUser env username w in
  let twice := BackfillUser env username once.2 in
  twice.1 = once.1 /\ db twice.2 = db once.2.
Proof.
  intros Hh Hfind. cbv zeta.
  destruct (backfill_touches_own_frame env username w) as (Hu & Ht).
  assert (Hfind1 : find_user username (db (BackfillUser env username w).2) = Some user).
  { unfold find_user. rewrite Hu. exact Hfind. }
  assert (Hhist : trades_chronological (User.ID user) (db (BackfillUser env username w).2)
                  = trades_chronological (User.ID user) (db w)).
  { unfold trades_chronological, user_trades. rewrite Ht. reflexivity. }
  destruct (BackfillUser_healthy env username w user Hh Hfind) as [Hnil Hcons].
  destruct (BackfillUser_healthy env username _ user Hh Hfind1) as [Hnil1 Hcons1].
  cbv zeta in Hnil, Hcons, Hnil1, Hcons1. rewrite Hhist in Hnil1, Hcons1.
  destruct (trades_chronological (User.ID user) (db w)) as [|t0 rest] eqn:Eh.
  - destruct (Hnil eq_refl) as [H1 H2]. destruct (Hnil1 eq_refl) as [G1 G2].
    split; congruence.
  - assert (Hne : t0 :: rest <> []) by discriminate.
    destruct (Hcons Hne) as [H1 H2]. destruct (Hcons1 Hne) as [G1 G2].
    split; [congruence|]. rewrite G2, H2.
    rewrite without_with_snapshots by apply backfill_snapshots_user. reflexivity.
Qed.

Lemma backfill_twice_is_backfill_once_witness :
  healthy upstream_down
  /\ db (BackfillUser upstream_down "alice"
           (BackfillUser upstream_down "alice" sample_world).2).2
     = db (BackfillUser upstream_down "alice" sample_world).2.
Proof.
  assert (H : healthy upstream_down) by (intros s; reflexivity).
  split; [exact H|].
  exact (proj2 (backfill_twice_is_backfill_once upstream_down "alice" sample_world alice
                  H eq_refl)).
Defined.

(** ** The leaderboard *)

Lemma find_user_of_row d u :
  u ∈ users d -> exists user, find_user (User.Username u) d = Some user.
Proof.
  intros Hin. unfold find_user.
  destruct (List.find (fun x => String.eqb (User.Username x) (User.Username u)) (users d))
    as [user|] eqn:E; [eauto|].
  exfalso. apply list_elem_of_In in Hin.
  pose proof (List.find_none _ _ E u Hin) as H. simpl in H.
  rewrite String.eqb_refl in H. discriminate H.
Qed.

Lemma leaderboard_loop_cons env u rest leaderboard w :
  leaderboard_loop env (u :: rest) leaderboard w
  = match GetUserStats env (User.Username u) w with
    | (Ok stats, w1) => leaderboard_loop env rest (leaderboard ++ [stats]) w1
    | (Err _, w1) =>
        leaderboard_loop env rest leaderboard
          (mkWorld (db w1) (events w1)
             (logs w1 ++ [mkLog Error "failed to get user stats" (User.Username u)]))
    end.
Proof.
  simpl. unfold bind at 1. unfold try.
  destruct (GetUserStats env (User.Username u) w) as [[stats|e] w1]; reflexivity.
Qed.

Lemma leaderboard_loop_rows env rows : forall leaderboard w,
  db (leaderboard_loop env rows leaderboard w).2 = db w
  /\ exists new,
       (leaderboard_loop env rows leaderboard w).1 = Ok (leaderboard ++ new)
       /\ map UserStats.Username new `sublist_of` map User.Username rows
       /\ Forall (fun stats => exists user,
                    find_user (UserStats.Username stats) (db w) = Some user
                    /\ stats = stats_of (UserStats.Username stats) user (db w)) new
       /\ (healthy env -> Forall (fun u => u ∈ users (db w)) rows ->
           map UserStats.Username new = map User.Username rows).
Proof.
  induction rows as [|u rest IH]; intros leaderboard w.
  - simpl. split; [reflexivity|]. exists []. rewrite app_nil_r. repeat split; auto.
  - rewrite leaderboard_loop_cons.
    destruct (reads_GetUserStats env (User.Username u) w) as [Hdb Hpost].
    pose proof (GetUserStats_healthy env (User.Username u) w) as Hhealthy.
    destruct (GetUserStats env (User.Username u) w) as [[stats|e] w1]; simpl in Hdb, Hpost.
    + destruct (IH (leaderboard ++ [stats]) w1) as (Hdb1 & new & Hok & Hsub & Hall & Htotal).
      split; [congruence|]. exists (stats :: new).
      destruct (Hpost stats eq_refl) as (user & Hu & Hs).
      assert (Hname : UserStats.Username stats = User.Username u) by (rewrite Hs; reflexivity).
      split; [rewrite Hok, <- app_assoc; reflexivity|]. split; [|split].
      * simpl. rewrite Hname. constructor. exact Hsub.
      * constructor.
        -- exists user. rewrite Hname. split; [exact Hu|]. exact Hs.
        -- rewrite <- Hdb. exact Hall.
      * intros Hh Hin. apply Forall_cons in Hin as [Hu0 Hrest].
        simpl. rewrite Hname. f_equal. apply Htotal; [exact Hh|]. rewrite Hdb. exact Hrest.
    + match goal with |- context [leaderboard_loop env rest leaderboard ?w2] =>
        destruct (IH leaderboard w2) as (Hdb1 & new & Hok & Hsub & Hall & Htotal) end.
      cbn [db] in Hdb1, Hall, Htotal.
      split; [congruence|]. exists new.
      split; [exact Hok|]. split; [|split].
      * simpl. constructor. exact Hsub.
      * rewrite <- Hdb. exact Hall.
      * intros Hh Hin. exfalso. apply Forall_cons in Hin as [Hu0 Hrest].
        destruct (find_user_of_row (db w) u Hu0) as (user & Hu).
        destruct (Hhealthy user Hh Hu) as (stats & Hokay & _). discriminate Hokay.
Qed.

(** X18. The leaderboard of the storage layer never writes and skips the
    accounts whose statistics cannot be computed instead of failing: when
    the users can be listed it returns, in the order of the usernames,
    the statistics of accounts of the database, each computed from the
    database as it is; with a healthy database no account is left out. It
    fails only when the users cannot be listed, and its sort arguments
    have no effect. *)
Theorem leaderboard_lists_accounts_by_username
    (env : Env) (sortBy sortDirection : string) (w : World) :
  let r := GetLeaderboard env sortBy sortDirection w in
  let names := map User.Username (merge_sort by_username (users (db w))) in
  db r.2 = db w
  /\ r = GetLeaderboard env "" "" w
  /\ (sql_error env SelectUsers <> None -> exists e, r.1 = Err e)
  /\ (sql_error env SelectUsers = None ->
      exists rows,
        r.1 = Ok rows
        /\ map UserStats.Username rows `sublist_of` names
        /\ Forall (fun stats => exists user,
                     find_user (UserStats.Username stats) (db w) = Some user
                     /\ stats = stats_of (UserStats.Username stats) user (db w)) rows
        /\ (healthy env -> map UserStats.Username rows = names)).
Proof.
  cbv zeta. unfold GetLeaderboard, GetUsers.
  split; [|split; [reflexivity|]].
  - destruct (sql_error env SelectUsers) as [e|] eqn:Es.
    + erewrite bind_err; [|apply query_rejected; exact Es]. reflexivity.
    + erewrite bind_ok; [|apply query_accepted; exact Es].
      match goal with |- context [leaderboard_loop env ?rows [] ?w1] =>
        destruct (leaderboard_loop_rows env rows [] w1) as [Hdb _] end.
      exact Hdb.
  - split.
    + intros Hrej. destruct (sql_error env SelectUsers) as [e|] eqn:Es; [|congruence].
      erewrite bind_err; [|apply query_rejected; exact Es]. simpl. eauto.
    + intros Es. erewrite bind_ok; [|apply query_accepted; exact Es].
      match goal with |- context [leaderboard_loop env ?rows [] ?w1] =>
        destruct (leaderboard_loop_rows env rows [] w1)
          as (_ & new & Hok & Hsub & Hall & Htotal) end.
      cbn [db] in Hall, Htotal.
      exists new. split; [exact Hok|]. split; [exact Hsub|]. split; [exact Hall|].
      intros Hh. apply Htotal; [exact Hh|].
      apply Forall_forall. intros u Hu. rewrite merge_sort_Permutation in Hu. exact Hu.
Qed.

Lemma leaderboard_lists_accounts_by_username_witness :
  exists rows,
    (GetLeaderboard upstream_down "totalPnl" "desc" sample_world).1 = Ok rows
    /\ map UserStats.Username rows = ["alice"%string; "bob"%string].
Proof.
  destruct (leaderboard_lists_accounts_by_username upstream_down "totalPnl" "desc"
              sample_world) as (_ & _ & _ & H).
  destruct (H eq_refl) as (rows & Hok & _ & _ & Htotal).
  exists rows. split; [exact Hok|].
  rewrite (Htotal (fun s => eq_refl)). vm_compute. reflexivity.
Defined.

(** ** The backfill endpoint *)

Lemma GetUser_outcome env username w :
  match sql_error env (SelectUser username), find_user username (db w) with
  | Some e, _ =>
      (GetUser env username w).1 = Err ("failed to query user: " ++ e)%string
  | None, None =>
      (GetUser env username w).1 = Err ("user not found: " ++ username)%string
  | None, Some user => (GetUser env username w).1 = Ok user
  end.
Proof.
  unfold GetUser, query, bind, emit, read_db, ret, fail. simpl.
  destruct (sql_error env (SelectUser username)); simpl; [reflexivity|].
  destruct (find_user username (db w)); reflexivity.
Qed.

(** The errors of [BackfillUser]: only a missing account gives the
    message that the endpoint looks for. *)
Lemma BackfillUser_error env username w e :
  (BackfillUser env username w).1 = Err e ->
  (e = ("failed to get user: user not found: " ++ username)%string
   <-> sql_error env (SelectUser username) = None /\ find_user username (db w) = None).
Proof.
  unfold BackfillUser. erewrite bind_ok; [|reflexivity].
  set (w0 := mkWorld _ _ _).
  pose proof (GetUser_outcome env username w0) as Hget. change (db w0) with (db w) in Hget.
  unfold bind at 1. unfold wrap at 1.
  destruct (GetUser env username w0) as [[user|e0] w1] eqn:Eg; simpl in Hget.
  - assert (Hfound : ~ (sql_error env (SelectUser username) = None
                        /\ find_user username (db w) = None)).
    { intros [H1 H2]. rewrite H1, H2 in Hget. discriminate Hget. }
    unfold bind at 1. unfold wrap at 1.
    destruct (GetUserTradesChronological env (User.ID user) w1) as [[history|e1] w2].
    2:{ simpl. intros [= <-]. split; [intros H; discriminate H|intros H; contradiction]. }
    destruct history as [|t0 rest]; [discriminate|].
    unfold bind at 1. unfold wrap at 1.
    destruct (DeleteUserPnlSnapshots env (User.ID user) w2) as [[[]|e2] w3].
    2:{ simpl. intros [= <-]. split; [intros H; discriminate H|intros H; contradiction]. }
    unfold bind at 1. unfold wrap at 1.
    destruct (BulkInsertPnlSnapshots env _ w3) as [[[]|e3] w4].
    2:{ simpl. intros [= <-]. split; [intros H; discriminate H|intros H; contradiction]. }
    discriminate.
  - simpl. intros [= <-].
    destruct (sql_error env (SelectUser username)) as [e1|].
    + injection Hget as ->. split; [intros H; discriminate H|intros [H _]; discriminate H].
    + destruct (find_user username (db w)); [discriminate Hget|].
      injection Hget as ->. split; auto.
Qed.

Lemma BackfillUserPnl_run env username w :
  BackfillUserPnl env username w
  = match BackfillUser env username
            (mkWorld (db w) (events w)
               (logs w ++ [mkLog Info "starting PnL backfill" username])) with
    | (Ok result, w1) =>
        (Ok (respondJSON 200
               (BackfillBody
                  (BackfillResult.mk (Result.Username result) (Result.TradesProcessed result)
                     (Result.SnapshotsCreated result) (Result.TotalRealizedPnl result)
                     (Result.OldestTradeDate result) (Result.NewestTradeDate result)))),
         w1)
    | (Err e, w1) =>
        (Ok (if String.eqb e ("failed to get user: user not found: " ++ username)
             then respondError 404 "User not found"
             else respondError 500 "Failed to backfill PnL"),
         mkWorld (db w1) (events w1)
           (logs w1 ++ [mkLog Error "failed to backfill PnL" username]))
    end.
Proof.
  unfold BackfillUserPnl, bind, try, log, ret. cbv beta iota.
  destruct (BackfillUser env username _) as [[result|e] w1]; [reflexivity|].
  cbv beta iota. destruct (String.eqb e _); reflexivity.
Qed.

(** X20. The backfill endpoint answers 200 with the figures of the
    result exactly when [BackfillUser] returns, 404 exactly when the
    lookup of the account is accepted by the driver and finds no such
    username (the database is then unchanged), and 500 for every other
    failure, a failed lookup included; it leaves the database as
    [BackfillUser] left it. *)
Theorem backfill_endpoint_status (env : Env) (username : string) (w : World) :
  let r := BackfillUserPnl env username w in
  let b := BackfillUser env username
             (mkWorld (db w) (events w)
                (logs w ++ [mkLog Info "starting PnL backfill" username])) in
  exists resp,
    r.1 = Ok resp
    /\ db r.2 = db b.2
    /\ (status resp = 200 \/ status resp = 404 \/ status resp = 500)
    /\ (status resp = 200 <->
        exists result,
          b.1 = Ok result
          /\ payload resp
             = BackfillBody
                 (BackfillResult.mk (Result.Username result) (Result.TradesProcessed result)
                    (Result.SnapshotsCreated result) (Result.TotalRealizedPnl result)
                    (Result.OldestTradeDate result) (Result.NewestTradeDate result)))
    /\ (status resp = 404 <->
        sql_error env (SelectUser username) = None /\ find_user username (db w) = None)
    /\ (status resp = 404 -> db r.2 = db w /\ payload resp = ErrorBody "User not found").
Proof.
  cbv zeta. rewrite BackfillUserPnl_run.
  set (w0 := mkWorld _ _ _).
  pose proof (BackfillUser_error env username w0) as Herr. change (db w0) with (db w) in Herr.
  pose proof (GetUser_outcome env username
                (mkWorld (db w0) (events w0)
                   (logs w0 ++ [mkLog Info "starting backfill" username]))) as Hget.
  destruct (GetUser_record env username
              (mkWorld (db w0) (events w0)
                 (logs w0 ++ [mkLog Info "starting backfill" username])))
    as (_ & _ & Hrec).
  cbn [db] in Hget, Hrec. change (db w0) with (db w) in Hget, Hrec.
  assert (Hrun : BackfillUser env username w0
                 = bind (wrap "failed to get user" (GetUser env username))
                     (fun user =>
                        trades <- wrap "failed to get trades"
                                    (GetUserTradesChronological env (User.ID user)) ;;
                        match trades with
                        | [] => ret (Result.mk username 0 0 0%Q None None)
                        | _ =>
                            wrap "failed to delete existing snapshots"
                              (DeleteUserPnlSnapshots env (User.ID user)) ;;;
                            wrap "failed to insert snapshots"
                              (BulkInsertPnlSnapshots env
                                 (backfill_snapshots (User.ID user) trades)) ;;;
                            log Info "backfill completed" username ;;;
                            ret (Result.mk username (Z.of_nat (length trades))
                                   (Z.of_nat (length (backfill_snapshots (User.ID user)
                                                        trades)))
                                   (Backfill.cumulativeRealizedPnl (Backfill.run trades))
                                   (Backfill.oldestDate (Backfill.run trades))
                                   (Backfill.newestDate (Backfill.run trades)))
                        end)
                     (mkWorld (db w0) (events w0)
                        (logs w0 ++ [mkLog Info "starting backfill" username]))).
  { reflexivity. }
  destruct (BackfillUser env username w0) as [[result|e] w1] eqn:Eb; cbn [fst snd] in *.
  - eexists. split; [reflexivity|]. split; [reflexivity|]. simpl.
    split; [auto|]. split; [split; [eauto|reflexivity]|].
    split; [split; [discriminate|]|discriminate].
    intros [H1 H2]. exfalso. rewrite H1, H2 in Hget.
    unfold bind at 1 in Hrun. unfold wrap at 1 in Hrun.
    destruct (GetUser env username _) as [[user|e0] w2]; simpl in Hget;
      [discriminate Hget|discriminate Hrun].
  - specialize (Herr e eq_refl).
    destruct (String.eqb e ("failed to get user: user not found: " ++ username)) eqn:Ee.
    + apply String.eqb_eq in Ee. apply Herr in Ee as Hmissing.
      eexists. split; [reflexivity|]. split; [reflexivity|]. simpl.
      split; [auto|]. split; [split; [discriminate|intros (? & H & _); discriminate H]|].
      split; [split; auto|]. intros _. split; [|reflexivity].
      destruct Hmissing as [H1 H2]. rewrite H1, H2 in Hget.
      unfold bind at 1 in Hrun. unfold wrap at 1 in Hrun.
      destruct (GetUser env username _) as [[user|e0] w2]; simpl in Hget;
        [discriminate Hget|].
      injection Hrun as _ ->. exact Hrec.
    + apply String.eqb_neq in Ee.
      eexists. split; [reflexivity|]. split; [reflexivity|]. simpl.
      split; [auto|]. split; [split; [discriminate|intros (? & H & _); discriminate H]|].
      split; [split; [discriminate|]|discriminate].
      intros H. exfalso. apply Ee. apply Herr. exact H.
Qed.

Lemma backfill_endpoint_status_witness :
  exists resp,
    (BackfillUserPnl upstream_down "mallory" sample_world).1 = Ok resp
    /\ status resp = 404
    /\ db (BackfillUserPnl upstream_down "mallory" sample_world).2 = db sample_world.
Proof.
  destruct (backfill_endpoint_status upstream_down "mallory" sample_world)
    as (resp & Hok & _ & _ & _ & H404 & Hdb).
  exists resp. split; [exact Hok|].
  assert (H : status resp = 404) by (apply H404; split; reflexivity).
  split; [exact H|]. exact (proj1 (Hdb H)).
Defined.

(** ** The configuration *)

Lemma first_error_None {A} (check : A -> option ConfigError) entries :
  first_error check entries = None <-> Forall (fun entry => check entry = None) entries.
Proof.
  induction entries as [|entry rest IH]; simpl.
  - split; [constructor|reflexivity].
  - rewrite Forall_cons. destruct (check entry); [split; [discriminate|intros [H _]; discriminate H]|].
    rewrite IH. tauto.
Qed.

Lemma first_empty_address_None addresses : forall i,
  first_empty_address addresses i = None <-> ""%string ∉ addresses.
Proof.
  induction addresses as [|addr rest IH]; intros i; simpl.
  - split; [intros _ H; inversion H|reflexivity].
  - rewrite not_elem_of_cons. destruct (String.eqb addr "") eqn:E.
    + apply String.eqb_eq in E. split; [discriminate|]. intros [H _]. congruence.
    + apply String.eqb_neq in E. rewrite IH. split; [auto|tauto].
Qed.

Lemma no_entries {K A} `{Countable K} (m : gmap K A) :
  (length (map_to_list m) =? 0)%nat = true <-> m = ∅.
Proof.
  rewrite Nat.eqb_eq. rewrite length_zero_iff_nil. apply map_to_list_empty_iff.
Qed.

Lemma account_check (mk1 : ConfigError) (mk2 : string -> ConfigError)
    (mk3 : string -> nat -> ConfigError) username addresses :
  (if String.eqb username "" then Some mk1
   else if (length addresses =? 0)%nat then Some (mk2 username)
   else match first_empty_address addresses 0 with
        | Some i => Some (mk3 username i)
        | None => None
        end) = None
  <-> wellformed_account username addresses.
Proof.
  unfold wellformed_account.
  destruct (String.eqb username "") eqn:E1.
  { apply String.eqb_eq in E1. split; [discriminate|]. intros [H _]. contradiction. }
  apply String.eqb_neq in E1.
  destruct (length addresses =? 0)%nat eqn:E2.
  { apply Nat.eqb_eq, length_zero_iff_nil in E2. split; [discriminate|].
    intros (_ & H & _). contradiction. }
  assert (Hne : addresses <> []).
  { intros ->. discriminate E2. }
  pose proof (first_empty_address_None addresses 0) as Hfirst.
  destruct (first_empty_address addresses 0).
  - split; [discriminate|]. intros (_ & _ & H). apply Hfirst in H. discriminate H.
  - split; [|reflexivity]. intros _. split; [exact E1|]. split; [exact Hne|].
    apply Hfirst. reflexivity.
Qed.

Lemma validate_user_None entry :
  validate_user entry = None <-> wellformed_account entry.1 entry.2.
Proof. destruct entry as [username addresses]. apply account_check. Qed.

Lemma validate_persona_user_None slug entry :
  validate_persona_user slug entry = None <-> wellformed_account entry.1 entry.2.
Proof.
  destruct entry as [username addresses].
  apply (account_check (PersonaEmptyUsername slug) (PersonaUserWithoutAddresses slug)
           (PersonaUserEmptyAddress slug)).
Qed.

Lemma accounts_checked (check : string * list string -> option ConfigError)
    (m : gmap string (list string)) :
  (forall entry, check entry = None <-> wellformed_account entry.1 entry.2) ->
  first_error check (map_to_list m) = None <-> map_Forall wellformed_account m.
Proof.
  intros Hcheck. rewrite first_error_None, map_Forall_to_list.
  apply Forall_iff. intros [username addresses]. apply Hcheck.
Qed.

Lemma validate_persona_None entry :
  validate_persona entry = None <-> wellformed_persona entry.1 entry.2.
Proof.
  destruct entry as [slug persona]. unfold validate_persona, wellformed_persona. simpl.
  destruct (String.eqb slug "") eqn:E1.
  { apply String.eqb_eq in E1. split; [discriminate|]. intros [H _]. contradiction. }
  apply String.eqb_neq in E1.
  destruct (String.eqb (PersonaConfig.DisplayName persona) "") eqn:E2.
  { apply String.eqb_eq in E2. split; [discriminate|]. intros (_ & H & _). contradiction. }
  apply String.eqb_neq in E2.
  destruct (length (map_to_list (PersonaConfig.Usernames persona)) =? 0)%nat eqn:E3.
  { apply no_entries in E3. split; [discriminate|]. intros (_ & _ & H & _). contradiction. }
  assert (Hne : PersonaConfig.Usernames persona <> ∅).
  { intros H. apply no_entries in H. congruence. }
  rewrite (accounts_checked _ _ (validate_persona_user_None slug)). tauto.
Qed.

Lemma Validate_None (c : Config.t) :
  Validate c = None <-> wellformed_config c.
Proof.
  unfold Validate, wellformed_config.
  destruct ((Config.Port c <=? 0) || (65535 <? Config.Port c)) eqn:E1.
  { split; [discriminate|]. intros (H & _).
    apply orb_true_iff in E1 as [E1|E1]; [apply Z.leb_le in E1|apply Z.ltb_lt in E1]; lia. }
  apply orb_false_iff in E1 as [E1a E1b]. apply Z.leb_gt in E1a. apply Z.ltb_ge in E1b.
  destruct (String.eqb (Config.Path c) "") eqn:E2.
  { apply String.eqb_eq in E2. split; [discriminate|]. intros (_ & H & _). contradiction. }
  apply String.eqb_neq in E2.
  destruct (Config.IntervalMinutes c <=? 0) eqn:E3.
  { apply Z.leb_le in E3. split; [discriminate|]. intros (_ & _ & H & _). lia. }
  apply Z.leb_gt in E3.
  destruct ((length (map_to_list (Config.Users c)) =? 0)%nat
            && (length (map_to_list (Config.Personas c)) =? 0)%nat) eqn:E4.
  { apply andb_true_iff in E4 as [E4a E4b]. apply no_entries in E4a, E4b.
    split; [discriminate|]. intros (_ & _ & _ & [H|H] & _); contradiction. }
  assert (Hsome : Config.Users c <> ∅ \/ Config.Personas c <> ∅).
  { apply andb_false_iff in E4 as [E4|E4]; [left|right]; intros H;
      apply no_entries in H; congruence. }
  pose proof (accounts_checked _ (Config.Users c) validate_user_None) as Husers.
  assert (Hpersonas : first_error validate_persona (map_to_list (Config.Personas c)) = None
                      <-> map_Forall wellformed_persona (Config.Personas c)).
  { rewrite first_error_None, map_Forall_to_list.
    apply Forall_iff. intros [slug persona]. apply validate_persona_None. }
  destruct (first_error validate_user (map_to_list (Config.Users c))).
  - split; [discriminate|]. intros (_ & _ & _ & _ & H & _). apply Husers in H. discriminate H.
  - rewrite Hpersonas. split.
    + intros H. split; [lia|]. split; [exact E2|]. split; [exact E3|].
      split; [exact Hsome|]. split; [apply Husers; reflexivity|exact H].
    + intros (_ & _ & _ & _ & _ & H). exact H.
Qed.

(** X21. [Validate] accepts exactly the well-formed configurations: a
    port between 1 and 65535, a database path, a positive sync interval,
    at least one legacy user or persona, every legacy user with a
    non-empty name and a non-empty list of non-empty addresses, and every
    persona with a non-empty slug and display name and at least one user,
    each of them well-formed; the order in which the maps are ranged over
    has no part in the verdict. *)
Theorem validate_accepts_exactly_the_wellformed (c : Config.t) :
  Validate c = None <-> wellformed_config c.
Proof. split; apply Validate_None. Qed.

Lemma add_users_union (entries : list (string * list string)) : forall allUsers,
  NoDup entries.*1 ->
  add_users allUsers entries = list_to_map entries ∪ allUsers.
Proof.
  unfold add_users. induction entries as [|[username addresses] rest IH]; intros allUsers Hnd.
  - simpl. rewrite (left_id_L ∅ (∪)). reflexivity.
  - simpl in Hnd. apply NoDup_cons in Hnd as [Hnew Hnd]. simpl. rewrite IH by exact Hnd.
    rewrite <- insert_union_l. symmetry. apply insert_union_r.
    apply not_elem_of_list_to_map_1. exact Hnew.
Qed.

Lemma add_users_map (m allUsers : gmap string (list string)) :
  add_users allUsers (map_to_list m) = m ∪ allUsers.
Proof.
  rewrite add_users_union by apply NoDup_fst_map_to_list.
  rewrite list_to_map_to_list. reflexivity.
Qed.

Lemma add_personas_lookup (personas : list (string * PersonaConfig.t)) username :
  forall allUsers,
  let result :=
    fold_left (fun acc persona =>
                 add_users acc (map_to_list (PersonaConfig.Usernames persona.2)))
      personas allUsers in
  (forall addresses, result !! username = Some addresses ->
     allUsers !! username = Some addresses
     \/ exists entry, entry ∈ personas
          /\ PersonaConfig.Usernames entry.2 !! username = Some addresses)
  /\ ((forall entry, entry ∈ personas ->
         PersonaConfig.Usernames entry.2 !! username = None) ->
      result !! username = allUsers !! username)
  /\ ((exists entry, entry ∈ personas
         /\ is_Some (PersonaConfig.Usernames entry.2 !! username)) ->
      exists entry, entry ∈ personas
        /\ is_Some (PersonaConfig.Usernames entry.2 !! username)
        /\ result !! username = PersonaConfig.Usernames entry.2 !! username).
Proof.
  induction personas as [|persona rest IH]; intros allUsers; cbv zeta; simpl.
  - split; [auto|]. split; [auto|]. intros (entry & H & _). inversion H.
  - rewrite add_users_map.
    destruct (IH (PersonaConfig.Usernames persona.2 ∪ allUsers)) as (IH1 & IH2 & IH3).
    cbv zeta in IH1, IH2, IH3. split; [|split].
    + intros addresses Hres. destruct (IH1 addresses Hres) as [Hbase|(entry & Hin & Hl)].
      * apply lookup_union_Some_raw in Hbase as [Hp|[_ Hb]]; [|auto].
        right. exists persona. split; [apply elem_of_cons; auto|exact Hp].
      * right. exists entry. split; [apply elem_of_cons; auto|exact Hl].
    + intros Hnone. rewrite IH2.
      * rewrite lookup_union_r; [reflexivity|]. apply Hnone. apply elem_of_cons. auto.
      * intros entry Hin. apply Hnone. apply elem_of_cons. auto.
    + intros (entry & Hin & Hsome).
      destruct (decide (Exists (fun e => is_Some (PersonaConfig.Usernames e.2 !! username))
                          rest)) as [Hlater|Hnot]; rewrite Exists_exists in *.
      * destruct (IH3 Hlater) as (e & He & Hs & Hl).
        exists e. split; [apply elem_of_cons; auto|]. auto.
      * assert (Hnone : forall e, e ∈ rest ->
                          PersonaConfig.Usernames e.2 !! username = None).
        { intros e He. destruct (PersonaConfig.Usernames e.2 !! username) eqn:El;
            [|reflexivity]. exfalso. apply Hnot. exists e. rewrite El. eauto. }
        apply elem_of_cons in Hin as [->|Hin].
        -- exists persona. split; [apply elem_of_cons; auto|]. split; [exact Hsome|].
           rewrite (IH2 Hnone). destruct Hsome as [a Ha].
           rewrite Ha. apply lookup_union_Some_l. exact Ha.
        -- exfalso. apply Hnot. eauto.
Qed.

Lemma GetAllUsers_lookup c username :
  (forall addresses, GetAllUsers c !! username = Some addresses ->
     Config.Users c !! username = Some addresses \/ persona_has c username addresses)
  /\ ((forall addresses, ~ persona_has c username addresses) ->
      GetAllUsers c !! username = Config.Users c !! username)
  /\ ((exists addresses, persona_has c username addresses) ->
      exists addresses,
        persona_has c username addresses /\ GetAllUsers c !! username = Some addresses).
Proof.
  unfold GetAllUsers. rewrite add_users_map, (right_id_L ∅ (∪)).
  destruct (add_personas_lookup (map_to_list (Config.Personas c)) username (Config.Users c))
    as (H1 & H2 & H3).
  cbv zeta in H1, H2, H3. split; [|split].
  - intros addresses Hl. destruct (H1 addresses Hl) as [Hb|([slug persona] & Hin & Hp)];
      [auto|].
    right. exists slug, persona. split; [apply elem_of_map_to_list; exact Hin|exact Hp].
  - intros Hnone. apply H2. intros [slug persona] Hin.
    destruct (PersonaConfig.Usernames (slug, persona).2 !! username) as [addresses|] eqn:El;
      [|reflexivity].
    exfalso. apply (Hnone addresses). exists slug, persona.
    split; [apply elem_of_map_to_list; exact Hin|exact El].
  - intros (addresses & slug & persona & Hp & Hl).
    destruct H3 as ([slug' persona'] & Hin & [a Ha] & Hres).
    { exists (slug, persona). split; [apply elem_of_map_to_list; exact Hp|].
      simpl. rewrite Hl. eauto. }
    exists a. split; [|rewrite Hres; exact Ha].
    exists slug', persona'. split; [apply elem_of_map_to_list; exact Hin|exact Ha].
Qed.

(** X22. [GetAllUsers] merges the legacy users and the users of the
    personas, and a persona takes precedence: every entry of the result
    is a legacy user or a user of some persona; a username that no
    persona lists keeps its legacy addresses; a username that some
    persona lists gets the addresses that a persona gives it, whatever
    the legacy configuration says. *)
Theorem persona_users_override_legacy_users (c : Config.t) (username : string) :
  (forall addresses, GetAllUsers c !! username = Some addresses ->
     Config.Users c !! username = Some addresses \/ persona_has c username addresses)
  /\ ((forall addresses, ~ persona_has c username addresses) ->
      GetAllUsers c !! username = Config.Users c !! username)
  /\ ((exists addresses, persona_has c username addresses) ->
      exists addresses,
        persona_has c username addresses /\ GetAllUsers c !! username = Some addresses).
Proof. apply GetAllUsers_lookup. Qed.

Lemma persona_users_override_legacy_users_witness :
  exists addresses,
    persona_has sample_config "alice" addresses
    /\ GetAllUsers sample_config !! "alice"%string = Some addresses.
Proof.
  apply (persona_users_override_legacy_users sample_config "alice").
  exists ["0xnew"%string], "whale"%string,
    (PersonaConfig.mk "The Whale" ""
       (<["alice"%string := ["0xnew"%string]]> (<["carol"%string := ["0xc"%string]]> ∅))).
  split; reflexivity.
Defined.

(** X23. A configuration that [Validate] accepts hands the sync service
    at least one account, and well-formed accounts only: every entry of
    [GetAllUsers] has a non-empty username and a non-empty list of
    non-empty addresses, and the accounts that a sync cycle ranges over
    have pairwise distinct usernames. *)
Theorem validated_config_gives_wellformed_accounts (c : Config.t) :
  Validate c = None ->
  GetAllUsers c <> ∅
  /\ map_Forall wellformed_account (GetAllUsers c)
  /\ NoDup (map_to_list (GetAllUsers c)).*1.
Proof.
  intros Hvalid. apply Validate_None in Hvalid as (_ & _ & _ & Hsome & Husers & Hpersonas).
  split; [|split; [|apply NoDup_fst_map_to_list]].
  - assert (Hentry : exists username, is_Some (GetAllUsers c !! username)).
    { assert (Hcase : (exists username addresses, persona_has c username addresses)
                      \/ exists username addresses,
                           Config.Users c !! username = Some addresses).
      { destruct Hsome as [Hu|Hp].
        - right. apply map_choose in Hu as (username & addresses & H). eauto.
        - left. apply map_choose in Hp as (slug & persona & H).
          destruct (Hpersonas slug persona H) as (_ & _ & Hne & _).
          apply map_choose in Hne as (username & addresses & H').
          exists username, addresses, slug, persona. auto. }
      destruct Hcase as [(username & addresses & Hp)|(username & addresses & Hu)].
      - exists username. destruct (GetAllUsers_lookup c username) as (_ & _ & H3).
        destruct H3 as (a & _ & Ha); [eauto|]. rewrite Ha. eauto.
      - exists username. destruct (GetAllUsers_lookup c username) as (_ & H2 & H3).
        destruct (GetAllUsers c !! username) as [a|] eqn:El; [eauto|].
        exfalso.
        assert (Hnone : forall a, ~ persona_has c username a).
        { intros a Hp. destruct H3 as (a' & _ & Ha'); [eauto|]. discriminate Ha'. }
        rewrite <- (H2 Hnone) in Hu. discriminate Hu. }
    destruct Hentry as (username & a & Ha). intros Hempty.
    rewrite Hempty, lookup_empty in Ha. discriminate Ha.
  - intros username addresses Hl.
    destruct (GetAllUsers_lookup c username) as (H1 & _ & _).
    destruct (H1 addresses Hl) as [Hu|(slug & persona & Hp & Hpu)].
    + exact (Husers username addresses Hu).
    + destruct (Hpersonas slug persona Hp) as (_ & _ & _ & Hall).
      exact (Hall username addresses Hpu).
Qed.

Lemma validated_config_gives_wellformed_accounts_witness :
  Validate sample_config = None
  /\ map_Forall wellformed_account (GetAllUsers sample_config).
Proof.
  assert (H : Validate sample_config = None) by (vm_compute; reflexivity).
  split; [exact H|].
  exact (proj1 (proj2 (validated_config_gives_wellformed_accounts sample_config H))).
Defined.

(** ** The trades that a sync stores *)

Lemma nonempty_Some s x : nonempty s = Some x -> x = s /\ s <> ""%string.
Proof.
  unfold nonempty. destruct (String.eqb s "") eqn:E; [discriminate|].
  apply String.eqb_neq in E. intros [= <-]. auto.
Qed.

Lemma trade_row_synced userID address trade :
  trade_not_null (trade_row userID address trade) = true ->
  synced_trade (trade_row userID address trade).
Proof.
  unfold trade_not_null, synced_trade, trade_row. cbn [Trade.ConditionID Trade.Side Trade.Price
    Trade.Size Trade.Timestamp Trade.Value].
  destruct (nonempty (TradeResponse.ConditionID trade)) as [cid|] eqn:Ec; [|discriminate].
  destruct (nonempty (TradeResponse.Side trade)) as [side|] eqn:Es; [|discriminate].
  destruct (TradeResponse.Price trade) as [price|]; [|discriminate].
  destruct (TradeResponse.Size trade) as [size|]; [|discriminate].
  destruct (0 <? TradeResponse.Timestamp trade) eqn:Et; [|discriminate].
  intros _. apply nonempty_Some in Ec as [-> Hc]. apply nonempty_Some in Es as [-> Hs].
  apply Z.ltb_lt in Et.
  exists (TradeResponse.ConditionID trade), (TradeResponse.Side trade), price, size,
    (TradeResponse.Timestamp trade).
  repeat split; assumption.
Qed.

#[local] Instance adds_synced_trades_preorder : PreOrder adds_synced_trades.
Proof.
  split.
  - intros d. exists []. rewrite app_nil_r. split; [reflexivity|constructor].
  - intros a b c (l1 & H1 & F1) (l2 & H2 & F2). exists (l1 ++ l2).
    rewrite H2, H1, app_assoc. split; [reflexivity|]. apply Forall_app. auto.
Qed.

Lemma adds_no_trade d d' : trades d' = trades d -> adds_synced_trades d d'.
Proof. intros H. exists []. rewrite app_nil_r. split; [exact H|constructor]. Qed.

(** X25. Every trade that a sync cycle stores is complete: the cycle
    only appends to the trades table, and each row that it appends has a
    non-empty condition id and side, a price, a size, the value
    price times size, and a timestamp after the epoch; a fetched trade
    that lacks one of them is dropped (and logged as a likely
    duplicate). *)
Theorem sync_stores_complete_trades_only
    (env : Env) (users : list (string * list string)) (w : World) :
  exists added,
    trades (db (syncAll env users w).2) = trades (db w) ++ added
    /\ Forall synced_trade added.
Proof.
  apply (syncAll_keeps adds_synced_trades env users).
  intros username addresses w0.
  set (userID := match find_user username (db w0) with Some u => User.ID u | None => 0 end).
  apply (syncUser_frame adds_synced_trades env userID).
  - intros f d _. apply adds_no_trade. reflexivity.
  - intros d. apply adds_no_trade. reflexivity.
  - intros pos d _. apply adds_no_trade. reflexivity.
  - intros address trade d t Hnn. unfold adds_synced_trades. simpl.
    destruct (existsb (same_trade t) (trades d)).
    + exists []. rewrite app_nil_r. split; [reflexivity|constructor].
    + exists [t]. split; [reflexivity|]. constructor; [|constructor].
      apply trade_row_synced. exact Hnn.
  - intros s d _. apply adds_no_trade. reflexivity.
  - intros user Hu. subst userID. rewrite Hu. reflexivity.
Qed.

(** ** The PnL history endpoint *)

Lemma GetUserPnl_run env history username start end_ w :
  GetUserPnl env history username start end_ w
  = let w0 := mkWorld (db w) (events w ++ [Sql (SelectUser username)]) (logs w) in
    match sql_error env (SelectUser username), find_user username (db w) with
    | None, Some user =>
        match history (User.ID user) start end_ (db w) with
        | Ok snapshots =>
            (Ok (respondJSON 200 (PnlHistoryBody username (map data_point snapshots))), w0)
        | Err _ =>
            (Ok (respondError 500 "Failed to get PNL history"),
             mkWorld (db w) (events w0)
               (logs w ++ [mkLog Error "failed to get pnl history" username]))
        end
    | _, _ =>
        (Ok (respondError 404 "User not found"),
         mkWorld (db w) (events w0) (logs w ++ [mkLog Error "failed to get user" username]))
    end.
Proof.
  unfold GetUserPnl, GetUserPnlHistory, GetUser, query, bind, try, emit, read_db, ret, fail, log.
  simpl.
  destruct (sql_error env (SelectUser username)); simpl; [reflexivity|].
  destruct (find_user username (db w)) as [user|]; simpl; [|reflexivity].
  destruct (history (User.ID user) start end_ (db w)); reflexivity.
Qed.

(** X26. The PnL history endpoint never writes and always answers: 404
    whenever the lookup of the account fails, be it for a missing account
    or for an error of the driver (which the backfill endpoint reports as
    500); 500 when the account is found and the history query fails; and
    otherwise 200 with one data point per snapshot that the history query
    returns for the id of the account and the bounds, in the order of
    the rows, a NULL column being shown as zero. *)
Theorem pnl_endpoint_status
    (env : Env) (history : Z -> option Z -> option Z -> DB -> result (list PnlSnapshot.t))
    (username : string) (start end_ : option Z) (w : World) :
  let r := GetUserPnl env history username start end_ w in
  db r.2 = db w
  /\ exists resp,
       r.1 = Ok resp
       /\ (status resp = 404 <->
           sql_error env (SelectUser username) <> None
           \/ find_user username (db w) = None)
       /\ (status resp = 500 <->
           sql_error env (SelectUser username) = None
           /\ exists user e, find_user username (db w) = Some user
                /\ history (User.ID user) start end_ (db w) = Err e)
       /\ (status resp = 200 <->
           sql_error env (SelectUser username) = None
           /\ exists user snapshots, find_user username (db w) = Some user
                /\ history (User.ID user) start end_ (db w) = Ok snapshots
                /\ payload resp = PnlHistoryBody username (map data_point snapshots))
       /\ (status resp = 200 \/ status resp = 404 \/ status resp = 500).
Proof.
  cbv zeta. rewrite GetUserPnl_run. cbv zeta.
  destruct (sql_error env (SelectUser username)) as [e|] eqn:Es.
  { split; [reflexivity|]. eexists. split; [reflexivity|]. simpl.
    split; [split; [left; discriminate|reflexivity]|].
    split; [split; [discriminate|intros [H _]; discriminate H]|].
    split; [split; [discriminate|intros [H _]; discriminate H]|auto]. }
  destruct (find_user username (db w)) as [user|] eqn:Ef.
  2:{ split; [reflexivity|]. eexists. split; [reflexivity|]. simpl.
      split; [split; [auto|reflexivity]|].
      split; [split; [discriminate|intros (_ & u & ? & H & _); discriminate H]|].
      split; [split; [discriminate|intros (_ & u & ? & H & _); discriminate H]|auto]. }
  destruct (history (User.ID user) start end_ (db w)) as [snapshots|e] eqn:Eh.
  - split; [reflexivity|]. eexists. split; [reflexivity|]. simpl.
    split; [split; [discriminate|intros [H|H]; [contradiction|discriminate H]]|].
    split; [split; [discriminate|]|].
    { intros (_ & u & e & [= <-] & H). congruence. }
    split; [split; [|reflexivity]|auto].
    intros _. split; [reflexivity|]. exists user, snapshots. auto.
  - split; [reflexivity|]. eexists. split; [reflexivity|]. simpl.
    split; [split; [discriminate|intros [H|H]; [contradiction|discriminate H]]|].
    split; [split; [|reflexivity]|].
    { intros _. split; [reflexivity|]. exists user, e. auto. }
    split; [split; [discriminate|]|auto].
    intros (_ & u & sn & [= <-] & H & _). congruence.
Qed.

Lemma pnl_endpoint_status_witness :
  exists resp,
    (GetUserPnl upstream_down (fun userID _ _ d => Ok (user_snapshots userID d))
       "alice" None None sample_world).1 = Ok resp
    /\ status resp = 200
    /\ payload resp = PnlHistoryBody "alice" [data_point stale_snapshot].
Proof.
  destruct (pnl_endpoint_status upstream_down (fun userID _ _ d => Ok (user_snapshots userID d))
              "alice" None None sample_world) as (_ & resp & Hok & _ & _ & H200 & _).
  exists resp. split; [exact Hok|].
  rewrite GetUserPnl_run in Hok. injection Hok as <-.
  split; [|reflexivity]. apply H200.
  split; [reflexivity|]. exists alice, [stale_snapshot]. auto.
Defined.
